(** * kojirou/cmd/crop: automatic border cropping

    A shallow embedding of [cmd/crop/root.go] and the properties of its
    border-location algorithm.  The repository carries two variants of the
    file: the _extended_ profile (two 32-bit hashes per line, module
    [Extended]) and the _simplified_ profile (one 64-bit hash per line, module
    [Simplified]).  The functions the two variants share verbatim ([Crop],
    [Bounds], [findBorder], [pointInScanCorner], [scanLineForNonWhitespace])
    are embedded once.

    Modelling conventions
    - Go's [int] is embedded as [Z]; coordinates of a raster stay far from the
      limits of the machine word, so no wrap-around is written for them.  The
      fixed-width types of the source ([uint32], [uint64], [uint8]) are [Z]
      with their wrap-around written out, and [float64] is Rocq's binary64
      [float].
    - A Go run-time panic is the outcome [Panic]; every [for] loop takes a
      [fuel] argument that is decremented once per iteration, and running out
      of it is the outcome [OutOfFuel]. *)

From Stdlib Require Import ZArith Bool Lia String Floats Uint63.

Local Open Scope Z_scope.

(** ** Outcomes of a Go computation *)

Inductive panic : Set :=
| DivideByZero     (* integer divide by zero *)
| NilDereference   (* method call through a nil interface value *)
| NegativeShift.   (* negative shift amount *)

Inductive outcome (A : Type) : Type :=
| Ret (a : A)
| Panic (p : panic)
| OutOfFuel.

Arguments Ret {A} a.
Arguments Panic {A} p.
Arguments OutOfFuel {A}.

Definition bind {A B : Type} (m : outcome A) (k : A -> outcome B) : outcome B :=
  match m with
  | Ret a => k a
  | Panic p => Panic p
  | OutOfFuel => OutOfFuel
  end.

Notation "x <- m ;; k" := (bind m (fun x => k))
  (at level 61, m at next level, right associativity).

(** Go's [/] and [%] on [int] truncate toward zero and panic on a zero
    divisor. *)
Definition go_quo (a b : Z) : outcome Z :=
  if b =? 0 then Panic DivideByZero else Ret (Z.quot a b).

Definition go_rem (a b : Z) : outcome Z :=
  if b =? 0 then Panic DivideByZero else Ret (Z.rem a b).

(** Conversions to the fixed-width types. *)
Definition uint32 (z : Z) : Z := z mod 2 ^ 32.
Definition uint64 (z : Z) : Z := z mod 2 ^ 64.

(** [float64(n)] for an [int] [n]. *)
Definition float64 (z : Z) : float :=
  if z <? 0 then PrimFloat.opp (PrimFloat.of_uint63 (Uint63.of_Z (- z)))
  else PrimFloat.of_uint63 (Uint63.of_Z z).

(** ** Package [image/color] *)

Module color.

(** A colour is represented by what its [RGBA()] method returns. *)
Record Color : Set := RGBA { R : Z; G : Z; B : Z; A : Z }.

(** [color.Gray{y}.RGBA()] *)
Definition Gray (y : Z) : Color :=
  let v := Z.lor y (Z.shiftl y 8) in RGBA v v v 65535.

(** [color.GrayModel.Convert(c).(color.Gray).Y]; the conversion always
    yields a [color.Gray], so the type assertion of the source always
    succeeds. *)
Definition GrayModel (c : Color) : Z :=
  Z.shiftr (uint32 (19595 * R c + 38470 * G c + 7471 * B c + Z.shiftl 1 15)) 24.

Definition White : Color := RGBA 65535 65535 65535 65535.
Definition Black : Color := RGBA 0 0 0 65535.

End color.

(** ** Package [image] *)

Module image.

Record Point : Set := Pt { X : Z; Y : Z }.

Record Rectangle : Set := Rectangle_ { Min : Point; Max : Point }.

Definition Add (p q : Point) : Point := Pt (X p + X q) (Y p + Y q).

Definition Sub (p q : Point) : Point := Pt (X p - X q) (Y p - Y q).

Definition In (p : Point) (r : Rectangle) : bool :=
  (X (Min r) <=? X p) && (X p <? X (Max r)) &&
  (Y (Min r) <=? Y p) && (Y p <? Y (Max r)).

(** [image.Rect] orders its coordinates. *)
Definition Rect (x0 y0 x1 y1 : Z) : Rectangle :=
  let '(x0, x1) := if x1 <? x0 then (x1, x0) else (x0, x1) in
  let '(y0, y1) := if y1 <? y0 then (y1, y0) else (y0, y1) in
  Rectangle_ (Pt x0 y0) (Pt x1 y1).

(** A value of interface type [image.Image]: its two methods used by the
    package, and the two optional interfaces the package asserts on. *)
#[local] Unset Elimination Schemes.
Inductive Image : Type := Image_ {
  Bounds : Rectangle;
  At : Z -> Z -> color.Color;
  SubImage : option (Rectangle -> Image);   (* interface{ SubImage(r) } *)
  RGBA64Image : bool                          (* implements image.RGBA64Image *)
}.
#[local] Set Elimination Schemes.

End image.

Import image.

(** ** Package [math/bits] *)

Module bits.

Fixpoint OnesCount (width : nat) (x : Z) : Z :=
  match width with
  | O => 0
  | S w => Z.b2z (Z.testbit x (Z.of_nat w)) + OnesCount w x
  end.

Definition OnesCount32 (x : Z) : Z := OnesCount 32 x.
Definition OnesCount64 (x : Z) : Z := OnesCount 64 x.

End bits.

(** ** Package [crop]: what both variants share *)

Definition grayDarknessLimit : Z := 128.
Definition minDistinctBitsBetweenLines : Z := 1.

Definition error : Set := string.

Definition Crop (img : Image) (bounds : Rectangle) : option Image * option error :=
  match SubImage img with
  | None => (None, Some "image does not support cropping"%string)
  | Some simg => (Some (simg bounds), None)
  end.

Definition pointInScanCorner (rect : Rectangle) (dir : Point) : Point :=
  if (X dir <? 0) || (Y dir <? 0) then Sub (Max rect) (Pt 1 1) else Min rect.

(** The luminance read at a point: [color.GrayModel.Convert(img.At(x, y))]. *)
Definition grayAt (img : Image) (spt : Point) : Z :=
  color.GrayModel (At img (X spt) (Y spt)).

(** The loop variable [spt] starts at [pt]. *)
Fixpoint scanLineForNonWhitespace (fuel : nat) (img : Image) (pt scan : Point)
  : outcome bool :=
  match fuel with
  | O => OutOfFuel
  | S fuel' =>
      if In pt (image.Bounds img) then
        if grayAt img pt <=? grayDarknessLimit then Ret true
        else scanLineForNonWhitespace fuel' img (Add pt scan) scan
      else Ret false
  end.

(** The [for] loop of [findBorder]; [lineFuel] is handed to each line scan. *)
Fixpoint findBorder_loop (fuel lineFuel : nat) (img : Image)
    (bounds : Rectangle) (dir scan dpt : Point) : outcome Point :=
  match fuel with
  | O => OutOfFuel
  | S fuel' =>
      nonWhite <- scanLineForNonWhitespace lineFuel img dpt scan ;;
      if negb nonWhite then
        let dpt := Add dpt dir in
        if negb (In dpt bounds) then Ret (pointInScanCorner bounds dir)
        else findBorder_loop fuel' lineFuel img bounds dir scan dpt
      else Ret dpt
  end.

Definition findBorder (fuel : nat) (img : Image) (dir : Point) : outcome Point :=
  let bounds := image.Bounds img in
  let scan := Pt (Y dir) (X dir) in
  let dpt := pointInScanCorner bounds dir in
  dpt <- findBorder_loop fuel fuel img bounds dir scan dpt ;;
  if (X dir <? 0) || (Y dir <? 0) then Ret (Sub dpt dir) else Ret dpt.

Definition Bounds (fuel : nat) (img : Image) : outcome Rectangle :=
  left <- findBorder fuel img (Pt 1 0) ;;
  right <- findBorder fuel img (Pt (-1) 0) ;;
  top <- findBorder fuel img (Pt 0 1) ;;
  bottom <- findBorder fuel img (Pt 0 (-1)) ;;
  Ret (Rect (X left) (Y top) (X right) (Y bottom)).

(** ** The extended profile: a base hash and a contrast hash of 32 bits *)

Module Extended.

Definition maxDistinctBitsBetweenLines : Z := 3.
Definition blackHighContrastThreshold : Z := 30.
Definition whiteHighContrastThreshold : Z := 230.
Definition highContrastPercent : float := 12%float.

(** [n |= (1 << pos)] on a [uint32]: the constant [1] takes the type of [n],
    so a shift by 32 or more yields 0. *)
Definition setBit32 (n : Z) (pos : Z) : outcome Z :=
  if pos <? 0 then Panic NegativeShift
  else Ret (Z.lor n (uint32 (Z.shiftl 1 pos))).

(** The variables the loop of [lineAverageHash] updates. *)
Record locals : Set := Locals {
  i : Z;
  lows : float;
  highs : float;
  partialSum : Z;
  avgHash : Z;
  highContrastHash : Z
}.

(** The body of [if i%windowSize == windowSize-1 { ... }]. *)
Definition closeWindow (windowSize : Z) (st : locals) : outcome locals :=
  let threshold :=
    PrimFloat.div (PrimFloat.mul (float64 windowSize) highContrastPercent) 100%float in
  if uint32 (uint32 windowSize * grayDarknessLimit) <? partialSum st then
    pos <- go_quo (i st) windowSize ;;
    avgHash' <- setBit32 (avgHash st) pos ;;
    if PrimFloat.ltb threshold (lows st) then
      pos <- go_quo (i st) windowSize ;;
      highContrastHash' <- setBit32 (highContrastHash st) pos ;;
      Ret (Locals (i st) 0%float 0%float 0 avgHash' highContrastHash')
    else
      Ret (Locals (i st) 0%float 0%float 0 avgHash' (highContrastHash st))
  else
    if PrimFloat.ltb threshold (highs st) then
      pos <- go_quo (i st) windowSize ;;
      highContrastHash' <- setBit32 (highContrastHash st) pos ;;
      Ret (Locals (i st) 0%float 0%float 0 (avgHash st) highContrastHash')
    else
      Ret (Locals (i st) 0%float 0%float 0 (avgHash st) (highContrastHash st)).

(** One iteration of the loop body on a pixel of luminance [gray]. *)
Definition hashPixel (windowSize : Z) (gray : Z) (st : locals) : outcome locals :=
  r <- go_rem (i st) windowSize ;;
  st <- (if r =? windowSize - 1 then closeWindow windowSize st else Ret st) ;;
  let partialSum := uint32 (partialSum st + gray) in
  let highs :=
    if whiteHighContrastThreshold <? gray then PrimFloat.add (highs st) 1%float
    else highs st in
  let lows :=
    if gray <? blackHighContrastThreshold then PrimFloat.add (lows st) 1%float
    else lows st in
  Ret (Locals (i st + 1) lows highs partialSum (avgHash st) (highContrastHash st)).

Fixpoint lineAverageHash_loop (fuel : nat) (img : Image) (scan : Point)
    (windowSize : Z) (spt : Point) (st : locals) : outcome (Z * Z) :=
  match fuel with
  | O => OutOfFuel
  | S fuel' =>
      if In spt (image.Bounds img) then
        st <- hashPixel windowSize (grayAt img spt) st ;;
        lineAverageHash_loop fuel' img scan windowSize (Add spt scan) st
      else Ret (avgHash st, highContrastHash st)
  end.

Definition lineAverageHash (fuel : nat) (img : Image) (pt scan : Point)
  : outcome (Z * Z) :=
  let length :=
    if negb (X scan =? 0) then X (Max (image.Bounds img))
    else Y (Max (image.Bounds img)) in
  let windowSize := Z.quot length 32 in
  lineAverageHash_loop fuel img scan windowSize pt
    (Locals 0 0%float 0%float 0 0 0).

Definition hashesMatch (prevAvg prevHighContrast avgHash highContrastHash : Z) : bool :=
  if ((Z.lxor prevAvg 4294967295 =? 0) || (Z.lxor prevAvg 0 =? 0)) &&
     (minDistinctBitsBetweenLines <=?
        bits.OnesCount32 (Z.lxor avgHash prevAvg) +
        bits.OnesCount32 (Z.lxor highContrastHash prevHighContrast))
  then false
  else if maxDistinctBitsBetweenLines <=?
            bits.OnesCount32 (Z.lxor avgHash prevAvg) +
            bits.OnesCount32 (Z.lxor highContrastHash prevHighContrast)
  then false
  else true.

(** The [for { ... }] loop of [findBorderUsingAvgHash]. *)
Fixpoint findBorderUsingAvgHash_loop (fuel lineFuel : nat) (img : Image)
    (bounds : Rectangle) (dir scan dpt : Point) (prevAvg prevHighContrast : Z)
  : outcome Point :=
  match fuel with
  | O => OutOfFuel
  | S fuel' =>
      h <- lineAverageHash lineFuel img dpt scan ;;
      let '(avgHash, highContrastHash) := h in
      if negb (hashesMatch prevAvg prevHighContrast avgHash highContrastHash)
      then Ret dpt
      else
        let dpt := Add dpt dir in
        if negb (In dpt bounds) then Ret (pointInScanCorner bounds dir)
        else findBorderUsingAvgHash_loop fuel' lineFuel img bounds dir scan dpt
               avgHash highContrastHash
  end.

Definition findBorderUsingAvgHash (fuel : nat) (img : Image) (dir : Point)
  : outcome Point :=
  let bounds := image.Bounds img in
  let scan := Pt (Y dir) (X dir) in
  let dpt := pointInScanCorner bounds dir in
  h <- lineAverageHash fuel img dpt scan ;;
  let '(prevAvg, prevHighContrast) := h in
  let dpt := Add dpt dir in
  dpt <- findBorderUsingAvgHash_loop fuel fuel img bounds dir scan dpt
           prevAvg prevHighContrast ;;
  if (X dir <? 0) || (Y dir <? 0) then Ret (Sub dpt dir) else Ret dpt.

Definition BoundsHash (fuel : nat) (img : Image) : outcome Rectangle :=
  left <- findBorderUsingAvgHash fuel img (Pt 1 0) ;;
  right <- findBorderUsingAvgHash fuel img (Pt (-1) 0) ;;
  top <- findBorderUsingAvgHash fuel img (Pt 0 1) ;;
  bottom <- findBorderUsingAvgHash fuel img (Pt 0 (-1)) ;;
  Ret (Rect (X left) (Y top) (X right) (Y bottom)).

Definition Auto (fuel : nat) (img : Image) : outcome (option Image * option error) :=
  bounds <- BoundsHash fuel img ;;
  let '(cropped, err) := Crop img bounds in
  match err with
  | Some e => Ret (None, Some e)
  | None => Ret (cropped, None)
  end.

End Extended.

(** ** The simplified profile: one hash of 64 bits *)

Module Simplified.

(** [n |= (1 << pos)] on a [uint64]. *)
Definition setBit64 (n : Z) (pos : Z) : outcome Z :=
  if pos <? 0 then Panic NegativeShift
  else Ret (Z.lor n (uint64 (Z.shiftl 1 pos))).

Record locals : Set := Locals {
  hash : Z;
  i : Z;
  partialSum : Z
}.

Definition closeWindow (windowSize : Z) (st : locals) : outcome locals :=
  if uint32 (uint32 windowSize * grayDarknessLimit) <? partialSum st then
    pos <- go_quo (i st) windowSize ;;
    hash' <- setBit64 (hash st) pos ;;
    Ret (Locals hash' (i st) 0)
  else Ret (Locals (hash st) (i st) 0).

Definition hashPixel (windowSize : Z) (gray : Z) (st : locals) : outcome locals :=
  r <- go_rem (i st) windowSize ;;
  st <- (if r =? windowSize - 1 then closeWindow windowSize st else Ret st) ;;
  Ret (Locals (hash st) (i st + 1) (uint32 (partialSum st + gray))).

Fixpoint lineAverageHash_loop (fuel : nat) (img : Image) (scan : Point)
    (windowSize : Z) (spt : Point) (st : locals) : outcome Z :=
  match fuel with
  | O => OutOfFuel
  | S fuel' =>
      if In spt (image.Bounds img) then
        st <- hashPixel windowSize (grayAt img spt) st ;;
        lineAverageHash_loop fuel' img scan windowSize (Add spt scan) st
      else Ret (hash st)
  end.

(** The argument is an interface value, [None] being the nil interface:
    [img.Bounds()] on it panics. *)
Definition lineAverageHash (fuel : nat) (img : option Image) (pt scan : Point)
  : outcome Z :=
  match img with
  | None => Panic NilDereference
  | Some img =>
      let length :=
        if negb (X scan =? 0) then X (Max (image.Bounds img))
        else Y (Max (image.Bounds img)) in
      let windowSize := Z.quot length 64 in
      lineAverageHash_loop fuel img scan windowSize pt (Locals 0 0 0)
  end.

(** The test [bits.OnesCount64(hash^prev) >= minDistinctBitsBetweenLines]
    that leaves the loop. *)
Definition hashesDiffer (prev hash : Z) : bool :=
  minDistinctBitsBetweenLines <=? bits.OnesCount64 (Z.lxor hash prev).

Fixpoint findBorderUsingAvgHash_loop (fuel lineFuel : nat) (rgbimg : option Image)
    (bounds : Rectangle) (dir scan dpt : Point) (prev : Z) : outcome Point :=
  match fuel with
  | O => OutOfFuel
  | S fuel' =>
      hash <- lineAverageHash lineFuel rgbimg dpt scan ;;
      if hashesDiffer prev hash then Ret dpt
      else
        let dpt := Add dpt dir in
        if negb (In dpt bounds) then Ret (pointInScanCorner bounds dir)
        else findBorderUsingAvgHash_loop fuel' lineFuel rgbimg bounds dir scan dpt hash
  end.

Definition findBorderUsingAvgHash (fuel : nat) (img : Image) (dir : Point)
  : outcome Point :=
  let bounds := image.Bounds img in
  let scan := Pt (Y dir) (X dir) in
  let dpt := pointInScanCorner bounds dir in
  (* rgbimg, _ := img.(image.RGBA64Image) *)
  let rgbimg := if RGBA64Image img then Some img else None in
  prev <- lineAverageHash fuel rgbimg dpt scan ;;
  let dpt := Add dpt dir in
  dpt <- findBorderUsingAvgHash_loop fuel fuel rgbimg bounds dir scan dpt prev ;;
  if (X dir <? 0) || (Y dir <? 0) then Ret (Sub dpt dir) else Ret dpt.

Definition BoundsHash (fuel : nat) (img : Image) : outcome Rectangle :=
  left <- findBorderUsingAvgHash fuel img (Pt 1 0) ;;
  right <- findBorderUsingAvgHash fuel img (Pt (-1) 0) ;;
  top <- findBorderUsingAvgHash fuel img (Pt 0 1) ;;
  bottom <- findBorderUsingAvgHash fuel img (Pt 0 (-1)) ;;
  Ret (Rect (X left) (Y top) (X right) (Y bottom)).

Definition Auto (fuel : nat) (img : Image) : outcome (option Image * option error) :=
  bounds <- BoundsHash fuel img ;;
  let '(cropped, err) := Crop img bounds in
  match err with
  | Some e => Ret (None, Some e)
  | None => Ret (cropped, None)
  end.

End Simplified.

(** ** Vocabulary of the specification *)

(** The four direction vectors. *)
Definition isDirection (dir : Point) : Prop :=
  dir = Pt 1 0 \/ dir = Pt (-1) 0 \/ dir = Pt 0 1 \/ dir = Pt 0 (-1).

(** [dir.X < 0 || dir.Y < 0]: the scan starts at the high-indexed corner. *)
Definition negative (dir : Point) : bool := (X dir <? 0) || (Y dir <? 0).

(** [p.Mul(k)] of package [image]. *)
Definition Mul (p : Point) (k : Z) : Point := Pt (X p * k) (Y p * k).

(** Position of the [k]-th line of a directional scan, counted from the
    corner the scan starts at. *)
Definition line (img : Image) (dir : Point) (k : nat) : Point :=
  Add (pointInScanCorner (image.Bounds img) dir) (Mul dir (Z.of_nat k)).

(** [q] lies on the scan-line through [p]: a column when the scan advances
    along x, a row when it advances along y. *)
Definition sameLine (dir p q : Point) : Prop :=
  if X dir =? 0 then Y q = Y p else X q = X p.

(** The scan-line through [p] holds a pixel of luminance at most 128. *)
Definition darkOnLine (img : Image) (dir p : Point) : Prop :=
  exists q, In q (image.Bounds img) = true /\ sameLine dir p q /\
            grayAt img q <= grayDarknessLimit.

(** Every pixel of the raster has luminance [g]. *)
Definition uniform (img : Image) (g : Z) : Prop :=
  forall p, In p (image.Bounds img) = true -> grayAt img p = g.

(** Number of bit positions below [width] at which [a] and [b] differ. *)
Fixpoint hammingDistance (width : nat) (a b : Z) : Z :=
  match width with
  | O => 0
  | S w =>
      (if Bool.eqb (Z.testbit a (Z.of_nat w)) (Z.testbit b (Z.of_nat w))
       then 0 else 1) + hammingDistance w a b
  end.

(** All of the low [width] bits are 0, or all of them are 1. *)
Definition saturated (width : Z) (h : Z) : Prop :=
  (forall k, 0 <= k < width -> Z.testbit h k = false) \/
  (forall k, 0 <= k < width -> Z.testbit h k = true).

(** Iterations that let every loop of a scan over [r] run to its end: one
    more than the larger extent of the rectangle. *)
Definition passFuel (r : Rectangle) : nat :=
  S (Z.to_nat (Z.max (X (Max r) - X (Min r)) (Y (Max r) - Y (Min r)))).

(** Extent and bounds of a raster along the axis a line sweeps. *)
Definition sweptMax (img : Image) (scan : Point) : Z :=
  if negb (X scan =? 0) then X (Max (image.Bounds img))
  else Y (Max (image.Bounds img)).

Definition sweptMin (img : Image) (scan : Point) : Z :=
  if negb (X scan =? 0) then X (Min (image.Bounds img))
  else Y (Min (image.Bounds img)).

(** The rectangle holds at least one point. *)
Definition nonEmpty (r : Rectangle) : Prop :=
  X (Min r) < X (Max r) /\ Y (Min r) < Y (Max r).

(** Extent of the rectangle along the axis [dir] advances on. *)
Definition dirExtent (r : Rectangle) (dir : Point) : Z :=
  if X dir =? 0 then Y (Max r) - Y (Min r) else X (Max r) - X (Min r).

(** Steps of the unit vector [v] that take [p] out of [r]. *)
Definition stepsToLeave (r : Rectangle) (v p : Point) : Z :=
  if 0 <? X v then X (Max r) - X p
  else if X v <? 0 then X p - X (Min r) + 1
  else if 0 <? Y v then Y (Max r) - Y p
  else Y p - Y (Min r) + 1.

(** The shape the loops of [findBorderUsingAvgHash] share in both profiles:
    [hashLine] hashes the line at a point and [differ] is the test that
    leaves the loop. *)
Fixpoint hashScan_loop {H : Type} (hashLine : Point -> outcome H)
    (differ : H -> H -> bool) (fuel : nat) (bounds : Rectangle)
    (dir dpt : Point) (prev : H) : outcome Point :=
  match fuel with
  | O => OutOfFuel
  | S fuel' =>
      h <- hashLine dpt ;;
      if differ prev h then Ret dpt
      else
        let dpt := Add dpt dir in
        if negb (In dpt bounds) then Ret (pointInScanCorner bounds dir)
        else hashScan_loop hashLine differ fuel' bounds dir dpt h
  end.

Definition hashScan {H : Type} (hashLine : Point -> outcome H)
    (differ : H -> H -> bool) (fuel : nat) (bounds : Rectangle) (dir : Point)
  : outcome Point :=
  let dpt := pointInScanCorner bounds dir in
  prev <- hashLine dpt ;;
  let dpt := Add dpt dir in
  dpt <- hashScan_loop hashLine differ fuel bounds dir dpt prev ;;
  if negative dir then Ret (Sub dpt dir) else Ret dpt.

(** The two instances. *)
Definition differExtended (prev h : Z * Z) : bool :=
  negb (Extended.hashesMatch (fst prev) (snd prev) (fst h) (snd h)).

Definition hashLineExtended (fuel : nat) (img : Image) (dir : Point) (p : Point)
  : outcome (Z * Z) :=
  Extended.lineAverageHash fuel img p (Pt (Y dir) (X dir)).

Definition hashLineSimplified (fuel : nat) (img : Image) (dir : Point) (p : Point)
  : outcome Z :=
  Simplified.lineAverageHash fuel (if RGBA64Image img then Some img else None)
    p (Pt (Y dir) (X dir)).

(** Every bit set in [h] is the index of a window of [windowSize] pixels that
    lies within the first [n] pixels of a line. *)
Definition windowsClosed (windowSize h n : Z) : Prop :=
  forall j, 0 <= j -> Z.testbit h j = true -> (j + 1) * windowSize <= n.

(** Pixels a line scan along the unit vector [scan] visits from [spt] on. *)
Definition remaining (r : Rectangle) (scan spt : Point) : Z :=
  if In spt r then stepsToLeave r scan spt else 0.

(** What the loop of the extended [lineAverageHash] maintains, [n] pixels
    into the line. *)
Definition invExtended (windowSize n : Z) (st : Extended.locals) : Prop :=
  0 <= Extended.i st /\
  windowsClosed windowSize (Extended.avgHash st) n /\
  windowsClosed windowSize (Extended.highContrastHash st) n /\
  0 <= Extended.avgHash st < 2 ^ 32 /\
  0 <= Extended.highContrastHash st < 2 ^ 32.

(** The same for the simplified profile. *)
Definition invSimplified (windowSize n : Z) (st : Simplified.locals) : Prop :=
  0 <= Simplified.i st /\
  windowsClosed windowSize (Simplified.hash st) n /\
  0 <= Simplified.hash st < 2 ^ 64.

(** [r.Dx()], [r.Dy()] of package [image], and the area they span. *)
Definition Dx (r : Rectangle) : Z := X (Max r) - X (Min r).
Definition Dy (r : Rectangle) : Z := Y (Max r) - Y (Min r).
Definition area (r : Rectangle) : Z := Dx r * Dy r.

(** [q] is a pixel of the raster of luminance at most 128. *)
Definition darkAt (img : Image) (q : Point) : Prop :=
  In q (image.Bounds img) = true /\ grayAt img q <= grayDarknessLimit.

(** Coordinate of [p] along the axis and the sense of the unit vector [dir]. *)
Definition along (dir p : Point) : Z := X dir * X p + Y dir * Y p.

(** The rectangle [r] is well formed and lies within [b]. *)
Definition inside (r b : Rectangle) : Prop :=
  X (Min b) <= X (Min r) /\ X (Min r) <= X (Max r) /\ X (Max r) <= X (Max b) /\
  Y (Min b) <= Y (Min r) /\ Y (Min r) <= Y (Max r) /\ Y (Max r) <= Y (Max b).

(** Sum of the luminance of the [len] pixels a line scan from [pt] reads
    from its pixel number [start] on (the first pixel has number 0). *)
Fixpoint sumGray (img : Image) (pt scan : Point) (start : Z) (len : nat) : Z :=
  match len with
  | O => 0
  | S l =>
      sumGray img pt scan start l +
      grayAt img (Add pt (Mul scan (start + Z.of_nat l)))
  end.

(** Number of the first pixel that counts for the bit [j] of a line hash:
    the window of a bit ends before pixel [(j + 1) * w - 1]; it starts at the
    last pixel of the window before it, and at pixel 0 for bit 0. *)
Definition windowStart (w j : Z) : Z := if j =? 0 then 0 else j * w - 1.

(** Sum of the luminance that decides the bit [j]. *)
Definition windowSum (img : Image) (pt scan : Point) (w j : Z) : Z :=
  sumGray img pt scan (windowStart w j)
    (Z.to_nat ((j + 1) * w - 1 - windowStart w j)).

(** Number of the pixel since which [partialSum] accumulates, before pixel
    [k] is read. *)
Definition accStart (w k : Z) : Z := if k <? w then 0 else (k / w) * w - 1.

(** The low [width] bits of [hash] are those of the windows that end within
    the first [k] pixels and whose sum exceeds 128 times the window size. *)
Definition bitsUpTo (img : Image) (pt scan : Point) (w k width hash : Z) : Prop :=
  forall j, 0 <= j < width ->
    (Z.testbit hash j = true <->
     (j + 1) * w <= k /\ grayDarknessLimit * w < windowSum img pt scan w j).

(** The raster mirrored left to right within its bounds, and the mirror
    image of a rectangle within the bounds [b]. *)
Definition mirrorX (img : Image) : Image :=
  Image_ (image.Bounds img)
    (fun x y =>
       At img (X (Min (image.Bounds img)) + X (Max (image.Bounds img)) - 1 - x) y)
    (SubImage img) (RGBA64Image img).

Definition mirrorRectX (b r : Rectangle) : Rectangle :=
  Rectangle_ (Pt (X (Min b) + X (Max b) - X (Max r)) (Y (Min r)))
             (Pt (X (Min b) + X (Max b) - X (Min r)) (Y (Max r))).

(** ** Sample rasters *)

Definition raster (x0 y0 x1 y1 : Z) (at_ : Z -> Z -> color.Color) : Image :=
  Image_ (Rectangle_ (Pt x0 y0) (Pt x1 y1)) at_ None true.

(** A white raster of 40 by 40 pixels. *)
Definition white40 : Image := raster 0 0 40 40 (fun _ _ => color.White).

(** A white raster of 10 by 10 pixels. *)
Definition white10 : Image := raster 0 0 10 10 (fun _ _ => color.White).

(** A white raster of 70 by 70 pixels of a type that has neither [SubImage]
    nor the methods of [image.RGBA64Image]. *)
Definition plain70 : Image :=
  Image_ (Rectangle_ (Pt 0 0) (Pt 70 70)) (fun _ _ => color.White) None false.

(** Three columns of 32 pixels: two white ones, then a black one. *)
Definition whiteThenBlack : Image :=
  raster 0 0 3 32 (fun x _ => if x <? 2 then color.White else color.Black).

(** The same with columns of 64 pixels. *)
Definition whiteThenBlack64 : Image :=
  raster 0 0 3 64 (fun x _ => if x <? 2 then color.White else color.Black).

(** Three by three white pixels with a black one in the middle. *)
Definition dot3 : Image :=
  raster 0 0 3 3
    (fun x y => if (x =? 1) && (y =? 1) then color.Black else color.White).

(** A white raster of 3 by 3 pixels. *)
Definition white3 : Image := raster 0 0 3 3 (fun _ _ => color.White).

(** A white view of 3 by 32 pixels whose rows start at y = 1, as a
    sub-image keeping the coordinates of its parent has. *)
Definition view32 : Image := raster 0 1 3 33 (fun _ _ => color.White).

(** The same with 64 rows. *)
Definition view64 : Image := raster 0 1 3 65 (fun _ _ => color.White).

(** A white view of 3 by 40 pixels whose rows start at y = 40. *)
Definition view80 : Image := raster 0 40 3 80 (fun _ _ => color.White).

(** A raster of no width: its bounds hold no point. *)
Definition noColumns : Image := raster 5 5 5 9 (fun _ _ => color.White).

(** A white raster of 40 by 10 pixels. *)
Definition white40x10 : Image := raster 0 0 40 10 (fun _ _ => color.White).

(** A white raster of 5 by 4 pixels with black pixels at (1,2) and (3,1). *)
Definition twoDots : Image :=
  raster 0 0 5 4
    (fun x y => if ((x =? 1) && (y =? 2)) || ((x =? 3) && (y =? 1))
                then color.Black else color.White).

(** * Properties *)

(** ** Outcomes *)

Lemma bind_Ret_inv {A B : Type} (m : outcome A) (k : A -> outcome B) (b : B) :
  bind m k = Ret b -> exists a, m = Ret a /\ k a = Ret b.
Proof. destruct m; simpl; try discriminate. eauto. Qed.

Lemma bind_not_OutOfFuel {A B : Type} (m : outcome A) (k : A -> outcome B) :
  m <> OutOfFuel -> (forall a, m = Ret a -> k a <> OutOfFuel) ->
  bind m k <> OutOfFuel.
Proof. destruct m; simpl; intros Hm Hk; [ now apply Hk | discriminate | congruence ]. Qed.

(** ** Points and rectangles *)

Lemma In_true_iff (p : Point) (r : Rectangle) :
  In p r = true <->
  X (Min r) <= X p < X (Max r) /\ Y (Min r) <= Y p < Y (Max r).
Proof.
  unfold In. rewrite !andb_true_iff, !Z.leb_le, !Z.ltb_lt. lia.
Qed.

Lemma In_false_iff (p : Point) (r : Rectangle) :
  In p r = false <->
  ~ (X (Min r) <= X p < X (Max r) /\ Y (Min r) <= Y p < Y (Max r)).
Proof.
  rewrite <- In_true_iff. destruct (In p r); split; congruence.
Qed.

Lemma Add_Mul_succ (p d : Point) (k : nat) :
  Add p (Mul d (Z.of_nat (S k))) = Add (Add p d) (Mul d (Z.of_nat k)).
Proof.
  unfold Add, Mul; simpl X; simpl Y. f_equal; lia.
Qed.

Lemma Add_Mul_succ_r (p d : Point) (k : nat) :
  Add p (Mul d (Z.of_nat (S k))) = Add (Add p (Mul d (Z.of_nat k))) d.
Proof.
  unfold Add, Mul; simpl X; simpl Y. f_equal; lia.
Qed.

Lemma Add_Mul_0 (p d : Point) : Add p (Mul d (Z.of_nat 0)) = p.
Proof.
  destruct p; unfold Add, Mul; simpl. f_equal; lia.
Qed.

(** ** Luminance *)

Lemma GrayModel_range (c : color.Color) : 0 <= color.GrayModel c <= 255.
Proof.
  unfold color.GrayModel, uint32. rewrite Z.shiftr_div_pow2 by lia.
  set (v := 19595 * color.R c + 38470 * color.G c + 7471 * color.B c + Z.shiftl 1 15).
  pose proof (Z.mod_pos_bound v (2 ^ 32) ltac:(lia)) as Hv.
  split.
  - apply Z.div_pos; lia.
  - assert (v mod 2 ^ 32 / 2 ^ 24 < 256); [ | lia ].
    apply Z.div_lt_upper_bound; lia.
Qed.

Lemma GrayModel_Gray (y : Z) : 0 <= y <= 255 -> color.GrayModel (color.Gray y) = y.
Proof.
  intros Hy. unfold color.GrayModel, color.Gray, uint32.
  cbn [color.R color.G color.B].
  assert (Hland : Z.land y (Z.shiftl y 8) = 0).
  { apply Z.bits_inj'. intros n Hn. rewrite Z.land_spec, Z.bits_0.
    destruct (Z.ltb_spec n 8).
    - rewrite (Z.shiftl_spec_low y 8 n) by lia. apply andb_false_r.
    - rewrite (Z.bits_above_log2 y n); [ reflexivity | lia | ].
      destruct (Z.eq_dec y 0) as [-> | Hne]; [ simpl; lia | ].
      apply Z.log2_lt_pow2; [ lia | ].
      apply Z.lt_le_trans with (2 ^ 8); [ lia | ].
      apply Z.pow_le_mono_r; lia. }
  assert (Hor : Z.lor y (Z.shiftl y 8) = 257 * y).
  { pose proof (Z.add_lor_land y (Z.shiftl y 8)) as H.
    rewrite Hland in H. rewrite Z.shiftl_mul_pow2 in H by lia.
    rewrite Z.shiftl_mul_pow2 by lia. change (2 ^ 8) with 256 in *. lia. }
  rewrite Hor. rewrite Z.shiftr_div_pow2 by lia.
  change (Z.shiftl 1 15) with 32768. change (2 ^ 24) with 16777216.
  change (2 ^ 32) with 4294967296.
  rewrite Z.mod_small by lia.
  symmetry. apply Z.div_unique with (r := 65536 * y + 32768); lia.
Qed.

(** ** The hash comparator *)

Lemma OnesCount_lxor (width : nat) (a b : Z) :
  bits.OnesCount width (Z.lxor a b) = hammingDistance width a b.
Proof.
  induction width as [ | w IH ]; [ reflexivity | ].
  cbn [bits.OnesCount hammingDistance]. rewrite IH, Z.lxor_spec.
  destruct (Z.testbit a (Z.of_nat w)), (Z.testbit b (Z.of_nat w)); reflexivity.
Qed.

Lemma hammingDistance_nonneg (width : nat) (a b : Z) :
  0 <= hammingDistance width a b.
Proof.
  induction width as [ | w IH ]; cbn [hammingDistance]; [ lia | ].
  destruct (Bool.eqb _ _); lia.
Qed.

Lemma hammingDistance_refl (width : nat) (a : Z) : hammingDistance width a a = 0.
Proof.
  induction width as [ | w IH ]; cbn [hammingDistance]; [ reflexivity | ].
  rewrite Bool.eqb_reflx, IH. reflexivity.
Qed.

Lemma saturated32_iff (h : Z) :
  0 <= h < 2 ^ 32 -> (saturated 32 h <-> h = 0 \/ h = 4294967295).
Proof.
  intros Hh. unfold saturated. split.
  - intros [H0 | H1].
    + left. apply Z.bits_inj'. intros n Hn. rewrite Z.bits_0.
      destruct (Z.ltb_spec n 32); [ apply H0; lia | ].
      rewrite <- (Z.mod_small h (2 ^ 32)) by lia.
      apply Z.mod_pow2_bits_high. lia.
    + right. change 4294967295 with (Z.ones 32).
      apply Z.bits_inj'. intros n Hn.
      destruct (Z.ltb_spec n 32).
      * rewrite Z.ones_spec_low by lia. apply H1. lia.
      * rewrite Z.ones_spec_high by lia.
        rewrite <- (Z.mod_small h (2 ^ 32)) by lia.
        apply Z.mod_pow2_bits_high. lia.
  - intros [-> | ->].
    + left. intros k _. apply Z.bits_0.
    + right. intros k Hk. change 4294967295 with (Z.ones 32).
      apply Z.ones_spec_low. lia.
Qed.

(** C3.  In the extended profile [hashesMatch] declares two consecutive lines
    different (returns [false]) exactly when the previous base hash is
    saturated (its 32 bits all 0 or all 1) and the summed Hamming distance of
    the base hashes and of the contrast hashes is at least 1, or that summed
    distance is at least 3.  In the simplified profile the scan leaves its
    loop exactly when the Hamming distance of the two 64-bit hashes is at
    least 1. *)
Theorem hashesMatch_different_iff
    (prevAvg prevHighContrast avgHash highContrastHash : Z) :
  0 <= prevAvg < 2 ^ 32 ->
  (Extended.hashesMatch prevAvg prevHighContrast avgHash highContrastHash = false
   <->
   (saturated 32 prevAvg /\
    1 <= hammingDistance 32 avgHash prevAvg +
         hammingDistance 32 highContrastHash prevHighContrast) \/
   3 <= hammingDistance 32 avgHash prevAvg +
        hammingDistance 32 highContrastHash prevHighContrast) /\
  (forall prev hash : Z,
     Simplified.hashesDiffer prev hash = true <->
     1 <= hammingDistance 64 hash prev).
Proof.
  intros Hrange. split.
  - unfold Extended.hashesMatch, bits.OnesCount32.
    rewrite !OnesCount_lxor, (saturated32_iff _ Hrange).
    set (d := hammingDistance 32 avgHash prevAvg +
              hammingDistance 32 highContrastHash prevHighContrast).
    unfold minDistinctBitsBetweenLines, Extended.maxDistinctBitsBetweenLines.
    rewrite Z.lxor_0_r.
    pose proof (Z.lxor_eq_0_iff prevAvg 4294967295) as Hx.
    destruct (Z.eqb_spec (Z.lxor prevAvg 4294967295) 0) as [E1 | E1];
      destruct (Z.eqb_spec prevAvg 0) as [E0 | E0];
      destruct (Z.leb_spec 1 d); destruct (Z.leb_spec 3 d);
      cbn [orb andb]; split; intros Hd; try reflexivity; try discriminate;
      try lia; try tauto.
    all: destruct Hd as [ [ [ ? | ? ] ? ] | ? ]; try lia; tauto.
  - intros prev hash. unfold Simplified.hashesDiffer, bits.OnesCount64.
    rewrite OnesCount_lxor. unfold minDistinctBitsBetweenLines.
    apply Z.leb_le.
Qed.

(** Witness of C3: the saturated hash 0 against a hash one bit away. *)
Lemma hashesMatch_different_iff_witness :
  Extended.hashesMatch 0 0 1 0 = false /\
  Simplified.hashesDiffer 0 1 = true.
Proof.
  destruct (hashesMatch_different_iff 0 0 1 0 ltac:(lia)) as [He Hs].
  split.
  - apply He. left. split.
    + left. intros k _. apply Z.bits_0.
    + vm_compute. discriminate.
  - apply Hs. vm_compute. discriminate.
Defined.

(** ** The cropper and the orchestration *)

(** C5.  [Crop] returns an error exactly when the raster lacks the [SubImage]
    capability; with the error comes no image, and with the capability comes
    the requested sub-view and no error.  No other error value arises in the
    package: an error returned by [Auto] is the one [Crop] returned for the
    bounds of [BoundsHash]. *)
Theorem Crop_capability (img : Image) (r : Rectangle) :
  (snd (Crop img r) <> None <-> SubImage img = None) /\
  (snd (Crop img r) <> None -> fst (Crop img r) = None) /\
  (forall simg, SubImage img = Some simg -> Crop img r = (Some (simg r), None)) /\
  (forall fuel res e,
     Extended.Auto fuel img = Ret (res, Some e) ->
     res = None /\ SubImage img = None /\
     exists b, Extended.BoundsHash fuel img = Ret b /\ Crop img b = (None, Some e)) /\
  (forall fuel res e,
     Simplified.Auto fuel img = Ret (res, Some e) ->
     res = None /\ SubImage img = None /\
     exists b, Simplified.BoundsHash fuel img = Ret b /\ Crop img b = (None, Some e)).
Proof.
  split; [ | split; [ | split; [ | split ] ] ].
  - unfold Crop. destruct (SubImage img); simpl; split; congruence.
  - unfold Crop. destruct (SubImage img); simpl; congruence.
  - intros simg Hs. unfold Crop. rewrite Hs. reflexivity.
  - intros fuel res e H. unfold Extended.Auto in H. apply bind_Ret_inv in H.
    destruct H as (b & Hb & H). unfold Crop in *.
    destruct (SubImage img); simpl in H; [ discriminate | ].
    injection H as <- <-. repeat split; eauto.
  - intros fuel res e H. unfold Simplified.Auto in H. apply bind_Ret_inv in H.
    destruct H as (b & Hb & H). unfold Crop in *.
    destruct (SubImage img); simpl in H; [ discriminate | ].
    injection H as <- <-. repeat split; eauto.
Qed.

(** C6.  [Auto] is [Crop] applied to the raster and the rectangle of
    [BoundsHash]: whatever [Crop] returns, image or error, is returned
    unchanged. *)
Theorem Auto_is_Crop_of_BoundsHash (fuel : nat) (img : Image) :
  Extended.Auto fuel img =
    (bounds <- Extended.BoundsHash fuel img ;; Ret (Crop img bounds)) /\
  Simplified.Auto fuel img =
    (bounds <- Simplified.BoundsHash fuel img ;; Ret (Crop img bounds)).
Proof.
  unfold Extended.Auto, Simplified.Auto. split.
  - destruct (Extended.BoundsHash fuel img) as [ b | | ]; try reflexivity.
    cbn [bind]. unfold Crop. destruct (SubImage img); reflexivity.
  - destruct (Simplified.BoundsHash fuel img) as [ b | | ]; try reflexivity.
    cbn [bind]. unfold Crop. destruct (SubImage img); reflexivity.
Qed.

(** ** Geometry of the scans *)

Ltac four_dirs H := destruct H as [ -> | [ -> | [ -> | -> ] ] ].

Ltac unfold_points :=
  unfold line, pointInScanCorner, stepsToLeave, dirExtent, sameLine, negative,
    Add, Sub, Mul in *;
  cbn [X Y Z.ltb Z.eqb Z.compare orb negb] in *.

Lemma isDirection_swap (dir : Point) :
  isDirection dir -> isDirection (Pt (Y dir) (X dir)).
Proof.
  intros H. four_dirs H; cbn [X Y]; unfold isDirection; tauto.
Qed.

Lemma stepsToLeave_In (r : Rectangle) (v p : Point) :
  isDirection v -> In p r = true ->
  1 <= stepsToLeave r v p <=
    Z.max (X (Max r) - X (Min r)) (Y (Max r) - Y (Min r)).
Proof.
  intros Hv Hp. apply In_true_iff in Hp.
  four_dirs Hv; unfold_points; lia.
Qed.

Lemma stepsToLeave_Add (r : Rectangle) (v p : Point) :
  isDirection v -> stepsToLeave r v (Add p v) = stepsToLeave r v p - 1.
Proof.
  intros Hv. four_dirs Hv; unfold_points; lia.
Qed.

Lemma line_0 (img : Image) (dir : Point) :
  line img dir 0 = pointInScanCorner (image.Bounds img) dir.
Proof. unfold line. apply Add_Mul_0. Qed.

Lemma line_S (img : Image) (dir : Point) (k : nat) :
  line img dir (S k) = Add (line img dir k) dir.
Proof. unfold line. apply Add_Mul_succ_r. Qed.

Lemma line_S_Sub (img : Image) (dir : Point) (k : nat) :
  Sub (line img dir (S k)) dir = line img dir k.
Proof.
  rewrite line_S. destruct (line img dir k) as [x y].
  unfold Sub, Add; cbn [X Y]. f_equal; lia.
Qed.

Lemma line_In_iff (img : Image) (dir : Point) (k : nat) :
  isDirection dir ->
  (In (line img dir k) (image.Bounds img) = true <->
   nonEmpty (image.Bounds img) /\ Z.of_nat k < dirExtent (image.Bounds img) dir).
Proof.
  intros Hd. rewrite In_true_iff. unfold nonEmpty.
  four_dirs Hd; unfold_points; lia.
Qed.

(** The points a line scan visits lie on the line it started on. *)
Lemma ray_sameLine (dir p : Point) (j : nat) :
  isDirection dir ->
  sameLine dir p (Add p (Mul (Pt (Y dir) (X dir)) (Z.of_nat j))).
Proof.
  intros Hd. four_dirs Hd; unfold_points; lia.
Qed.

(** A line scan that starts at a line position of the directional scan
    reaches every pixel of that line. *)
Lemma line_covers (img : Image) (dir q : Point) (k : nat) :
  isDirection dir ->
  In q (image.Bounds img) = true ->
  sameLine dir (line img dir k) q ->
  exists j : nat,
    q = Add (line img dir k) (Mul (Pt (Y dir) (X dir)) (Z.of_nat j)) /\
    forall i : nat, (i <= j)%nat ->
      In (Add (line img dir k) (Mul (Pt (Y dir) (X dir)) (Z.of_nat i)))
         (image.Bounds img) = true.
Proof.
  intros Hd Hq Hs. apply In_true_iff in Hq. destruct q as [qx qy].
  four_dirs Hd; unfold_points; cbn [X Y] in *.
  - exists (Z.to_nat (qy - Y (Min (image.Bounds img)))). split.
    + f_equal; lia.
    + intros i Hi. apply In_true_iff; cbn [X Y]. lia.
  - exists (Z.to_nat (Y (Max (image.Bounds img)) - 1 - qy)). split.
    + f_equal; lia.
    + intros i Hi. apply In_true_iff; cbn [X Y]. lia.
  - exists (Z.to_nat (qx - X (Min (image.Bounds img)))). split.
    + f_equal; lia.
    + intros i Hi. apply In_true_iff; cbn [X Y]. lia.
  - exists (Z.to_nat (X (Max (image.Bounds img)) - 1 - qx)). split.
    + f_equal; lia.
    + intros i Hi. apply In_true_iff; cbn [X Y]. lia.
Qed.

(** ** The naive edge scanner *)

(** A line scan along a unit vector returns within the pixels left on its
    way out of the raster. *)
Lemma scanLine_returns (fuel : nat) (img : Image) (pt scan : Point) :
  isDirection scan ->
  (1 <= fuel)%nat ->
  (In pt (image.Bounds img) = true ->
   stepsToLeave (image.Bounds img) scan pt < Z.of_nat fuel) ->
  exists b, scanLineForNonWhitespace fuel img pt scan = Ret b.
Proof.
  intros Hs. revert pt. induction fuel as [ | fuel IH ]; intros pt Hf Hsteps.
  - lia.
  - cbn [scanLineForNonWhitespace].
    destruct (In pt (image.Bounds img)) eqn:Hin; [ | eauto ].
    destruct (grayAt img pt <=? grayDarknessLimit); [ eauto | ].
    specialize (Hsteps eq_refl).
    pose proof (stepsToLeave_In _ _ _ Hs Hin) as Hge.
    apply IH; [ lia | ]. intros _.
    rewrite stepsToLeave_Add by assumption. lia.
Qed.

Lemma scanLine_true (fuel : nat) (img : Image) (pt scan : Point) :
  scanLineForNonWhitespace fuel img pt scan = Ret true ->
  exists j : nat,
    In (Add pt (Mul scan (Z.of_nat j))) (image.Bounds img) = true /\
    grayAt img (Add pt (Mul scan (Z.of_nat j))) <= grayDarknessLimit.
Proof.
  revert pt. induction fuel as [ | fuel IH ]; intros pt H.
  - discriminate.
  - cbn [scanLineForNonWhitespace] in H.
    destruct (In pt (image.Bounds img)) eqn:Hin; [ | discriminate ].
    destruct (Z.leb_spec (grayAt img pt) grayDarknessLimit) as [Hg | Hg].
    + exists 0%nat. rewrite Add_Mul_0. auto.
    + destruct (IH _ H) as (j & Hj). exists (S j).
      rewrite Add_Mul_succ. exact Hj.
Qed.

Lemma scanLine_false (fuel : nat) (img : Image) (pt scan : Point) :
  scanLineForNonWhitespace fuel img pt scan = Ret false ->
  forall j : nat,
    (forall i : nat, (i <= j)%nat ->
       In (Add pt (Mul scan (Z.of_nat i))) (image.Bounds img) = true) ->
    grayDarknessLimit < grayAt img (Add pt (Mul scan (Z.of_nat j))).
Proof.
  revert pt. induction fuel as [ | fuel IH ]; intros pt H j Hj.
  - discriminate.
  - cbn [scanLineForNonWhitespace] in H.
    pose proof (Hj 0%nat ltac:(lia)) as H0. rewrite Add_Mul_0 in H0.
    rewrite H0 in H.
    destruct (Z.leb_spec (grayAt img pt) grayDarknessLimit) as [Hg | Hg];
      [ discriminate | ].
    destruct j as [ | j ]; [ rewrite Add_Mul_0; exact Hg | ].
    rewrite Add_Mul_succ. apply (IH _ H).
    intros i Hi. rewrite <- Add_Mul_succ. apply Hj. lia.
Qed.

(** On a line of the directional scan, the line scan returns whether the
    line holds a dark pixel. *)
Lemma scanLine_line (fuel : nat) (img : Image) (dir : Point) (k : nat) :
  isDirection dir ->
  (passFuel (image.Bounds img) <= fuel)%nat ->
  (darkOnLine img dir (line img dir k) ->
   scanLineForNonWhitespace fuel img (line img dir k) (Pt (Y dir) (X dir)) = Ret true) /\
  (~ darkOnLine img dir (line img dir k) ->
   scanLineForNonWhitespace fuel img (line img dir k) (Pt (Y dir) (X dir)) = Ret false).
Proof.
  intros Hd Hf.
  destruct (scanLine_returns fuel img (line img dir k) (Pt (Y dir) (X dir)))
    as (b & Hb).
  - now apply isDirection_swap.
  - unfold passFuel in Hf. lia.
  - intros Hin.
    pose proof (stepsToLeave_In _ _ _ (isDirection_swap _ Hd) Hin).
    unfold passFuel in Hf. lia.
  - split.
    + intros (q & Hq & Hs & Hg). destruct b; [ exact Hb | exfalso ].
      destruct (line_covers img dir q k Hd Hq Hs) as (j & -> & Hj).
      pose proof (scanLine_false _ _ _ _ Hb j Hj). lia.
    + intros Hn. destruct b; [ exfalso | exact Hb ].
      destruct (scanLine_true _ _ _ _ Hb) as (j & Hj & Hg).
      apply Hn. eexists. split; [ exact Hj | ]. split; [ | exact Hg ].
      now apply ray_sameLine.
Qed.

(** The loop of [findBorder] over [n] blank lines followed by a non-blank
    one. *)
Lemma findBorder_loop_found (lineFuel : nat) (img : Image) (bounds : Rectangle)
    (dir scan : Point) (n : nat) :
  forall (fuel : nat) (dpt : Point),
    (n < fuel)%nat ->
    (forall j : nat, (j < n)%nat ->
       scanLineForNonWhitespace lineFuel img (Add dpt (Mul dir (Z.of_nat j))) scan
         = Ret false /\
       In (Add dpt (Mul dir (Z.of_nat (S j)))) bounds = true) ->
    scanLineForNonWhitespace lineFuel img (Add dpt (Mul dir (Z.of_nat n))) scan
      = Ret true ->
    findBorder_loop fuel lineFuel img bounds dir scan dpt
      = Ret (Add dpt (Mul dir (Z.of_nat n))).
Proof.
  induction n as [ | n IH ]; intros fuel dpt Hf Hblank Hdark;
    (destruct fuel as [ | fuel ]; [ lia | ]); cbn [findBorder_loop].
  - rewrite Add_Mul_0 in *. rewrite Hdark. reflexivity.
  - destruct (Hblank 0%nat ltac:(lia)) as [H0 H1].
    rewrite Add_Mul_0 in H0. rewrite H0. cbn [bind negb].
    change (Z.of_nat 1) with 1 in H1.
    assert (E1 : Add dpt (Mul dir 1) = Add dpt dir).
    { unfold Add, Mul; cbn [X Y]. f_equal; lia. }
    rewrite E1 in H1. rewrite H1. cbn [negb].
    rewrite Add_Mul_succ. apply IH; [ lia | | ].
    + intros j Hj. rewrite <- !Add_Mul_succ. apply Hblank. lia.
    + rewrite <- Add_Mul_succ. exact Hdark.
Qed.

(** The loop of [findBorder] over [n + 1] blank lines, the last of them on
    the far edge. *)
Lemma findBorder_loop_exhausted (lineFuel : nat) (img : Image)
    (bounds : Rectangle) (dir scan : Point) (n : nat) :
  forall (fuel : nat) (dpt : Point),
    (n < fuel)%nat ->
    (forall j : nat, (j <= n)%nat ->
       scanLineForNonWhitespace lineFuel img (Add dpt (Mul dir (Z.of_nat j))) scan
         = Ret false) ->
    (forall j : nat, (j < n)%nat ->
       In (Add dpt (Mul dir (Z.of_nat (S j)))) bounds = true) ->
    In (Add dpt (Mul dir (Z.of_nat (S n)))) bounds = false ->
    findBorder_loop fuel lineFuel img bounds dir scan dpt
      = Ret (pointInScanCorner bounds dir).
Proof.
  assert (E1 : forall dpt, Add dpt (Mul dir (Z.of_nat 1)) = Add dpt dir).
  { intros dpt. unfold Add, Mul; cbn [X Y]. f_equal; lia. }
  induction n as [ | n IH ]; intros fuel dpt Hf Hblank Hin Hout;
    (destruct fuel as [ | fuel ]; [ lia | ]); cbn [findBorder_loop];
    pose proof (Hblank 0%nat ltac:(lia)) as H0;
    rewrite Add_Mul_0 in H0; rewrite H0; cbn [bind negb].
  - rewrite E1 in Hout. rewrite Hout. reflexivity.
  - pose proof (Hin 0%nat ltac:(lia)) as H1. rewrite E1 in H1.
    rewrite H1. cbn [negb]. apply IH; [ lia | | | ].
    + intros j Hj. rewrite <- Add_Mul_succ. apply Hblank. lia.
    + intros j Hj. rewrite <- Add_Mul_succ. apply Hin. lia.
    + rewrite <- Add_Mul_succ. exact Hout.
Qed.

Lemma line_sameLine_In (img : Image) (dir q : Point) (k : nat) :
  isDirection dir ->
  In q (image.Bounds img) = true ->
  sameLine dir (line img dir k) q ->
  In (line img dir k) (image.Bounds img) = true.
Proof.
  intros Hd Hq Hs. apply In_true_iff in Hq. apply In_true_iff.
  four_dirs Hd; unfold_points; lia.
Qed.

Lemma dirExtent_le_max (r : Rectangle) (dir : Point) :
  dirExtent r dir <= Z.max (X (Max r) - X (Min r)) (Y (Max r) - Y (Min r)).
Proof. unfold dirExtent. destruct (X dir =? 0); lia. Qed.

Lemma nonEmpty_dirExtent (r : Rectangle) (dir : Point) :
  nonEmpty r -> 0 < dirExtent r dir.
Proof. unfold nonEmpty, dirExtent. destruct (X dir =? 0); lia. Qed.

(** What [findBorder] returns, by the first line that holds a dark pixel. *)
Lemma findBorder_spec (fuel : nat) (img : Image) (dir : Point) :
  isDirection dir ->
  (passFuel (image.Bounds img) <= fuel)%nat ->
  (forall k : nat,
     In (line img dir k) (image.Bounds img) = true ->
     darkOnLine img dir (line img dir k) ->
     (forall j : nat, (j < k)%nat -> ~ darkOnLine img dir (line img dir j)) ->
     findBorder fuel img dir =
       Ret (if negative dir then Sub (line img dir k) dir else line img dir k)) /\
  ((forall k : nat,
      In (line img dir k) (image.Bounds img) = true ->
      ~ darkOnLine img dir (line img dir k)) ->
   findBorder fuel img dir =
     Ret (if negative dir
          then Sub (pointInScanCorner (image.Bounds img) dir) dir
          else pointInScanCorner (image.Bounds img) dir)).
Proof.
  intros Hd Hf.
  pose proof (dirExtent_le_max (image.Bounds img) dir) as Hext.
  assert (Hfz : Z.max (X (Max (image.Bounds img)) - X (Min (image.Bounds img)))
                  (Y (Max (image.Bounds img)) - Y (Min (image.Bounds img)))
                < Z.of_nat fuel) by (unfold passFuel in Hf; lia).
  assert (Hf1 : (1 <= fuel)%nat) by (unfold passFuel in Hf; lia).
  split.
  - intros k Hin Hdark Hblank. unfold findBorder. cbv zeta.
    apply (line_In_iff img dir k Hd) in Hin. destruct Hin as [Hne Hk].
    rewrite (findBorder_loop_found fuel img (image.Bounds img) dir
               (Pt (Y dir) (X dir)) k).
    + cbn [bind]. fold (line img dir k). fold (negative dir).
      destruct (negative dir); reflexivity.
    + lia.
    + intros j Hj. split.
      * apply (scanLine_line fuel img dir j Hd Hf). apply Hblank. exact Hj.
      * apply (line_In_iff img dir (S j) Hd). split; [ exact Hne | lia ].
    + apply (scanLine_line fuel img dir k Hd Hf). exact Hdark.
  - intros Hblank. unfold findBorder. cbv zeta.
    assert (Hall : forall j : nat,
              scanLineForNonWhitespace fuel img (line img dir j) (Pt (Y dir) (X dir))
                = Ret false).
    { intros j. apply (scanLine_line fuel img dir j Hd Hf).
      intros (q & Hq & Hs & Hg). apply (Hblank j).
      - exact (line_sameLine_In img dir q j Hd Hq Hs).
      - exists q. auto. }
    set (n := if In (line img dir 0) (image.Bounds img)
              then Z.to_nat (dirExtent (image.Bounds img) dir - 1) else 0%nat).
    rewrite (findBorder_loop_exhausted fuel img (image.Bounds img) dir
               (Pt (Y dir) (X dir)) n).
    + cbn [bind]. fold (negative dir). destruct (negative dir); reflexivity.
    + subst n. destruct (In (line img dir 0) (image.Bounds img)); lia.
    + intros j _. apply Hall.
    + intros j Hj. subst n.
      destruct (In (line img dir 0) (image.Bounds img)) eqn:H0; [ | lia ].
      apply (line_In_iff img dir 0 Hd) in H0. destruct H0 as [Hne _].
      apply (line_In_iff img dir (S j) Hd). split; [ exact Hne | lia ].
    + apply In_false_iff. rewrite <- In_true_iff. fold (line img dir (S n)).
      rewrite (line_In_iff img dir (S n) Hd). subst n.
      destruct (In (line img dir 0) (image.Bounds img)) eqn:H0.
      * intros [_ Hlt]. lia.
      * intros [Hne Hlt].
        assert (In (line img dir 0) (image.Bounds img) = true); [ | congruence ].
        apply (line_In_iff img dir 0 Hd). split; [ exact Hne | lia ].
Qed.

(** C7, as the code has it.  Scanning inward from the corner of its
    direction, [findBorder] stops at the first line that holds a pixel of
    luminance at most 128.  For the directions (1,0) and (0,1) it returns the
    position of that line; for (-1,0) and (0,-1) it returns that position
    moved one step back against the direction, the exclusive bound.  When no
    line of the raster holds such a pixel it returns the same for the corner
    it started from: that side is not cropped. *)
Theorem findBorder_edge (fuel : nat) (img : Image) (dir : Point) :
  isDirection dir ->
  (passFuel (image.Bounds img) <= fuel)%nat ->
  (forall k : nat,
     In (line img dir k) (image.Bounds img) = true ->
     darkOnLine img dir (line img dir k) ->
     (forall j : nat, (j < k)%nat -> ~ darkOnLine img dir (line img dir j)) ->
     findBorder fuel img dir =
       Ret (if negative dir then Sub (line img dir k) dir else line img dir k)) /\
  ((forall k : nat,
      In (line img dir k) (image.Bounds img) = true ->
      ~ darkOnLine img dir (line img dir k)) ->
   findBorder fuel img dir =
     Ret (if negative dir
          then Sub (pointInScanCorner (image.Bounds img) dir) dir
          else pointInScanCorner (image.Bounds img) dir)).
Proof. exact (findBorder_spec fuel img dir). Qed.

Lemma isDirection_left : isDirection (Pt 1 0).
Proof. unfold isDirection; tauto. Qed.

Lemma isDirection_right : isDirection (Pt (-1) 0).
Proof. unfold isDirection; tauto. Qed.

Lemma isDirection_top : isDirection (Pt 0 1).
Proof. unfold isDirection; tauto. Qed.

Lemma isDirection_bottom : isDirection (Pt 0 (-1)).
Proof. unfold isDirection; tauto. Qed.

Lemma dot3_column2_blank : ~ darkOnLine dot3 (Pt (-1) 0) (line dot3 (Pt (-1) 0) 0).
Proof.
  intros (q & Hq & Hs & Hg). destruct q as [qx qy].
  unfold sameLine in Hs. cbn in Hs. subst qx.
  unfold grayAt, dot3, raster in Hg. cbn [At X Y] in Hg.
  change (2 =? 1) with false in Hg. cbn [andb] in Hg.
  vm_compute in Hg. apply Hg. reflexivity.
Qed.

Lemma dot3_column1_dark : darkOnLine dot3 (Pt (-1) 0) (line dot3 (Pt (-1) 0) 1).
Proof.
  exists (Pt 1 1). repeat split; vm_compute; congruence.
Qed.

Lemma white3_blank (dir p : Point) : ~ darkOnLine white3 dir p.
Proof.
  intros (q & Hq & Hs & Hg). vm_compute in Hg. apply Hg. reflexivity.
Qed.

(** Witness of C7: the right edge of [dot3] is 2, one past the column of the
    black pixel, and the left edge of the blank [white3] is 0. *)
Lemma findBorder_edge_witness :
  findBorder 4 dot3 (Pt (-1) 0) = Ret (Pt 2 2) /\
  findBorder 4 white3 (Pt 1 0) = Ret (Pt 0 0).
Proof.
  split.
  - destruct (findBorder_edge 4 dot3 (Pt (-1) 0) isDirection_right) as [H _].
    + vm_compute. lia.
    + apply (H 1%nat).
      * reflexivity.
      * exact dot3_column1_dark.
      * intros j Hj. assert (j = 0%nat) as -> by lia. exact dot3_column2_blank.
  - destruct (findBorder_edge 4 white3 (Pt 1 0) isDirection_left) as [_ H].
    + vm_compute. lia.
    + apply H. intros k _. apply white3_blank.
Defined.

(** C7 as the specification words it fails on the code: scanning [dot3]
    leftward, the first column holding a dark pixel is column 1, and the edge
    returned is 2; and on the blank [white3] the rightward scan returns the
    corner it started from, (0,0), not the far one, (2,2). *)
Lemma findBorder_first_line_counterexample :
  ~ (forall (fuel : nat) (img : Image) (dir : Point),
       isDirection dir ->
       (passFuel (image.Bounds img) <= fuel)%nat ->
       (forall k : nat,
          In (line img dir k) (image.Bounds img) = true ->
          darkOnLine img dir (line img dir k) ->
          (forall j : nat, (j < k)%nat -> ~ darkOnLine img dir (line img dir j)) ->
          findBorder fuel img dir = Ret (line img dir k))) /\
  ~ (forall (fuel : nat) (img : Image) (dir : Point),
       isDirection dir ->
       (passFuel (image.Bounds img) <= fuel)%nat ->
       (forall k : nat,
          In (line img dir k) (image.Bounds img) = true ->
          ~ darkOnLine img dir (line img dir k)) ->
       findBorder fuel img dir =
         Ret (pointInScanCorner (image.Bounds img) (Pt (- X dir) (- Y dir)))).
Proof.
  split.
  - intros H.
    specialize (H 4%nat dot3 (Pt (-1) 0) isDirection_right ltac:(vm_compute; lia)
                  1%nat eq_refl dot3_column1_dark).
    assert (Hb : forall j : nat, (j < 1)%nat ->
                   ~ darkOnLine dot3 (Pt (-1) 0) (line dot3 (Pt (-1) 0) j)).
    { intros j Hj. assert (j = 0%nat) as -> by lia. exact dot3_column2_blank. }
    specialize (H Hb). vm_compute in H. discriminate H.
  - intros H.
    specialize (H 4%nat white3 (Pt 1 0) isDirection_left ltac:(vm_compute; lia)
                  (fun k _ => white3_blank _ _)).
    vm_compute in H. discriminate H.
Qed.

(** ** The hash-based scan: what both profiles share *)

Lemma Extended_findBorderUsingAvgHash_loop_hashScan (lineFuel : nat) (img : Image)
    (bounds : Rectangle) (dir : Point) (fuel : nat) :
  forall (dpt : Point) (prevAvg prevHighContrast : Z),
    Extended.findBorderUsingAvgHash_loop fuel lineFuel img bounds dir
      (Pt (Y dir) (X dir)) dpt prevAvg prevHighContrast =
    hashScan_loop (hashLineExtended lineFuel img dir) differExtended fuel bounds
      dir dpt (prevAvg, prevHighContrast).
Proof.
  induction fuel as [ | fuel IH ]; intros dpt pa ph; [ reflexivity | ].
  cbn [Extended.findBorderUsingAvgHash_loop hashScan_loop].
  unfold hashLineExtended at 1.
  destruct (Extended.lineAverageHash lineFuel img dpt (Pt (Y dir) (X dir)))
    as [ [a h] | | ]; try reflexivity.
  cbn [bind]. unfold differExtended at 1. cbn [fst snd].
  destruct (Extended.hashesMatch pa ph a h); cbn [negb]; [ | reflexivity ].
  destruct (In (Add dpt dir) bounds); cbn [negb]; [ apply IH | reflexivity ].
Qed.

Lemma Extended_findBorderUsingAvgHash_hashScan (fuel : nat) (img : Image)
    (dir : Point) :
  Extended.findBorderUsingAvgHash fuel img dir =
  hashScan (hashLineExtended fuel img dir) differExtended fuel
    (image.Bounds img) dir.
Proof.
  unfold Extended.findBorderUsingAvgHash, hashScan. cbv zeta.
  unfold hashLineExtended at 1.
  destruct (Extended.lineAverageHash fuel img
              (pointInScanCorner (image.Bounds img) dir) (Pt (Y dir) (X dir)))
    as [ [a h] | | ]; try reflexivity.
  cbn [bind]. rewrite Extended_findBorderUsingAvgHash_loop_hashScan.
  reflexivity.
Qed.

Lemma Simplified_findBorderUsingAvgHash_loop_hashScan (lineFuel : nat) (img : Image)
    (bounds : Rectangle) (dir : Point) (fuel : nat) :
  forall (dpt : Point) (prev : Z),
    Simplified.findBorderUsingAvgHash_loop fuel lineFuel
      (if RGBA64Image img then Some img else None) bounds dir
      (Pt (Y dir) (X dir)) dpt prev =
    hashScan_loop (hashLineSimplified lineFuel img dir) Simplified.hashesDiffer
      fuel bounds dir dpt prev.
Proof.
  induction fuel as [ | fuel IH ]; intros dpt prev; [ reflexivity | ].
  cbn [Simplified.findBorderUsingAvgHash_loop hashScan_loop].
  unfold hashLineSimplified at 1.
  destruct (Simplified.lineAverageHash lineFuel
              (if RGBA64Image img then Some img else None) dpt
              (Pt (Y dir) (X dir))) as [ h | | ]; try reflexivity.
  cbn [bind]. destruct (Simplified.hashesDiffer prev h); [ reflexivity | ].
  destruct (In (Add dpt dir) bounds); cbn [negb]; [ apply IH | reflexivity ].
Qed.

Lemma Simplified_findBorderUsingAvgHash_hashScan (fuel : nat) (img : Image)
    (dir : Point) :
  Simplified.findBorderUsingAvgHash fuel img dir =
  hashScan (hashLineSimplified fuel img dir) Simplified.hashesDiffer fuel
    (image.Bounds img) dir.
Proof.
  unfold Simplified.findBorderUsingAvgHash, hashScan. cbv zeta.
  unfold hashLineSimplified at 1.
  destruct (Simplified.lineAverageHash fuel
              (if RGBA64Image img then Some img else None)
              (pointInScanCorner (image.Bounds img) dir) (Pt (Y dir) (X dir)))
    as [ h | | ]; try reflexivity.
  cbn [bind]. rewrite Simplified_findBorderUsingAvgHash_loop_hashScan.
  reflexivity.
Qed.

Section HashScan.

Variable H : Type.
Variable hashLine : Point -> outcome H.
Variable differ : H -> H -> bool.
Variable bounds : Rectangle.
Variable dir : Point.

Let step1 (dpt : Point) : Add dpt (Mul dir (Z.of_nat 1)) = Add dpt dir.
Proof. unfold Add, Mul; cbn [X Y]. f_equal; lia. Qed.

(** The loop over [n] lines that match their predecessors, followed by one
    that differs: [hs 0] is the hash the loop starts with and [hs (S j)] the
    hash of the line [j] steps from [dpt]. *)
Lemma hashScan_loop_found (n : nat) :
  forall (fuel : nat) (dpt : Point) (hs : nat -> H),
    (n < fuel)%nat ->
    (forall j : nat, (j <= n)%nat ->
       hashLine (Add dpt (Mul dir (Z.of_nat j))) = Ret (hs (S j))) ->
    (forall j : nat, (j < n)%nat ->
       differ (hs j) (hs (S j)) = false /\
       In (Add dpt (Mul dir (Z.of_nat (S j)))) bounds = true) ->
    differ (hs n) (hs (S n)) = true ->
    hashScan_loop hashLine differ fuel bounds dir dpt (hs 0%nat)
      = Ret (Add dpt (Mul dir (Z.of_nat n))).
Proof.
  induction n as [ | n IH ]; intros fuel dpt hs Hf Hhash Hsame Hdiff;
    (destruct fuel as [ | fuel ]; [ lia | ]); cbn [hashScan_loop];
    pose proof (Hhash 0%nat ltac:(lia)) as H0;
    rewrite Add_Mul_0 in H0; rewrite H0; cbn [bind].
  - rewrite Hdiff, Add_Mul_0. reflexivity.
  - destruct (Hsame 0%nat ltac:(lia)) as [Hd0 Hin0].
    rewrite step1 in Hin0. rewrite Hd0, Hin0. cbn [negb].
    rewrite Add_Mul_succ.
    apply (IH fuel (Add dpt dir) (fun j => hs (S j))); [ lia | | | exact Hdiff ].
    + intros j Hj. rewrite <- Add_Mul_succ. apply Hhash. lia.
    + intros j Hj. rewrite <- Add_Mul_succ. apply Hsame. lia.
Qed.

(** The loop over [n + 1] lines that all match their predecessors, the last
    of them on the far edge. *)
Lemma hashScan_loop_exhausted (n : nat) :
  forall (fuel : nat) (dpt : Point) (hs : nat -> H),
    (n < fuel)%nat ->
    (forall j : nat, (j <= n)%nat ->
       hashLine (Add dpt (Mul dir (Z.of_nat j))) = Ret (hs (S j)) /\
       differ (hs j) (hs (S j)) = false) ->
    (forall j : nat, (j < n)%nat ->
       In (Add dpt (Mul dir (Z.of_nat (S j)))) bounds = true) ->
    In (Add dpt (Mul dir (Z.of_nat (S n)))) bounds = false ->
    hashScan_loop hashLine differ fuel bounds dir dpt (hs 0%nat)
      = Ret (pointInScanCorner bounds dir).
Proof.
  induction n as [ | n IH ]; intros fuel dpt hs Hf Hhash Hin Hout;
    (destruct fuel as [ | fuel ]; [ lia | ]); cbn [hashScan_loop];
    destruct (Hhash 0%nat ltac:(lia)) as [H0 Hd0];
    rewrite Add_Mul_0 in H0; rewrite H0; cbn [bind]; rewrite Hd0.
  - rewrite step1 in Hout. rewrite Hout. reflexivity.
  - pose proof (Hin 0%nat ltac:(lia)) as Hin0. rewrite step1 in Hin0.
    rewrite Hin0. cbn [negb].
    apply (IH fuel (Add dpt dir) (fun j => hs (S j))); [ lia | | | ].
    + intros j Hj. rewrite <- Add_Mul_succ. apply Hhash. lia.
    + intros j Hj. rewrite <- Add_Mul_succ. apply Hin. lia.
    + rewrite <- Add_Mul_succ. exact Hout.
Qed.

(** The loop ends within the lines left on the way out of the raster,
    provided the line hasher itself ends. *)
Lemma hashScan_loop_ends (fuel : nat) :
  isDirection dir ->
  (forall p, hashLine p <> OutOfFuel) ->
  forall (dpt : Point) (prev : H),
    (1 <= fuel)%nat ->
    (In (Add dpt dir) bounds = true ->
     stepsToLeave bounds dir (Add dpt dir) < Z.of_nat fuel) ->
    hashScan_loop hashLine differ fuel bounds dir dpt prev <> OutOfFuel.
Proof.
  intros Hd Hline. induction fuel as [ | fuel IH ]; intros dpt prev Hf Hsteps.
  - lia.
  - cbn [hashScan_loop]. apply bind_not_OutOfFuel; [ apply Hline | ].
    intros h _. destruct (differ prev h); [ discriminate | ].
    destruct (In (Add dpt dir) bounds) eqn:Hin; cbn [negb]; [ | discriminate ].
    specialize (Hsteps eq_refl).
    pose proof (stepsToLeave_In _ _ _ Hd Hin) as Hge.
    apply IH; [ lia | ]. intros _.
    rewrite stepsToLeave_Add by assumption. lia.
Qed.

End HashScan.

(** ** The line hasher *)

Lemma testbit_setBit (width n pos j : Z) :
  0 <= width -> 0 <= pos ->
  Z.testbit (Z.lor n (Z.shiftl 1 pos mod 2 ^ width)) j = true ->
  Z.testbit n j = true \/ j = pos.
Proof.
  intros Hw Hpos. rewrite Z.lor_spec, orb_true_iff.
  intros [ Hn | Hb ]; [ now left | right ].
  rewrite Z.testbit_mod_pow2, Z.shiftl_1_l, Z.pow2_bits_eqb in Hb by lia.
  apply andb_true_iff in Hb. destruct Hb as [_ Hb].
  apply Z.eqb_eq in Hb. lia.
Qed.

Lemma setBit_range (width n x : Z) :
  0 <= width -> 0 <= n < 2 ^ width -> 0 <= Z.lor n (x mod 2 ^ width) < 2 ^ width.
Proof.
  intros Hw Hn.
  assert (E : Z.lor n (x mod 2 ^ width) = Z.lor n (x mod 2 ^ width) mod 2 ^ width).
  { apply Z.bits_inj'. intros k Hk. rewrite Z.testbit_mod_pow2 by lia.
    destruct (Z.ltb_spec k width); cbn [andb]; [ reflexivity | ].
    rewrite Z.lor_spec.
    rewrite <- (Z.mod_small n (2 ^ width)) by lia.
    rewrite !Z.mod_pow2_bits_high by lia. reflexivity. }
  rewrite E. apply Z.mod_pos_bound. apply Z.pow_pos_nonneg; lia.
Qed.

Lemma windowsClosed_mono (w h n m : Z) :
  windowsClosed w h n -> n <= m -> windowsClosed w h m.
Proof.
  intros Hc Hnm j Hj Hb. specialize (Hc j Hj Hb). lia.
Qed.

Lemma windowsClosed_setBit (width w h n pos : Z) :
  0 <= width -> 0 <= pos -> (pos + 1) * w <= n ->
  windowsClosed w h n ->
  windowsClosed w (Z.lor h (Z.shiftl 1 pos mod 2 ^ width)) n.
Proof.
  intros Hw Hpos Hle Hc j Hj Hb.
  destruct (testbit_setBit width h pos j Hw Hpos Hb) as [ Hh | -> ];
    [ now apply Hc | exact Hle ].
Qed.

Lemma windowsClosed_0 (w n : Z) : windowsClosed w 0 n.
Proof. intros j _ Hb. rewrite Z.bits_0 in Hb. discriminate. Qed.

(** At the pixel that ends a window, the window size is positive and the
    window index is the number of windows ended before. *)
Lemma window_end (i w : Z) :
  0 <= i -> w <> 0 -> Z.rem i w = w - 1 ->
  0 < w /\ 0 <= Z.quot i w /\ (Z.quot i w + 1) * w = i + 1.
Proof.
  intros Hi Hw Hr.
  pose proof (Z.rem_nonneg i w Hw Hi) as Hnn.
  assert (Hpos : 0 < w) by lia.
  pose proof (Z.quot_pos i w Hi Hpos). pose proof (Z.quot_rem' i w). nia.
Qed.

Lemma remaining_step (r : Rectangle) (scan spt : Point) :
  isDirection scan -> In spt r = true ->
  remaining r scan (Add spt scan) <= remaining r scan spt - 1.
Proof.
  intros Hs Hin. unfold remaining. rewrite Hin.
  pose proof (stepsToLeave_In _ _ _ Hs Hin).
  destruct (In (Add spt scan) r); [ | lia ].
  rewrite stepsToLeave_Add by assumption. lia.
Qed.

Lemma Extended_closeWindow_Ret (w : Z) (st : Extended.locals) :
  w <> 0 -> Z.rem (Extended.i st) w = w - 1 ->
  invExtended w (Extended.i st) st ->
  exists st', Extended.closeWindow w st = Ret st' /\
              Extended.i st' = Extended.i st /\
              invExtended w (Extended.i st + 1) st'.
Proof.
  intros Hw Hr (Hi & Ha & Hh & Ra & Rh).
  destruct (window_end _ _ Hi Hw Hr) as (Hpos & Hq & Hend).
  assert (Ha' : windowsClosed w (Extended.avgHash st) (Extended.i st + 1))
    by (apply (windowsClosed_mono _ _ _ _ Ha); lia).
  assert (Hh' : windowsClosed w (Extended.highContrastHash st) (Extended.i st + 1))
    by (apply (windowsClosed_mono _ _ _ _ Hh); lia).
  assert (Eq : go_quo (Extended.i st) w = Ret (Z.quot (Extended.i st) w)).
  { unfold go_quo. destruct (Z.eqb_spec w 0); [ contradiction | reflexivity ]. }
  assert (Es : forall n, Extended.setBit32 n (Z.quot (Extended.i st) w) =
                 Ret (Z.lor n (Z.shiftl 1 (Z.quot (Extended.i st) w) mod 2 ^ 32))).
  { intros n. unfold Extended.setBit32, uint32.
    destruct (Z.ltb_spec (Z.quot (Extended.i st) w) 0); [ lia | reflexivity ]. }
  unfold Extended.closeWindow. cbv zeta.
  repeat first
    [ rewrite Eq | rewrite Es | progress cbn [bind]
    | match goal with
      | |- context [if ?c then _ else _] => destruct c
      end ];
    eexists; (split; [ reflexivity | ]);
    cbn [Extended.i Extended.avgHash Extended.highContrastHash];
    (split; [ reflexivity | ]); unfold invExtended;
    cbn [Extended.i Extended.avgHash Extended.highContrastHash];
    repeat split; try assumption; try lia;
    try (apply windowsClosed_setBit; [ lia | assumption | lia | assumption ]);
    try (apply setBit_range; lia).
Qed.

Lemma Extended_hashPixel_Ret (w g : Z) (st : Extended.locals) :
  w <> 0 -> invExtended w (Extended.i st) st ->
  exists st', Extended.hashPixel w g st = Ret st' /\
              Extended.i st' = Extended.i st + 1 /\
              invExtended w (Extended.i st') st'.
Proof.
  intros Hw Hinv. unfold Extended.hashPixel, go_rem.
  destruct (Z.eqb_spec w 0); [ contradiction | ]. cbn [bind].
  destruct (Z.eqb_spec (Z.rem (Extended.i st) w) (w - 1)) as [ Hr | Hr ].
  - destruct (Extended_closeWindow_Ret w st Hw Hr Hinv) as (st1 & -> & Hi1 & Hinv1).
    cbn [bind]. eexists. split; [ reflexivity | ].
    cbn [Extended.i]. split; [ lia | ].
    destruct Hinv1 as (? & ? & ? & ? & ?). rewrite Hi1.
    unfold invExtended; cbn [Extended.i Extended.avgHash Extended.highContrastHash].
    repeat split; try assumption; lia.
  - cbn [bind]. eexists. split; [ reflexivity | ].
    cbn [Extended.i]. split; [ lia | ].
    destruct Hinv as (? & Ha & Hh & ? & ?).
    unfold invExtended; cbn [Extended.i Extended.avgHash Extended.highContrastHash].
    repeat split; try assumption; try lia.
    + apply (windowsClosed_mono _ _ _ _ Ha); lia.
    + apply (windowsClosed_mono _ _ _ _ Hh); lia.
Qed.

(** With a window size other than zero the loop of the extended line hasher
    returns, and the bits of its hashes are indices of windows that lie in
    the pixels it visited. *)
Lemma Extended_loop_Ret (img : Image) (scan : Point) (w : Z) :
  isDirection scan -> w <> 0 ->
  forall (fuel : nat) (spt : Point) (st : Extended.locals),
    (1 <= fuel)%nat ->
    (In spt (image.Bounds img) = true ->
     stepsToLeave (image.Bounds img) scan spt < Z.of_nat fuel) ->
    invExtended w (Extended.i st) st ->
    exists a h,
      Extended.lineAverageHash_loop fuel img scan w spt st = Ret (a, h) /\
      windowsClosed w a (Extended.i st + remaining (image.Bounds img) scan spt) /\
      windowsClosed w h (Extended.i st + remaining (image.Bounds img) scan spt) /\
      0 <= a < 2 ^ 32 /\ 0 <= h < 2 ^ 32.
Proof.
  intros Hs Hw. induction fuel as [ | fuel IH ]; intros spt st Hf Hsteps Hinv.
  - lia.
  - cbn [Extended.lineAverageHash_loop]. unfold remaining.
    destruct (In spt (image.Bounds img)) eqn:Hin.
    + specialize (Hsteps eq_refl).
      pose proof (stepsToLeave_In _ _ _ Hs Hin) as Hge.
      destruct (Extended_hashPixel_Ret w (grayAt img spt) st Hw Hinv)
        as (st1 & -> & Hi1 & Hinv1).
      cbn [bind].
      destruct (IH (Add spt scan) st1) as (a & h & -> & Ha & Hh & Ra & Rh).
      * lia.
      * intros _. rewrite stepsToLeave_Add by assumption. lia.
      * exact Hinv1.
      * pose proof (remaining_step _ _ _ Hs Hin) as Hrem.
        unfold remaining at 2 in Hrem. rewrite Hin in Hrem.
        exists a, h. split; [ reflexivity | ].
        repeat split; try lia.
        -- apply (windowsClosed_mono _ _ _ _ Ha); lia.
        -- apply (windowsClosed_mono _ _ _ _ Hh); lia.
    + destruct Hinv as (? & Ha & Hh & ? & ?).
      exists (Extended.avgHash st), (Extended.highContrastHash st).
      split; [ reflexivity | ].
      repeat split; try lia.
      * apply (windowsClosed_mono _ _ _ _ Ha); lia.
      * apply (windowsClosed_mono _ _ _ _ Hh); lia.
Qed.

Lemma go_quo_not_OutOfFuel (a b : Z) : go_quo a b <> OutOfFuel.
Proof. unfold go_quo. destruct (b =? 0); discriminate. Qed.

Lemma go_rem_not_OutOfFuel (a b : Z) : go_rem a b <> OutOfFuel.
Proof. unfold go_rem. destruct (b =? 0); discriminate. Qed.

Lemma setBit32_not_OutOfFuel (n pos : Z) : Extended.setBit32 n pos <> OutOfFuel.
Proof. unfold Extended.setBit32. destruct (pos <? 0); discriminate. Qed.

Lemma setBit64_not_OutOfFuel (n pos : Z) : Simplified.setBit64 n pos <> OutOfFuel.
Proof. unfold Simplified.setBit64. destruct (pos <? 0); discriminate. Qed.

Ltac no_OutOfFuel :=
  repeat first
    [ discriminate
    | apply go_quo_not_OutOfFuel
    | apply go_rem_not_OutOfFuel
    | apply setBit32_not_OutOfFuel
    | apply setBit64_not_OutOfFuel
    | apply bind_not_OutOfFuel; [ | intros ? _ ]
    | match goal with
      | |- (if ?c then _ else _) <> OutOfFuel => destruct c
      end ].

Lemma Extended_hashPixel_not_OutOfFuel (w g : Z) (st : Extended.locals) :
  Extended.hashPixel w g st <> OutOfFuel.
Proof.
  unfold Extended.hashPixel, Extended.closeWindow. cbv zeta. no_OutOfFuel.
Qed.

(** Whatever the window size, the loop of the extended line hasher ends
    within the pixels left on its way out of the raster. *)
Lemma Extended_loop_ends (img : Image) (scan : Point) (w : Z) :
  isDirection scan ->
  forall (fuel : nat) (spt : Point) (st : Extended.locals),
    (1 <= fuel)%nat ->
    (In spt (image.Bounds img) = true ->
     stepsToLeave (image.Bounds img) scan spt < Z.of_nat fuel) ->
    Extended.lineAverageHash_loop fuel img scan w spt st <> OutOfFuel.
Proof.
  intros Hs. induction fuel as [ | fuel IH ]; intros spt st Hf Hsteps.
  - lia.
  - cbn [Extended.lineAverageHash_loop].
    destruct (In spt (image.Bounds img)) eqn:Hin; [ | discriminate ].
    specialize (Hsteps eq_refl).
    pose proof (stepsToLeave_In _ _ _ Hs Hin) as Hge.
    apply bind_not_OutOfFuel; [ apply Extended_hashPixel_not_OutOfFuel | ].
    intros st1 _. apply IH; [ lia | ]. intros _.
    rewrite stepsToLeave_Add by assumption. lia.
Qed.

Lemma passFuel_steps (r : Rectangle) (scan p : Point) (fuel : nat) :
  isDirection scan -> (passFuel r <= fuel)%nat ->
  (1 <= fuel)%nat /\
  (In p r = true -> stepsToLeave r scan p < Z.of_nat fuel).
Proof.
  intros Hs Hf. unfold passFuel in Hf. split; [ lia | ].
  intros Hin. pose proof (stepsToLeave_In _ _ _ Hs Hin). lia.
Qed.

Lemma Extended_lineAverageHash_ends (fuel : nat) (img : Image) (pt scan : Point) :
  isDirection scan -> (passFuel (image.Bounds img) <= fuel)%nat ->
  Extended.lineAverageHash fuel img pt scan <> OutOfFuel.
Proof.
  intros Hs Hf. unfold Extended.lineAverageHash. cbv zeta.
  destruct (passFuel_steps (image.Bounds img) scan pt fuel Hs Hf).
  now apply Extended_loop_ends.
Qed.

(** With a window size other than zero the extended line hasher returns two
    32-bit hashes whose set bits are indices of windows that fit in the
    pixels of the line. *)
Lemma Extended_lineAverageHash_Ret (fuel : nat) (img : Image) (pt scan : Point) :
  isDirection scan -> (passFuel (image.Bounds img) <= fuel)%nat ->
  Z.quot (sweptMax img scan) 32 <> 0 ->
  exists a h,
    Extended.lineAverageHash fuel img pt scan = Ret (a, h) /\
    windowsClosed (Z.quot (sweptMax img scan) 32) a
      (remaining (image.Bounds img) scan pt) /\
    windowsClosed (Z.quot (sweptMax img scan) 32) h
      (remaining (image.Bounds img) scan pt) /\
    0 <= a < 2 ^ 32 /\ 0 <= h < 2 ^ 32.
Proof.
  intros Hs Hf Hw. unfold Extended.lineAverageHash. cbv zeta.
  fold (sweptMax img scan).
  destruct (passFuel_steps (image.Bounds img) scan pt fuel Hs Hf) as [Hf1 Hst].
  destruct (Extended_loop_Ret img scan _ Hs Hw fuel pt
              (Extended.Locals 0 0%float 0%float 0 0 0) Hf1 Hst)
    as (a & h & E & Ha & Hh & Ra & Rh).
  - unfold invExtended; cbn [Extended.i Extended.avgHash Extended.highContrastHash].
    repeat split; try lia; apply windowsClosed_0.
  - cbn [Extended.i] in Ha, Hh. exists a, h. repeat split; try assumption; lia.
Qed.

(** On a uniform raster the hash of a line depends only on which of the
    points the scan steps through lie in the raster. *)
Lemma Extended_loop_uniform (img : Image) (g : Z) (scan : Point) (w : Z) :
  uniform img g ->
  forall (fuel : nat) (p q : Point) (st : Extended.locals),
    (forall j : nat,
       In (Add p (Mul scan (Z.of_nat j))) (image.Bounds img) =
       In (Add q (Mul scan (Z.of_nat j))) (image.Bounds img)) ->
    Extended.lineAverageHash_loop fuel img scan w p st =
    Extended.lineAverageHash_loop fuel img scan w q st.
Proof.
  intros Hu. induction fuel as [ | fuel IH ]; intros p q st Hpq; [ reflexivity | ].
  cbn [Extended.lineAverageHash_loop].
  pose proof (Hpq 0%nat) as H0. rewrite !Add_Mul_0 in H0. rewrite <- H0.
  destruct (In p (image.Bounds img)) eqn:Hin; [ | reflexivity ].
  rewrite (Hu p Hin), (Hu q) by congruence.
  destruct (Extended.hashPixel w g st) as [ st1 | | ]; try reflexivity.
  cbn [bind]. apply IH. intros j. rewrite <- !Add_Mul_succ. apply Hpq.
Qed.

(** Two lines of a directional scan that lie in the raster are stepped
    through alike. *)
Lemma lines_In_alike (img : Image) (dir : Point) (j k i : nat) :
  isDirection dir ->
  In (line img dir j) (image.Bounds img) = true ->
  In (line img dir k) (image.Bounds img) = true ->
  In (Add (line img dir j) (Mul (Pt (Y dir) (X dir)) (Z.of_nat i))) (image.Bounds img) =
  In (Add (line img dir k) (Mul (Pt (Y dir) (X dir)) (Z.of_nat i))) (image.Bounds img).
Proof.
  intros Hd Hj Hk. apply In_true_iff in Hj. apply In_true_iff in Hk.
  apply Bool.eq_true_iff_eq. rewrite !In_true_iff.
  four_dirs Hd; unfold_points; lia.
Qed.

Lemma Extended_uniform_lines (fuel : nat) (img : Image) (g : Z) (dir : Point)
    (j k : nat) :
  isDirection dir -> uniform img g ->
  In (line img dir j) (image.Bounds img) = true ->
  In (line img dir k) (image.Bounds img) = true ->
  hashLineExtended fuel img dir (line img dir j) =
  hashLineExtended fuel img dir (line img dir k).
Proof.
  intros Hd Hu Hj Hk. unfold hashLineExtended, Extended.lineAverageHash. cbv zeta.
  apply (Extended_loop_uniform img g); [ exact Hu | ].
  intros i. now apply lines_In_alike.
Qed.

Lemma Simplified_closeWindow_Ret (w : Z) (st : Simplified.locals) :
  w <> 0 -> Z.rem (Simplified.i st) w = w - 1 ->
  invSimplified w (Simplified.i st) st ->
  exists st', Simplified.closeWindow w st = Ret st' /\
              Simplified.i st' = Simplified.i st /\
              invSimplified w (Simplified.i st + 1) st'.
Proof.
  intros Hw Hr (Hi & Ha & Ra).
  destruct (window_end _ _ Hi Hw Hr) as (Hpos & Hq & Hend).
  assert (Ha' : windowsClosed w (Simplified.hash st) (Simplified.i st + 1))
    by (apply (windowsClosed_mono _ _ _ _ Ha); lia).
  assert (Eq : go_quo (Simplified.i st) w = Ret (Z.quot (Simplified.i st) w)).
  { unfold go_quo. destruct (Z.eqb_spec w 0); [ contradiction | reflexivity ]. }
  assert (Es : forall n, Simplified.setBit64 n (Z.quot (Simplified.i st) w) =
                 Ret (Z.lor n (Z.shiftl 1 (Z.quot (Simplified.i st) w) mod 2 ^ 64))).
  { intros n. unfold Simplified.setBit64, uint64.
    destruct (Z.ltb_spec (Z.quot (Simplified.i st) w) 0); [ lia | reflexivity ]. }
  unfold Simplified.closeWindow.
  repeat first
    [ rewrite Eq | rewrite Es | progress cbn [bind]
    | match goal with
      | |- context [if ?c then _ else _] => destruct c
      end ];
    eexists; (split; [ reflexivity | ]);
    cbn [Simplified.i Simplified.hash];
    (split; [ reflexivity | ]); unfold invSimplified;
    cbn [Simplified.i Simplified.hash];
    repeat split; try assumption; try lia;
    try (apply windowsClosed_setBit; [ lia | assumption | lia | assumption ]);
    try (apply setBit_range; lia).
Qed.

Lemma Simplified_hashPixel_Ret (w g : Z) (st : Simplified.locals) :
  w <> 0 -> invSimplified w (Simplified.i st) st ->
  exists st', Simplified.hashPixel w g st = Ret st' /\
              Simplified.i st' = Simplified.i st + 1 /\
              invSimplified w (Simplified.i st') st'.
Proof.
  intros Hw Hinv. unfold Simplified.hashPixel, go_rem.
  destruct (Z.eqb_spec w 0); [ contradiction | ]. cbn [bind].
  destruct (Z.eqb_spec (Z.rem (Simplified.i st) w) (w - 1)) as [ Hr | Hr ].
  - destruct (Simplified_closeWindow_Ret w st Hw Hr Hinv) as (st1 & -> & Hi1 & Hinv1).
    cbn [bind]. eexists. split; [ reflexivity | ].
    cbn [Simplified.i]. split; [ lia | ].
    destruct Hinv1 as (? & ? & ?). rewrite Hi1.
    unfold invSimplified; cbn [Simplified.i Simplified.hash].
    repeat split; try assumption; lia.
  - cbn [bind]. eexists. split; [ reflexivity | ].
    cbn [Simplified.i]. split; [ lia | ].
    destruct Hinv as (? & Ha & ?).
    unfold invSimplified; cbn [Simplified.i Simplified.hash].
    repeat split; try assumption; try lia.
    apply (windowsClosed_mono _ _ _ _ Ha); lia.
Qed.

Lemma Simplified_loop_Ret (img : Image) (scan : Point) (w : Z) :
  isDirection scan -> w <> 0 ->
  forall (fuel : nat) (spt : Point) (st : Simplified.locals),
    (1 <= fuel)%nat ->
    (In spt (image.Bounds img) = true ->
     stepsToLeave (image.Bounds img) scan spt < Z.of_nat fuel) ->
    invSimplified w (Simplified.i st) st ->
    exists h,
      Simplified.lineAverageHash_loop fuel img scan w spt st = Ret h /\
      windowsClosed w h (Simplified.i st + remaining (image.Bounds img) scan spt) /\
      0 <= h < 2 ^ 64.
Proof.
  intros Hs Hw. induction fuel as [ | fuel IH ]; intros spt st Hf Hsteps Hinv.
  - lia.
  - cbn [Simplified.lineAverageHash_loop]. unfold remaining.
    destruct (In spt (image.Bounds img)) eqn:Hin.
    + specialize (Hsteps eq_refl).
      pose proof (stepsToLeave_In _ _ _ Hs Hin) as Hge.
      destruct (Simplified_hashPixel_Ret w (grayAt img spt) st Hw Hinv)
        as (st1 & -> & Hi1 & Hinv1).
      cbn [bind].
      destruct (IH (Add spt scan) st1) as (h & -> & Hh & Rh).
      * lia.
      * intros _. rewrite stepsToLeave_Add by assumption. lia.
      * exact Hinv1.
      * pose proof (remaining_step _ _ _ Hs Hin) as Hrem.
        unfold remaining at 2 in Hrem. rewrite Hin in Hrem.
        exists h. split; [ reflexivity | ].
        split; [ | lia ].
        apply (windowsClosed_mono _ _ _ _ Hh); lia.
    + destruct Hinv as (? & Ha & ?).
      exists (Simplified.hash st). split; [ reflexivity | ].
      split; [ | lia ].
      apply (windowsClosed_mono _ _ _ _ Ha); lia.
Qed.

Lemma Simplified_hashPixel_not_OutOfFuel (w g : Z) (st : Simplified.locals) :
  Simplified.hashPixel w g st <> OutOfFuel.
Proof.
  unfold Simplified.hashPixel, Simplified.closeWindow. no_OutOfFuel.
Qed.

Lemma Simplified_loop_ends (img : Image) (scan : Point) (w : Z) :
  isDirection scan ->
  forall (fuel : nat) (spt : Point) (st : Simplified.locals),
    (1 <= fuel)%nat ->
    (In spt (image.Bounds img) = true ->
     stepsToLeave (image.Bounds img) scan spt < Z.of_nat fuel) ->
    Simplified.lineAverageHash_loop fuel img scan w spt st <> OutOfFuel.
Proof.
  intros Hs. induction fuel as [ | fuel IH ]; intros spt st Hf Hsteps.
  - lia.
  - cbn [Simplified.lineAverageHash_loop].
    destruct (In spt (image.Bounds img)) eqn:Hin; [ | discriminate ].
    specialize (Hsteps eq_refl).
    pose proof (stepsToLeave_In _ _ _ Hs Hin) as Hge.
    apply bind_not_OutOfFuel; [ apply Simplified_hashPixel_not_OutOfFuel | ].
    intros st1 _. apply IH; [ lia | ]. intros _.
    rewrite stepsToLeave_Add by assumption. lia.
Qed.

Lemma Simplified_lineAverageHash_ends (fuel : nat) (img : Image)
    (rgbimg : option Image) (pt scan : Point) :
  isDirection scan -> (passFuel (image.Bounds img) <= fuel)%nat ->
  rgbimg = None \/ rgbimg = Some img ->
  Simplified.lineAverageHash fuel rgbimg pt scan <> OutOfFuel.
Proof.
  intros Hs Hf [ -> | -> ]; unfold Simplified.lineAverageHash; [ discriminate | ].
  cbv zeta.
  destruct (passFuel_steps (image.Bounds img) scan pt fuel Hs Hf).
  now apply Simplified_loop_ends.
Qed.

(** With a window size other than zero the simplified line hasher returns a
    64-bit hash whose set bits are indices of windows that fit in the pixels
    of the line. *)
Lemma Simplified_lineAverageHash_Ret (fuel : nat) (img : Image) (pt scan : Point) :
  isDirection scan -> (passFuel (image.Bounds img) <= fuel)%nat ->
  Z.quot (sweptMax img scan) 64 <> 0 ->
  exists h,
    Simplified.lineAverageHash fuel (Some img) pt scan = Ret h /\
    windowsClosed (Z.quot (sweptMax img scan) 64) h
      (remaining (image.Bounds img) scan pt) /\
    0 <= h < 2 ^ 64.
Proof.
  intros Hs Hf Hw. unfold Simplified.lineAverageHash. cbv zeta.
  fold (sweptMax img scan).
  destruct (passFuel_steps (image.Bounds img) scan pt fuel Hs Hf) as [Hf1 Hst].
  destruct (Simplified_loop_Ret img scan _ Hs Hw fuel pt
              (Simplified.Locals 0 0 0) Hf1 Hst) as (h & E & Hh & Rh).
  - unfold invSimplified; cbn [Simplified.i Simplified.hash].
    repeat split; try lia; apply windowsClosed_0.
  - cbn [Simplified.i] in Hh. exists h. repeat split; try assumption; lia.
Qed.

Lemma Simplified_loop_uniform (img : Image) (g : Z) (scan : Point) (w : Z) :
  uniform img g ->
  forall (fuel : nat) (p q : Point) (st : Simplified.locals),
    (forall j : nat,
       In (Add p (Mul scan (Z.of_nat j))) (image.Bounds img) =
       In (Add q (Mul scan (Z.of_nat j))) (image.Bounds img)) ->
    Simplified.lineAverageHash_loop fuel img scan w p st =
    Simplified.lineAverageHash_loop fuel img scan w q st.
Proof.
  intros Hu. induction fuel as [ | fuel IH ]; intros p q st Hpq; [ reflexivity | ].
  cbn [Simplified.lineAverageHash_loop].
  pose proof (Hpq 0%nat) as H0. rewrite !Add_Mul_0 in H0. rewrite <- H0.
  destruct (In p (image.Bounds img)) eqn:Hin; [ | reflexivity ].
  rewrite (Hu p Hin), (Hu q) by congruence.
  destruct (Simplified.hashPixel w g st) as [ st1 | | ]; try reflexivity.
  cbn [bind]. apply IH. intros j. rewrite <- !Add_Mul_succ. apply Hpq.
Qed.

Lemma Simplified_uniform_lines (fuel : nat) (img : Image) (g : Z) (dir : Point)
    (j k : nat) :
  isDirection dir -> uniform img g ->
  In (line img dir j) (image.Bounds img) = true ->
  In (line img dir k) (image.Bounds img) = true ->
  hashLineSimplified fuel img dir (line img dir j) =
  hashLineSimplified fuel img dir (line img dir k).
Proof.
  intros Hd Hu Hj Hk. unfold hashLineSimplified, Simplified.lineAverageHash.
  destruct (RGBA64Image img); [ | reflexivity ]. cbv zeta.
  apply (Simplified_loop_uniform img g); [ exact Hu | ].
  intros i. now apply lines_In_alike.
Qed.

(** ** The hash-based boundary scan *)

Section HashScanLines.

Variable H : Type.
Variable hashLine : Point -> outcome H.
Variable differ : H -> H -> bool.
Variable img : Image.
Variable dir : Point.

(** Lines 0 to [n] match their predecessors and line [n + 1] is the first
    that differs from the line before it. *)
Lemma hashScan_found (fuel n : nat) (hs : nat -> H) :
  (n < fuel)%nat ->
  (forall j : nat, (j <= S n)%nat -> hashLine (line img dir j) = Ret (hs j)) ->
  (forall j : nat, (j < n)%nat ->
     differ (hs j) (hs (S j)) = false /\
     In (line img dir (S (S j))) (image.Bounds img) = true) ->
  differ (hs n) (hs (S n)) = true ->
  hashScan hashLine differ fuel (image.Bounds img) dir =
    Ret (if negative dir then line img dir n else line img dir (S n)).
Proof.
  intros Hf Hhash Hsame Hdiff. unfold hashScan. cbv zeta.
  rewrite <- line_0, (Hhash 0%nat) by lia. cbn [bind].
  rewrite (hashScan_loop_found H hashLine differ (image.Bounds img) dir n
             fuel (Add (line img dir 0) dir) hs Hf).
  - cbn [bind]. rewrite <- line_S.
    replace (Add (line img dir 1) (Mul dir (Z.of_nat n))) with (line img dir (S n)).
    + destruct (negative dir); [ rewrite line_S_Sub | ]; reflexivity.
    + unfold line. rewrite Add_Mul_succ. f_equal.
      change (Z.of_nat 1) with 1. unfold Add, Mul; cbn [X Y]. f_equal; lia.
  - intros j Hj. rewrite line_0, <- Add_Mul_succ. apply Hhash. lia.
  - intros j Hj. rewrite line_0, <- Add_Mul_succ. apply Hsame. exact Hj.
  - exact Hdiff.
Qed.

(** Every line up to line [n + 1] matches its predecessor and line [n + 2]
    lies outside the raster. *)
Lemma hashScan_exhausted (fuel n : nat) (hs : nat -> H) :
  (n < fuel)%nat ->
  (forall j : nat, (j <= S n)%nat -> hashLine (line img dir j) = Ret (hs j)) ->
  (forall j : nat, (j <= n)%nat -> differ (hs j) (hs (S j)) = false) ->
  (forall j : nat, (j < n)%nat ->
     In (line img dir (S (S j))) (image.Bounds img) = true) ->
  In (line img dir (S (S n))) (image.Bounds img) = false ->
  hashScan hashLine differ fuel (image.Bounds img) dir =
    Ret (if negative dir
         then Sub (pointInScanCorner (image.Bounds img) dir) dir
         else pointInScanCorner (image.Bounds img) dir).
Proof.
  intros Hf Hhash Hsame Hin Hout. unfold hashScan. cbv zeta.
  rewrite <- line_0, (Hhash 0%nat) by lia. cbn [bind].
  rewrite (hashScan_loop_exhausted H hashLine differ (image.Bounds img) dir n
             fuel (Add (line img dir 0) dir) hs Hf).
  - cbn [bind]. rewrite line_0. destruct (negative dir); reflexivity.
  - intros j Hj. rewrite line_0, <- Add_Mul_succ. split.
    + apply Hhash. lia.
    + apply Hsame. exact Hj.
  - intros j Hj. rewrite line_0, <- Add_Mul_succ. apply Hin. exact Hj.
  - rewrite line_0, <- Add_Mul_succ. exact Hout.
Qed.

(** When all lines of the raster hash alike, and there are at least two, the
    scan runs to the far edge and falls back on the corner it started
    from. *)
Lemma hashScan_all_alike (fuel : nat) (h0 : H) :
  isDirection dir ->
  (passFuel (image.Bounds img) <= fuel)%nat ->
  nonEmpty (image.Bounds img) ->
  2 <= dirExtent (image.Bounds img) dir ->
  (forall j : nat, In (line img dir j) (image.Bounds img) = true ->
     hashLine (line img dir j) = Ret h0) ->
  differ h0 h0 = false ->
  hashScan hashLine differ fuel (image.Bounds img) dir =
    Ret (if negative dir
         then Sub (pointInScanCorner (image.Bounds img) dir) dir
         else pointInScanCorner (image.Bounds img) dir).
Proof.
  intros Hd Hf Hne Hext Hhash Hsame.
  pose proof (dirExtent_le_max (image.Bounds img) dir) as Hmax.
  apply (hashScan_exhausted fuel
           (Z.to_nat (dirExtent (image.Bounds img) dir - 2)) (fun _ => h0)).
  - unfold passFuel in Hf. lia.
  - intros j Hj. apply Hhash. apply (line_In_iff img dir j Hd).
    split; [ exact Hne | lia ].
  - intros j _. exact Hsame.
  - intros j Hj. apply (line_In_iff img dir _ Hd). split; [ exact Hne | lia ].
  - apply In_false_iff. rewrite <- In_true_iff, (line_In_iff img dir _ Hd). lia.
Qed.

(** The scan ends within one pass over the raster when the line hasher
    ends. *)
Lemma hashScan_ends (fuel : nat) :
  isDirection dir ->
  (passFuel (image.Bounds img) <= fuel)%nat ->
  (forall p, hashLine p <> OutOfFuel) ->
  hashScan hashLine differ fuel (image.Bounds img) dir <> OutOfFuel.
Proof.
  intros Hd Hf Hline. unfold hashScan. cbv zeta.
  apply bind_not_OutOfFuel; [ apply Hline | ]. intros prev _.
  apply bind_not_OutOfFuel.
  - destruct (passFuel_steps (image.Bounds img) dir
                (Add (Add (pointInScanCorner (image.Bounds img) dir) dir) dir)
                fuel Hd Hf) as [Hf1 Hst].
    now apply hashScan_loop_ends.
  - intros p _. destruct (negative dir); discriminate.
Qed.

End HashScanLines.

(** C2, as the code has it.  Let line [n + 1] be the first line whose hashes
    the comparator declares different from those of the line before it,
    line [n].  For the directions (-1,0) and (0,-1) the scan returns the
    position of line [n], the last margin line; for (1,0) and (0,1) it
    returns the position of line [n + 1], the line that differs.  [hs j] is
    the hash the line hasher returns for line [j]. *)
Theorem findBorderUsingAvgHash_edge (fuel n : nat) (img : Image) (dir : Point) :
  (n < fuel)%nat ->
  (forall hs : nat -> Z * Z,
     (forall j : nat, (j <= S n)%nat ->
        Extended.lineAverageHash fuel img (line img dir j) (Pt (Y dir) (X dir))
          = Ret (hs j)) ->
     (forall j : nat, (j < n)%nat ->
        Extended.hashesMatch (fst (hs j)) (snd (hs j))
          (fst (hs (S j))) (snd (hs (S j))) = true /\
        In (line img dir (S (S j))) (image.Bounds img) = true) ->
     Extended.hashesMatch (fst (hs n)) (snd (hs n))
       (fst (hs (S n))) (snd (hs (S n))) = false ->
     Extended.findBorderUsingAvgHash fuel img dir =
       Ret (if negative dir then line img dir n else line img dir (S n))) /\
  (forall hs : nat -> Z,
     (forall j : nat, (j <= S n)%nat ->
        Simplified.lineAverageHash fuel
          (if RGBA64Image img then Some img else None)
          (line img dir j) (Pt (Y dir) (X dir)) = Ret (hs j)) ->
     (forall j : nat, (j < n)%nat ->
        Simplified.hashesDiffer (hs j) (hs (S j)) = false /\
        In (line img dir (S (S j))) (image.Bounds img) = true) ->
     Simplified.hashesDiffer (hs n) (hs (S n)) = true ->
     Simplified.findBorderUsingAvgHash fuel img dir =
       Ret (if negative dir then line img dir n else line img dir (S n))).
Proof.
  intros Hf. split.
  - intros hs Hhash Hsame Hdiff.
    rewrite Extended_findBorderUsingAvgHash_hashScan.
    apply (hashScan_found _ _ _ img dir fuel n hs Hf Hhash).
    + intros j Hj. destruct (Hsame j Hj) as [Hm Hin]. split; [ | exact Hin ].
      unfold differExtended. rewrite Hm. reflexivity.
    + unfold differExtended. rewrite Hdiff. reflexivity.
  - intros hs Hhash Hsame Hdiff.
    rewrite Simplified_findBorderUsingAvgHash_hashScan.
    exact (hashScan_found _ _ _ img dir fuel n hs Hf Hhash Hsame Hdiff).
Qed.

(** Witness of C2: on [whiteThenBlack] the rightward scan meets the black
    column as line 2 and returns its position. *)
Lemma findBorderUsingAvgHash_edge_witness :
  Extended.findBorderUsingAvgHash 33 whiteThenBlack (Pt 1 0) = Ret (Pt 2 0) /\
  Simplified.findBorderUsingAvgHash 65 whiteThenBlack64 (Pt 1 0) = Ret (Pt 2 0).
Proof.
  split.
  - destruct (findBorderUsingAvgHash_edge 33 1 whiteThenBlack (Pt 1 0)
                ltac:(lia)) as [He _].
    apply (He (fun j => if Nat.ltb j 2 then (4294967294, 0) else (0, 0))).
    + intros j Hj. destruct j as [ | [ | [ | j ] ] ];
        [ vm_compute; reflexivity .. | lia ].
    + intros j Hj. assert (j = 0%nat) as -> by lia.
      split; vm_compute; reflexivity.
    + vm_compute. reflexivity.
  - destruct (findBorderUsingAvgHash_edge 65 1 whiteThenBlack64 (Pt 1 0)
                ltac:(lia)) as [_ Hs].
    apply (Hs (fun j => if Nat.ltb j 2 then 18446744073709551614 else 0)).
    + intros j Hj. destruct j as [ | [ | [ | j ] ] ];
        [ vm_compute; reflexivity .. | lia ].
    + intros j Hj. assert (j = 0%nat) as -> by lia.
      split; vm_compute; reflexivity.
    + vm_compute. reflexivity.
Defined.

(** C2 as the specification words it fails on the code: scanning
    [whiteThenBlack] rightward, the black column is line 2 and the last
    margin line is line 1, at x = 1; the scan returns x = 2. *)
Lemma findBorderUsingAvgHash_previous_line_counterexample :
  ~ (forall (fuel n : nat) (img : Image) (dir : Point) (hs : nat -> Z * Z),
       isDirection dir ->
       (n < fuel)%nat ->
       (forall j : nat, (j <= S n)%nat ->
          Extended.lineAverageHash fuel img (line img dir j) (Pt (Y dir) (X dir))
            = Ret (hs j)) ->
       (forall j : nat, (j < n)%nat ->
          Extended.hashesMatch (fst (hs j)) (snd (hs j))
            (fst (hs (S j))) (snd (hs (S j))) = true /\
          In (line img dir (S (S j))) (image.Bounds img) = true) ->
       Extended.hashesMatch (fst (hs n)) (snd (hs n))
         (fst (hs (S n))) (snd (hs (S n))) = false ->
       Extended.findBorderUsingAvgHash fuel img dir = Ret (line img dir n)) /\
  Extended.findBorderUsingAvgHash 33 whiteThenBlack (Pt 1 0) = Ret (Pt 2 0) /\
  line whiteThenBlack (Pt 1 0) 1 = Pt 1 0.
Proof.
  split; [ | split; vm_compute; reflexivity ].
  intros H.
  specialize (H 33%nat 1%nat whiteThenBlack (Pt 1 0)
                (fun j => if Nat.ltb j 2 then (4294967294, 0) else (0, 0))
                isDirection_left ltac:(lia)).
  assert (H1 : Extended.findBorderUsingAvgHash 33 whiteThenBlack (Pt 1 0)
               = Ret (line whiteThenBlack (Pt 1 0) 1)).
  { apply H.
    - intros j Hj. destruct j as [ | [ | [ | j ] ] ];
        [ vm_compute; reflexivity .. | lia ].
    - intros j Hj. assert (j = 0%nat) as -> by lia.
      split; vm_compute; reflexivity.
    - vm_compute. reflexivity. }
  vm_compute in H1. discriminate H1.
Qed.

(** ** Uniform rasters *)

Lemma sameLine_refl (dir p : Point) : sameLine dir p p.
Proof. unfold sameLine. destruct (X dir =? 0); reflexivity. Qed.

Lemma Rect_canon (r : Rectangle) :
  X (Min r) <= X (Max r) -> Y (Min r) <= Y (Max r) ->
  Rect (X (Min r)) (Y (Min r)) (X (Max r)) (Y (Max r)) = r.
Proof.
  destruct r as [ [x0 y0] [x1 y1] ]. cbn [X Y Min Max]. intros Hx Hy.
  unfold Rect.
  destruct (Z.ltb_spec x1 x0); [ lia | ].
  destruct (Z.ltb_spec y1 y0); [ lia | ]. reflexivity.
Qed.

(** On a uniform raster the naive scanner returns the edge of the corner it
    started from, whatever the colour. *)
Lemma findBorder_uniform (fuel : nat) (img : Image) (g : Z) (dir : Point) :
  isDirection dir -> uniform img g ->
  (passFuel (image.Bounds img) <= fuel)%nat ->
  findBorder fuel img dir =
    Ret (if negative dir
         then Sub (pointInScanCorner (image.Bounds img) dir) dir
         else pointInScanCorner (image.Bounds img) dir).
Proof.
  intros Hd Hu Hf.
  destruct (findBorder_spec fuel img dir Hd Hf) as [Hfound Hnone].
  destruct (In (line img dir 0) (image.Bounds img)) eqn:H0.
  - destruct (Z.leb_spec g grayDarknessLimit) as [ Hg | Hg ].
    + rewrite (Hfound 0%nat H0).
      * rewrite line_0. reflexivity.
      * exists (line img dir 0). split; [ exact H0 | ].
        split; [ apply sameLine_refl | ]. rewrite (Hu _ H0). exact Hg.
      * intros j Hj. lia.
    + apply Hnone. intros k _ (q & Hq & _ & Hgq). rewrite (Hu _ Hq) in Hgq. lia.
  - apply Hnone. intros k Hk. exfalso.
    apply (line_In_iff img dir k Hd) in Hk. destruct Hk as [Hne _].
    assert (In (line img dir 0) (image.Bounds img) = true); [ | congruence ].
    apply (line_In_iff img dir 0 Hd). split; [ exact Hne | ].
    pose proof (nonEmpty_dirExtent _ dir Hne). lia.
Qed.

Lemma Bounds_uniform (fuel : nat) (img : Image) (g : Z) :
  uniform img g ->
  (passFuel (image.Bounds img) <= fuel)%nat ->
  Bounds fuel img =
    Ret (Rect (X (Min (image.Bounds img))) (Y (Min (image.Bounds img)))
              (X (Max (image.Bounds img))) (Y (Max (image.Bounds img)))).
Proof.
  intros Hu Hf. unfold Bounds.
  rewrite (findBorder_uniform fuel img g _ isDirection_left Hu Hf).
  rewrite (findBorder_uniform fuel img g _ isDirection_right Hu Hf).
  rewrite (findBorder_uniform fuel img g _ isDirection_top Hu Hf).
  rewrite (findBorder_uniform fuel img g _ isDirection_bottom Hu Hf).
  cbn [bind]. unfold_points. do 2 f_equal; lia.
Qed.

Lemma hashesMatch_refl (a h : Z) : Extended.hashesMatch a h a h = true.
Proof.
  unfold Extended.hashesMatch. rewrite !Z.lxor_nilpotent.
  change (bits.OnesCount32 0) with 0. cbn [Z.add].
  change (minDistinctBitsBetweenLines <=? 0) with false.
  rewrite andb_false_r. reflexivity.
Qed.

Lemma hashesDiffer_refl (h : Z) : Simplified.hashesDiffer h h = false.
Proof.
  unfold Simplified.hashesDiffer. rewrite Z.lxor_nilpotent. reflexivity.
Qed.

Lemma sweptMax_swap (img : Image) (dir : Point) :
  isDirection dir ->
  sweptMax img (Pt (Y dir) (X dir)) =
    if X dir =? 0 then X (Max (image.Bounds img)) else Y (Max (image.Bounds img)).
Proof.
  intros Hd. unfold sweptMax. four_dirs Hd; reflexivity.
Qed.

Lemma quot_large (v width : Z) : 0 < width <= v -> Z.quot v width <> 0.
Proof. intros Hv. pose proof (Z.quot_str_pos v width Hv). lia. Qed.

(** On a uniform raster with at least two lines whose window size is not
    zero, the hash-based scan returns the edge of the corner it started
    from. *)
Lemma Extended_findBorderUsingAvgHash_uniform (fuel : nat) (img : Image) (g : Z)
    (dir : Point) :
  isDirection dir -> uniform img g ->
  (passFuel (image.Bounds img) <= fuel)%nat ->
  nonEmpty (image.Bounds img) ->
  2 <= dirExtent (image.Bounds img) dir ->
  Z.quot (sweptMax img (Pt (Y dir) (X dir))) 32 <> 0 ->
  Extended.findBorderUsingAvgHash fuel img dir =
    Ret (if negative dir
         then Sub (pointInScanCorner (image.Bounds img) dir) dir
         else pointInScanCorner (image.Bounds img) dir).
Proof.
  intros Hd Hu Hf Hne Hext Hw.
  rewrite Extended_findBorderUsingAvgHash_hashScan.
  destruct (Extended_lineAverageHash_Ret fuel img (line img dir 0)
              (Pt (Y dir) (X dir)) (isDirection_swap _ Hd) Hf Hw)
    as (a & h & E & _).
  assert (H0 : In (line img dir 0) (image.Bounds img) = true).
  { apply (line_In_iff img dir 0 Hd). split; [ exact Hne | lia ]. }
  apply (hashScan_all_alike _ _ _ img dir fuel (a, h) Hd Hf Hne Hext).
  - intros j Hj. rewrite (Extended_uniform_lines fuel img g dir j 0 Hd Hu Hj H0).
    exact E.
  - unfold differExtended. cbn [fst snd]. rewrite hashesMatch_refl. reflexivity.
Qed.

Lemma Simplified_findBorderUsingAvgHash_uniform (fuel : nat) (img : Image) (g : Z)
    (dir : Point) :
  isDirection dir -> uniform img g ->
  (passFuel (image.Bounds img) <= fuel)%nat ->
  nonEmpty (image.Bounds img) ->
  2 <= dirExtent (image.Bounds img) dir ->
  Z.quot (sweptMax img (Pt (Y dir) (X dir))) 64 <> 0 ->
  RGBA64Image img = true ->
  Simplified.findBorderUsingAvgHash fuel img dir =
    Ret (if negative dir
         then Sub (pointInScanCorner (image.Bounds img) dir) dir
         else pointInScanCorner (image.Bounds img) dir).
Proof.
  intros Hd Hu Hf Hne Hext Hw Hrgb.
  rewrite Simplified_findBorderUsingAvgHash_hashScan.
  destruct (Simplified_lineAverageHash_Ret fuel img (line img dir 0)
              (Pt (Y dir) (X dir)) (isDirection_swap _ Hd) Hf Hw)
    as (h & E & _).
  assert (H0 : In (line img dir 0) (image.Bounds img) = true).
  { apply (line_In_iff img dir 0 Hd). split; [ exact Hne | lia ]. }
  apply (hashScan_all_alike _ _ _ img dir fuel h Hd Hf Hne Hext).
  - intros j Hj. rewrite (Simplified_uniform_lines fuel img g dir j 0 Hd Hu Hj H0).
    unfold hashLineSimplified. rewrite Hrgb. exact E.
  - apply hashesDiffer_refl.
Qed.

Lemma Extended_BoundsHash_uniform (fuel : nat) (img : Image) (g : Z) :
  uniform img g ->
  (passFuel (image.Bounds img) <= fuel)%nat ->
  X (Min (image.Bounds img)) + 2 <= X (Max (image.Bounds img)) ->
  Y (Min (image.Bounds img)) + 2 <= Y (Max (image.Bounds img)) ->
  32 <= X (Max (image.Bounds img)) ->
  32 <= Y (Max (image.Bounds img)) ->
  Extended.BoundsHash fuel img = Ret (image.Bounds img).
Proof.
  intros Hu Hf Hx Hy Hmx Hmy.
  assert (Hne : nonEmpty (image.Bounds img)) by (unfold nonEmpty; lia).
  unfold Extended.BoundsHash.
  rewrite (Extended_findBorderUsingAvgHash_uniform fuel img g _
             isDirection_left Hu Hf Hne);
    [ | unfold dirExtent; cbn; lia
      | rewrite sweptMax_swap by exact isDirection_left; cbn;
        apply quot_large; lia ].
  rewrite (Extended_findBorderUsingAvgHash_uniform fuel img g _
             isDirection_right Hu Hf Hne);
    [ | unfold dirExtent; cbn; lia
      | rewrite sweptMax_swap by exact isDirection_right; cbn;
        apply quot_large; lia ].
  rewrite (Extended_findBorderUsingAvgHash_uniform fuel img g _
             isDirection_top Hu Hf Hne);
    [ | unfold dirExtent; cbn; lia
      | rewrite sweptMax_swap by exact isDirection_top; cbn;
        apply quot_large; lia ].
  rewrite (Extended_findBorderUsingAvgHash_uniform fuel img g _
             isDirection_bottom Hu Hf Hne);
    [ | unfold dirExtent; cbn; lia
      | rewrite sweptMax_swap by exact isDirection_bottom; cbn;
        apply quot_large; lia ].
  cbn [bind]. f_equal.
  etransitivity; [ | apply (Rect_canon (image.Bounds img)); lia ].
  unfold_points. f_equal; lia.
Qed.

Lemma Simplified_BoundsHash_uniform (fuel : nat) (img : Image) (g : Z) :
  uniform img g ->
  (passFuel (image.Bounds img) <= fuel)%nat ->
  X (Min (image.Bounds img)) + 2 <= X (Max (image.Bounds img)) ->
  Y (Min (image.Bounds img)) + 2 <= Y (Max (image.Bounds img)) ->
  64 <= X (Max (image.Bounds img)) ->
  64 <= Y (Max (image.Bounds img)) ->
  RGBA64Image img = true ->
  Simplified.BoundsHash fuel img = Ret (image.Bounds img).
Proof.
  intros Hu Hf Hx Hy Hmx Hmy Hrgb.
  assert (Hne : nonEmpty (image.Bounds img)) by (unfold nonEmpty; lia).
  unfold Simplified.BoundsHash.
  rewrite (Simplified_findBorderUsingAvgHash_uniform fuel img g _
             isDirection_left Hu Hf Hne);
    [ | unfold dirExtent; cbn; lia
      | rewrite sweptMax_swap by exact isDirection_left; cbn;
        apply quot_large; lia
      | exact Hrgb ].
  rewrite (Simplified_findBorderUsingAvgHash_uniform fuel img g _
             isDirection_right Hu Hf Hne);
    [ | unfold dirExtent; cbn; lia
      | rewrite sweptMax_swap by exact isDirection_right; cbn;
        apply quot_large; lia
      | exact Hrgb ].
  rewrite (Simplified_findBorderUsingAvgHash_uniform fuel img g _
             isDirection_top Hu Hf Hne);
    [ | unfold dirExtent; cbn; lia
      | rewrite sweptMax_swap by exact isDirection_top; cbn;
        apply quot_large; lia
      | exact Hrgb ].
  rewrite (Simplified_findBorderUsingAvgHash_uniform fuel img g _
             isDirection_bottom Hu Hf Hne);
    [ | unfold dirExtent; cbn; lia
      | rewrite sweptMax_swap by exact isDirection_bottom; cbn;
        apply quot_large; lia
      | exact Hrgb ].
  cbn [bind]. f_equal.
  etransitivity; [ | apply (Rect_canon (image.Bounds img)); lia ].
  unfold_points. f_equal; lia.
Qed.

(** C4, as the code has it.  On a uniform raster no scan finds a border, and
    each scan falls back on the corner it started from: [Bounds] returns the
    rectangle of the whole raster, and so does [BoundsHash] when the raster
    has at least two lines in each axis and a line is no shorter than the
    hash is wide.  Nothing is cropped; the area is that of the raster. *)
Theorem uniform_raster_keeps_bounds (fuel : nat) (img : Image) (g : Z) :
  uniform img g ->
  (passFuel (image.Bounds img) <= fuel)%nat ->
  (X (Min (image.Bounds img)) <= X (Max (image.Bounds img)) ->
   Y (Min (image.Bounds img)) <= Y (Max (image.Bounds img)) ->
   Bounds fuel img = Ret (image.Bounds img)) /\
  (X (Min (image.Bounds img)) + 2 <= X (Max (image.Bounds img)) ->
   Y (Min (image.Bounds img)) + 2 <= Y (Max (image.Bounds img)) ->
   32 <= X (Max (image.Bounds img)) -> 32 <= Y (Max (image.Bounds img)) ->
   Extended.BoundsHash fuel img = Ret (image.Bounds img)) /\
  (X (Min (image.Bounds img)) + 2 <= X (Max (image.Bounds img)) ->
   Y (Min (image.Bounds img)) + 2 <= Y (Max (image.Bounds img)) ->
   64 <= X (Max (image.Bounds img)) -> 64 <= Y (Max (image.Bounds img)) ->
   RGBA64Image img = true ->
   Simplified.BoundsHash fuel img = Ret (image.Bounds img)).
Proof.
  intros Hu Hf. split; [ | split ].
  - intros Hx Hy.
    rewrite (Bounds_uniform fuel img g Hu Hf), Rect_canon by lia. reflexivity.
  - intros Hx Hy Hmx Hmy. now apply (Extended_BoundsHash_uniform fuel img g).
  - intros Hx Hy Hmx Hmy Hrgb.
    now apply (Simplified_BoundsHash_uniform fuel img g).
Qed.

Lemma white40_uniform : uniform white40 255.
Proof. intros p _. reflexivity. Qed.

(** Witness of C4: the white raster of 40 by 40 pixels keeps its 1600
    pixels. *)
Lemma uniform_raster_keeps_bounds_witness :
  Bounds 41 white40 = Ret (Rectangle_ (Pt 0 0) (Pt 40 40)) /\
  Extended.BoundsHash 41 white40 = Ret (Rectangle_ (Pt 0 0) (Pt 40 40)).
Proof.
  destruct (uniform_raster_keeps_bounds 41 white40 255 white40_uniform)
    as (Hb & He & _).
  - vm_compute. lia.
  - split.
    + apply Hb; vm_compute; discriminate.
    + apply He; vm_compute; discriminate.
Defined.

(** C4 as the specification words it fails on the code: for the white raster
    of 40 by 40 pixels both [Bounds] and [BoundsHash] return the rectangle of
    the whole raster, of area 1600, with every edge on the side its scan
    started from. *)
Lemma uniform_raster_area_counterexample :
  ~ (forall (fuel : nat) (img : Image) (g : Z) (r : Rectangle),
       uniform img g ->
       (passFuel (image.Bounds img) <= fuel)%nat ->
       Bounds fuel img = Ret r \/ Extended.BoundsHash fuel img = Ret r ->
       2 * area r <= area (image.Bounds img)) /\
  Bounds 41 white40 = Ret (image.Bounds white40) /\
  Extended.BoundsHash 41 white40 = Ret (image.Bounds white40) /\
  area (image.Bounds white40) = 1600.
Proof.
  assert (Hb : Bounds 41 white40 = Ret (image.Bounds white40))
    by (vm_compute; reflexivity).
  split; [ | split; [ exact Hb | split; vm_compute; reflexivity ] ].
  intros H.
  specialize (H 41%nat white40 255 (image.Bounds white40) white40_uniform
                ltac:(vm_compute; lia) (or_introl Hb)).
  vm_compute in H. apply H. reflexivity.
Qed.

(** ** Termination *)

Lemma findBorder_loop_returns (lineFuel : nat) (img : Image) (bounds : Rectangle)
    (dir scan : Point) :
  isDirection dir ->
  (forall p, exists b, scanLineForNonWhitespace lineFuel img p scan = Ret b) ->
  forall (fuel : nat) (dpt : Point),
    (1 <= fuel)%nat ->
    (In (Add dpt dir) bounds = true ->
     stepsToLeave bounds dir (Add dpt dir) < Z.of_nat fuel) ->
    exists p, findBorder_loop fuel lineFuel img bounds dir scan dpt = Ret p.
Proof.
  intros Hd Hline. induction fuel as [ | fuel IH ]; intros dpt Hf Hsteps.
  - lia.
  - cbn [findBorder_loop]. destruct (Hline dpt) as (b & ->). cbn [bind].
    destruct b; cbn [negb]; [ eauto | ].
    destruct (In (Add dpt dir) bounds) eqn:Hin; cbn [negb]; [ | eauto ].
    specialize (Hsteps eq_refl).
    pose proof (stepsToLeave_In _ _ _ Hd Hin) as Hge.
    apply IH; [ lia | ]. intros _.
    rewrite stepsToLeave_Add by assumption. lia.
Qed.

(** The naive scanner returns a point for every raster. *)
Lemma findBorder_returns (fuel : nat) (img : Image) (dir : Point) :
  isDirection dir ->
  (passFuel (image.Bounds img) <= fuel)%nat ->
  exists p, findBorder fuel img dir = Ret p.
Proof.
  intros Hd Hf. unfold findBorder. cbv zeta.
  destruct (findBorder_loop_returns fuel img (image.Bounds img) dir
              (Pt (Y dir) (X dir)) Hd) with
    (fuel := fuel) (dpt := pointInScanCorner (image.Bounds img) dir)
    as (p & ->).
  - intros p.
    destruct (passFuel_steps (image.Bounds img) (Pt (Y dir) (X dir)) p fuel
                (isDirection_swap _ Hd) Hf) as [Hf1 Hst].
    now apply scanLine_returns; [ apply isDirection_swap | | ].
  - unfold passFuel in Hf. lia.
  - intros Hin. pose proof (stepsToLeave_In _ _ _ Hd Hin).
    unfold passFuel in Hf. lia.
  - cbn [bind]. destruct (_ || _); eauto.
Qed.

Lemma Bounds_returns (fuel : nat) (img : Image) :
  (passFuel (image.Bounds img) <= fuel)%nat ->
  exists r, Bounds fuel img = Ret r.
Proof.
  intros Hf. unfold Bounds.
  destruct (findBorder_returns fuel img _ isDirection_left Hf) as (l & ->).
  destruct (findBorder_returns fuel img _ isDirection_right Hf) as (r & ->).
  destruct (findBorder_returns fuel img _ isDirection_top Hf) as (t & ->).
  destruct (findBorder_returns fuel img _ isDirection_bottom Hf) as (b & ->).
  cbn [bind]. eauto.
Qed.

Lemma Extended_findBorderUsingAvgHash_ends (fuel : nat) (img : Image) (dir : Point) :
  isDirection dir ->
  (passFuel (image.Bounds img) <= fuel)%nat ->
  Extended.findBorderUsingAvgHash fuel img dir <> OutOfFuel.
Proof.
  intros Hd Hf. rewrite Extended_findBorderUsingAvgHash_hashScan.
  apply hashScan_ends; [ exact Hd | exact Hf | ].
  intros p. unfold hashLineExtended.
  apply Extended_lineAverageHash_ends; [ now apply isDirection_swap | exact Hf ].
Qed.

Lemma Simplified_findBorderUsingAvgHash_ends (fuel : nat) (img : Image)
    (dir : Point) :
  isDirection dir ->
  (passFuel (image.Bounds img) <= fuel)%nat ->
  Simplified.findBorderUsingAvgHash fuel img dir <> OutOfFuel.
Proof.
  intros Hd Hf. rewrite Simplified_findBorderUsingAvgHash_hashScan.
  apply hashScan_ends; [ exact Hd | exact Hf | ].
  intros p. unfold hashLineSimplified.
  apply (Simplified_lineAverageHash_ends fuel img);
    [ now apply isDirection_swap | exact Hf | ].
  destruct (RGBA64Image img); auto.
Qed.

Lemma Extended_BoundsHash_ends (fuel : nat) (img : Image) :
  (passFuel (image.Bounds img) <= fuel)%nat ->
  Extended.BoundsHash fuel img <> OutOfFuel.
Proof.
  intros Hf. unfold Extended.BoundsHash.
  repeat (apply bind_not_OutOfFuel;
          [ apply Extended_findBorderUsingAvgHash_ends;
            [ unfold isDirection; tauto | exact Hf ]
          | intros ? _ ]).
  discriminate.
Qed.

Lemma Simplified_BoundsHash_ends (fuel : nat) (img : Image) :
  (passFuel (image.Bounds img) <= fuel)%nat ->
  Simplified.BoundsHash fuel img <> OutOfFuel.
Proof.
  intros Hf. unfold Simplified.BoundsHash.
  repeat (apply bind_not_OutOfFuel;
          [ apply Simplified_findBorderUsingAvgHash_ends;
            [ unfold isDirection; tauto | exact Hf ]
          | intros ? _ ]).
  discriminate.
Qed.

(** C9.  With [passFuel] iterations for each loop, one more than the larger
    extent of the raster, no loop of [Bounds], [BoundsHash] or [Auto] is cut
    short: [Bounds] returns a rectangle, and [BoundsHash] and [Auto] end, in
    a result or in a panic.  A directional scan so steps through the lines
    of the raster at most once, and a line scan through the pixels of its
    line at most once. *)
Theorem scans_terminate (fuel : nat) (img : Image) :
  (passFuel (image.Bounds img) <= fuel)%nat ->
  (exists r, Bounds fuel img = Ret r) /\
  Extended.BoundsHash fuel img <> OutOfFuel /\
  Extended.Auto fuel img <> OutOfFuel /\
  Simplified.BoundsHash fuel img <> OutOfFuel /\
  Simplified.Auto fuel img <> OutOfFuel.
Proof.
  intros Hf. split; [ now apply Bounds_returns | ].
  pose proof (Extended_BoundsHash_ends fuel img Hf) as He.
  pose proof (Simplified_BoundsHash_ends fuel img Hf) as Hs.
  repeat split; try assumption.
  - unfold Extended.Auto. apply bind_not_OutOfFuel; [ exact He | ].
    intros b _. destruct (Crop img b) as [ cropped [ e | ] ]; discriminate.
  - unfold Simplified.Auto. apply bind_not_OutOfFuel; [ exact Hs | ].
    intros b _. destruct (Crop img b) as [ cropped [ e | ] ]; discriminate.
Qed.

(** Witness of C9: the white raster of 40 by 40 pixels, 41 iterations. *)
Lemma scans_terminate_witness :
  (exists r, Bounds 41 white40 = Ret r) /\
  Extended.BoundsHash 41 white40 <> OutOfFuel /\
  Extended.Auto 41 white40 <> OutOfFuel /\
  Simplified.BoundsHash 41 white40 <> OutOfFuel /\
  Simplified.Auto 41 white40 <> OutOfFuel.
Proof.
  apply (scans_terminate 41 white40). vm_compute. lia.
Defined.

(** ** The window size *)

Lemma stepsToLeave_le_dirExtent (r : Rectangle) (v p : Point) :
  isDirection v -> In p r = true -> stepsToLeave r v p <= dirExtent r v.
Proof.
  intros Hv Hp. apply In_true_iff in Hp.
  four_dirs Hv; unfold_points; lia.
Qed.

Lemma dirExtent_swept (img : Image) (scan : Point) :
  dirExtent (image.Bounds img) scan = sweptMax img scan - sweptMin img scan.
Proof.
  unfold dirExtent, sweptMax, sweptMin. destruct (X scan =? 0); reflexivity.
Qed.

(** A bit set under a positive window size is the index of a window that
    fits in the extent of the raster along the swept axis. *)
Lemma windowsClosed_extent (img : Image) (pt scan : Point) (w h j : Z) :
  isDirection scan -> 0 < w -> 0 <= j ->
  windowsClosed w h (remaining (image.Bounds img) scan pt) ->
  Z.testbit h j = true ->
  (j + 1) * w <= sweptMax img scan - sweptMin img scan.
Proof.
  intros Hs Hw Hj Hc Hb. specialize (Hc j Hj Hb). unfold remaining in Hc.
  destruct (In pt (image.Bounds img)) eqn:Hin; [ | nia ].
  pose proof (stepsToLeave_le_dirExtent _ _ _ Hs Hin) as Hle.
  rewrite dirExtent_swept in Hle. lia.
Qed.

(** C10, as the code has it.  The window size is the [Max] coordinate of the
    bounds along the swept axis divided by the hash width, whatever the
    [Min] coordinate.  A bit of a line hash can be set only at the index of
    a window that fits in the extent [Max - Min] of the raster.  When [Min]
    exceeds the remainder of [Max] by the hash width, the windows are wider
    than the extent divided by the hash width, fewer windows than the hash
    has bits fit, and the highest bit of every line hash is zero. *)
Theorem lineAverageHash_window_bits (fuel : nat) (img : Image) (pt scan : Point) :
  isDirection scan ->
  (passFuel (image.Bounds img) <= fuel)%nat ->
  (32 <= sweptMax img scan ->
   exists a h,
     Extended.lineAverageHash fuel img pt scan = Ret (a, h) /\
     (forall j, 0 <= j -> Z.testbit a j = true \/ Z.testbit h j = true ->
        (j + 1) * (sweptMax img scan / 32) <= sweptMax img scan - sweptMin img scan) /\
     (sweptMax img scan mod 32 < sweptMin img scan ->
      sweptMax img scan - sweptMin img scan < 32 * (sweptMax img scan / 32) /\
      Z.testbit a 31 = false /\ Z.testbit h 31 = false)) /\
  (64 <= sweptMax img scan ->
   exists h,
     Simplified.lineAverageHash fuel (Some img) pt scan = Ret h /\
     (forall j, 0 <= j -> Z.testbit h j = true ->
        (j + 1) * (sweptMax img scan / 64) <= sweptMax img scan - sweptMin img scan) /\
     (sweptMax img scan mod 64 < sweptMin img scan ->
      sweptMax img scan - sweptMin img scan < 64 * (sweptMax img scan / 64) /\
      Z.testbit h 63 = false)).
Proof.
  intros Hs Hf. split.
  - intros Hmax.
    destruct (Extended_lineAverageHash_Ret fuel img pt scan Hs Hf)
      as (a & h & E & Ha & Hh & _); [ apply quot_large; lia | ].
    rewrite Z.quot_div_nonneg in Ha, Hh by lia.
    assert (Hw : 0 < sweptMax img scan / 32)
      by (apply Z.div_str_pos; lia).
    assert (Hbits : forall j, 0 <= j ->
              Z.testbit a j = true \/ Z.testbit h j = true ->
              (j + 1) * (sweptMax img scan / 32)
                <= sweptMax img scan - sweptMin img scan).
    { intros j Hj [ Hb | Hb ].
      - exact (windowsClosed_extent img pt scan _ a j Hs Hw Hj Ha Hb).
      - exact (windowsClosed_extent img pt scan _ h j Hs Hw Hj Hh Hb). }
    exists a, h. split; [ exact E | ]. split; [ exact Hbits | ].
    intros Hmin.
    pose proof (Z.div_mod (sweptMax img scan) 32 ltac:(lia)) as Hdm.
    split; [ lia | ].
    split.
    + destruct (Z.testbit a 31) eqn:Hb; [ | reflexivity ].
      specialize (Hbits 31 ltac:(lia) (or_introl Hb)). lia.
    + destruct (Z.testbit h 31) eqn:Hb; [ | reflexivity ].
      specialize (Hbits 31 ltac:(lia) (or_intror Hb)). lia.
  - intros Hmax.
    destruct (Simplified_lineAverageHash_Ret fuel img pt scan Hs Hf)
      as (h & E & Hh & _); [ apply quot_large; lia | ].
    rewrite Z.quot_div_nonneg in Hh by lia.
    assert (Hw : 0 < sweptMax img scan / 64)
      by (apply Z.div_str_pos; lia).
    assert (Hbits : forall j, 0 <= j -> Z.testbit h j = true ->
              (j + 1) * (sweptMax img scan / 64)
                <= sweptMax img scan - sweptMin img scan).
    { intros j Hj Hb.
      exact (windowsClosed_extent img pt scan _ h j Hs Hw Hj Hh Hb). }
    exists h. split; [ exact E | ]. split; [ exact Hbits | ].
    intros Hmin.
    pose proof (Z.div_mod (sweptMax img scan) 64 ltac:(lia)) as Hdm.
    split; [ lia | ].
    destruct (Z.testbit h 63) eqn:Hb; [ | reflexivity ].
    specialize (Hbits 63 ltac:(lia) Hb). lia.
Qed.

(** Witness of C10: the rows of [view80] run from 40 to 80, so the windows
    are 2 pixels wide in the extended profile and 1 pixel wide in the
    simplified one, and 20 and 40 of them fit in a column. *)
Lemma lineAverageHash_window_bits_witness :
  (exists a h,
     Extended.lineAverageHash 41 view80 (Pt 0 40) (Pt 0 1) = Ret (a, h) /\
     Z.testbit a 31 = false /\ Z.testbit h 31 = false) /\
  (exists h,
     Simplified.lineAverageHash 41 (Some view80) (Pt 0 40) (Pt 0 1) = Ret h /\
     Z.testbit h 63 = false).
Proof.
  destruct (lineAverageHash_window_bits 41 view80 (Pt 0 40) (Pt 0 1)
              isDirection_top ltac:(vm_compute; lia)) as [He Hs].
  split.
  - destruct He as (a & h & E & _ & Hhigh); [ vm_compute; discriminate | ].
    destruct Hhigh as (_ & Ha & Hh); [ vm_compute; reflexivity | ].
    exists a, h. auto.
  - destruct Hs as (h & E & _ & Hhigh); [ vm_compute; discriminate | ].
    destruct Hhigh as (_ & Hh); [ vm_compute; reflexivity | ].
    exists h. auto.
Defined.

(** C10 as the specification words it fails on the code: the rows of
    [view32] start at y = 1 and the window is as wide as the extent divided
    by the hash width, 1 pixel; all 32 windows of a column end and bit 31 of
    its base hash is set.  The same holds for [view64] and bit 63 in the
    simplified profile. *)
Lemma lineAverageHash_high_bits_counterexample :
  ~ (forall (fuel : nat) (img : Image) (pt scan : Point) (a h : Z),
       isDirection scan ->
       (passFuel (image.Bounds img) <= fuel)%nat ->
       0 < sweptMin img scan ->
       Extended.lineAverageHash fuel img pt scan = Ret (a, h) ->
       (sweptMax img scan - sweptMin img scan) / 32 < Z.quot (sweptMax img scan) 32 /\
       Z.testbit a 31 = false) /\
  ~ (forall (fuel : nat) (img : Image) (pt scan : Point) (h : Z),
       isDirection scan ->
       (passFuel (image.Bounds img) <= fuel)%nat ->
       0 < sweptMin img scan ->
       Simplified.lineAverageHash fuel (Some img) pt scan = Ret h ->
       (sweptMax img scan - sweptMin img scan) / 64 < Z.quot (sweptMax img scan) 64 /\
       Z.testbit h 63 = false).
Proof.
  split.
  - intros H.
    destruct (H 33%nat view32 (Pt 0 1) (Pt 0 1) 4294967294 0 isDirection_top)
      as [Hw Hb]; try (vm_compute; reflexivity).
    vm_compute in Hb. discriminate Hb.
  - intros H.
    destruct (H 65%nat view64 (Pt 0 1) (Pt 0 1) 18446744073709551614
                isDirection_top)
      as [Hw Hb]; try (vm_compute; reflexivity).
    vm_compute in Hb. discriminate Hb.
Qed.

(** ** Panics of the hash-based scan *)

(** A window size of zero stops the extended line hasher at the first
    pixel. *)
Lemma Extended_lineAverageHash_zero_window (fuel : nat) (img : Image)
    (pt scan : Point) :
  (1 <= fuel)%nat ->
  In pt (image.Bounds img) = true ->
  Z.quot (sweptMax img scan) 32 = 0 ->
  Extended.lineAverageHash fuel img pt scan = Panic DivideByZero.
Proof.
  intros Hf Hin Hw. unfold Extended.lineAverageHash. cbv zeta.
  fold (sweptMax img scan). rewrite Hw.
  destruct fuel as [ | fuel ]; [ lia | ].
  cbn [Extended.lineAverageHash_loop]. rewrite Hin. reflexivity.
Qed.

Lemma Simplified_lineAverageHash_zero_window (fuel : nat) (img : Image)
    (pt scan : Point) :
  (1 <= fuel)%nat ->
  In pt (image.Bounds img) = true ->
  Z.quot (sweptMax img scan) 64 = 0 ->
  Simplified.lineAverageHash fuel (Some img) pt scan = Panic DivideByZero.
Proof.
  intros Hf Hin Hw. unfold Simplified.lineAverageHash. cbv zeta.
  fold (sweptMax img scan). rewrite Hw.
  destruct fuel as [ | fuel ]; [ lia | ].
  cbn [Simplified.lineAverageHash_loop]. rewrite Hin. reflexivity.
Qed.

(** A raster that starts at the origin and is shorter along the swept axis
    than the hash is wide has a window size of zero. *)
Lemma short_line_zero_window (v width : Z) :
  0 <= v < width -> Z.quot v width = 0.
Proof. intros Hv. apply Z.quot_small. exact Hv. Qed.

(** In the simplified profile a raster that is no [image.RGBA64Image] stops
    the scan at its first line. *)
Lemma Simplified_findBorderUsingAvgHash_nil (fuel : nat) (img : Image)
    (dir : Point) :
  RGBA64Image img = false ->
  Simplified.findBorderUsingAvgHash fuel img dir = Panic NilDereference.
Proof.
  intros Hrgb. unfold Simplified.findBorderUsingAvgHash. cbv zeta.
  rewrite Hrgb. reflexivity.
Qed.

(** C1 on the code: the line hasher does not guard its window size.  On the
    white raster of 10 by 10 pixels the window size is 10/32 = 0 (10/64 = 0
    in the simplified profile) and the first pixel of a line stops the
    hasher with a division by zero. *)
Theorem lineAverageHash_short_line_panics :
  Extended.lineAverageHash 11 white10 (Pt 0 0) (Pt 0 1) = Panic DivideByZero /\
  Simplified.lineAverageHash 11 (Some white10) (Pt 0 0) (Pt 0 1)
    = Panic DivideByZero.
Proof.
  split.
  - apply Extended_lineAverageHash_zero_window;
      [ lia | reflexivity | apply short_line_zero_window; vm_compute; split; congruence ].
  - apply Simplified_lineAverageHash_zero_window;
      [ lia | reflexivity | apply short_line_zero_window; vm_compute; split; congruence ].
Qed.

(** C8 on the code: the hash-based operations are not total.  On the white
    raster of 10 by 10 pixels [findBorderUsingAvgHash] and [BoundsHash] stop
    with a division by zero, and in the simplified profile they stop on a
    nil interface for a raster that is no [image.RGBA64Image].  [Bounds] on
    the same rasters returns. *)
Theorem BoundsHash_panics :
  Extended.findBorderUsingAvgHash 11 white10 (Pt 1 0) = Panic DivideByZero /\
  Extended.BoundsHash 11 white10 = Panic DivideByZero /\
  Simplified.BoundsHash 11 white10 = Panic DivideByZero /\
  Simplified.findBorderUsingAvgHash 71 plain70 (Pt 1 0) = Panic NilDereference /\
  Simplified.BoundsHash 71 plain70 = Panic NilDereference /\
  Bounds 11 white10 = Ret (image.Bounds white10) /\
  Bounds 71 plain70 = Ret (image.Bounds plain70).
Proof.
  repeat split; vm_compute; reflexivity.
Qed.

(** * Further properties of the code *)

(** ** The line scan *)

Lemma scanLine_true_prefix (fuel : nat) (img : Image) (pt scan : Point) :
  scanLineForNonWhitespace fuel img pt scan = Ret true ->
  exists j : nat,
    (forall i : nat, (i <= j)%nat ->
       In (Add pt (Mul scan (Z.of_nat i))) (image.Bounds img) = true) /\
    grayAt img (Add pt (Mul scan (Z.of_nat j))) <= grayDarknessLimit.
Proof.
  revert pt. induction fuel as [ | fuel IH ]; intros pt H.
  - discriminate.
  - cbn [scanLineForNonWhitespace] in H.
    destruct (In pt (image.Bounds img)) eqn:Hin; [ | discriminate ].
    destruct (Z.leb_spec (grayAt img pt) grayDarknessLimit) as [Hg | Hg].
    + exists 0%nat. split.
      * intros i Hi. assert (i = 0%nat) as -> by lia.
        rewrite Add_Mul_0. exact Hin.
      * rewrite Add_Mul_0. exact Hg.
    + destruct (IH _ H) as (j & Hj & Hd). exists (S j). split.
      * intros [ | i ] Hi; [ rewrite Add_Mul_0; exact Hin | ].
        rewrite Add_Mul_succ. apply Hj. lia.
      * rewrite Add_Mul_succ. exact Hd.
Qed.

(** X1.  [scanLineForNonWhitespace] along a unit vector returns [true] exactly when
    some pixel it reaches before it leaves the raster has luminance at most
    128.  It reads the pixels from [pt] on only while they lie in the raster:
    started outside the raster it returns [false] at once. *)
Theorem scanLineForNonWhitespace_iff (fuel : nat) (img : Image) (pt scan : Point) :
  isDirection scan ->
  (passFuel (image.Bounds img) <= fuel)%nat ->
  exists b : bool,
    scanLineForNonWhitespace fuel img pt scan = Ret b /\
    (b = true <->
     exists j : nat,
       (forall i : nat, (i <= j)%nat ->
          In (Add pt (Mul scan (Z.of_nat i))) (image.Bounds img) = true) /\
       grayAt img (Add pt (Mul scan (Z.of_nat j))) <= grayDarknessLimit) /\
    (In pt (image.Bounds img) = false -> b = false).
Proof.
  intros Hs Hf.
  destruct (passFuel_steps (image.Bounds img) scan pt fuel Hs Hf) as [Hf1 Hst].
  destruct (scanLine_returns fuel img pt scan Hs Hf1 Hst) as (b & Hb).
  exists b. split; [ exact Hb | ]. split; [ split | ].
  - intros ->. exact (scanLine_true_prefix _ _ _ _ Hb).
  - intros (j & Hj & Hd). destruct b; [ reflexivity | ].
    pose proof (scanLine_false _ _ _ _ Hb j Hj). lia.
  - intros Hout. destruct fuel as [ | fuel ]; [ lia | ].
    cbn [scanLineForNonWhitespace] in Hb. rewrite Hout in Hb. congruence.
Qed.

(** Witness: the middle column of [dot3], scanned downward from its top. *)
Lemma scanLineForNonWhitespace_iff_witness :
  exists b : bool,
    scanLineForNonWhitespace 4 dot3 (Pt 1 0) (Pt 0 1) = Ret b /\
    (b = true <->
     exists j : nat,
       (forall i : nat, (i <= j)%nat ->
          In (Add (Pt 1 0) (Mul (Pt 0 1) (Z.of_nat i))) (image.Bounds dot3) = true) /\
       grayAt dot3 (Add (Pt 1 0) (Mul (Pt 0 1) (Z.of_nat j))) <= grayDarknessLimit) /\
    (In (Pt 1 0) (image.Bounds dot3) = false -> b = false).
Proof.
  apply (scanLineForNonWhitespace_iff 4 dot3 (Pt 1 0) (Pt 0 1) isDirection_top).
  vm_compute. lia.
Defined.

(** ** Setting a bit *)

(** X2.  [setBit32] panics on a negative position only.  Otherwise it sets the
    bit at [pos] when [pos] is below 32, changes no other bit, and returns
    [n] as it is when [pos] is 32 or more; the result is a [uint32] again.
    [setBit64] does the same with 64. *)
Theorem setBit_bits (n pos : Z) :
  0 <= pos ->
  (0 <= n < 2 ^ 32 ->
   exists m, Extended.setBit32 n pos = Ret m /\ 0 <= m < 2 ^ 32 /\
     (forall j, 0 <= j -> Z.testbit m j = Z.testbit n j || ((j =? pos) && (pos <? 32))) /\
     (32 <= pos -> m = n)) /\
  (0 <= n < 2 ^ 64 ->
   exists m, Simplified.setBit64 n pos = Ret m /\ 0 <= m < 2 ^ 64 /\
     (forall j, 0 <= j -> Z.testbit m j = Z.testbit n j || ((j =? pos) && (pos <? 64))) /\
     (64 <= pos -> m = n)).
Proof.
  intros Hpos.
  assert (Hbit : forall width j, 0 <= width -> 0 <= j ->
            Z.testbit (Z.lor n (Z.shiftl 1 pos mod 2 ^ width)) j =
            Z.testbit n j || ((j =? pos) && (pos <? width))).
  { intros width j Hw Hj.
    rewrite Z.lor_spec, Z.testbit_mod_pow2, Z.shiftl_1_l, Z.pow2_bits_eqb by lia.
    f_equal. destruct (Z.eqb_spec pos j) as [ -> | Hne ].
    - rewrite Z.eqb_refl, andb_true_r. reflexivity.
    - rewrite andb_false_r. destruct (Z.eqb_spec j pos); [ lia | reflexivity ]. }
  assert (Hhigh : forall width, 0 <= width -> width <= pos ->
            Z.lor n (Z.shiftl 1 pos mod 2 ^ width) = n).
  { intros width Hw Hle. apply Z.bits_inj'. intros j Hj.
    rewrite (Hbit width j Hw Hj).
    destruct (Z.ltb_spec pos width); [ lia | ].
    rewrite andb_false_r, orb_false_r. reflexivity. }
  split; intros Hn.
  - unfold Extended.setBit32, uint32.
    destruct (Z.ltb_spec pos 0); [ lia | ].
    eexists. split; [ reflexivity | ].
    split; [ apply setBit_range; lia | ].
    split; [ intros j Hj; apply Hbit; lia | apply Hhigh; lia ].
  - unfold Simplified.setBit64, uint64.
    destruct (Z.ltb_spec pos 0); [ lia | ].
    eexists. split; [ reflexivity | ].
    split; [ apply setBit_range; lia | ].
    split; [ intros j Hj; apply Hbit; lia | apply Hhigh; lia ].
Qed.

(** Witness: bit 3 set in 1, and bit 40, which a [uint32] does not hold. *)
Lemma setBit_bits_witness :
  (exists m, Extended.setBit32 1 3 = Ret m /\ 0 <= m < 2 ^ 32 /\
     (forall j, 0 <= j -> Z.testbit m j = Z.testbit 1 j || ((j =? 3) && (3 <? 32))) /\
     (32 <= 3 -> m = 1)) /\
  (exists m, Extended.setBit32 1 40 = Ret m /\ 0 <= m < 2 ^ 32 /\
     (forall j, 0 <= j -> Z.testbit m j = Z.testbit 1 j || ((j =? 40) && (40 <? 32))) /\
     (32 <= 40 -> m = 1)).
Proof.
  split.
  - apply (setBit_bits 1 3); lia.
  - apply (setBit_bits 1 40); lia.
Defined.

(** ** The comparator *)

Lemma hammingDistance_sym (width : nat) (a b : Z) :
  hammingDistance width a b = hammingDistance width b a.
Proof.
  induction width as [ | w IH ]; cbn [hammingDistance]; [ reflexivity | ].
  rewrite IH.
  destruct (Z.testbit a (Z.of_nat w)), (Z.testbit b (Z.of_nat w)); reflexivity.
Qed.

(** X3.  Two lines with the same hashes always match, so the scan never stops
    between them.  The test of the simplified profile does not depend on which
    of the two lines is the previous one; that of the extended profile, whose
    threshold depends on the previous line alone, does not either when both
    base hashes are saturated or neither is, and does in general: after an
    all-dark line (hash 0) one bit of difference ends the margin, while the
    same two lines in the other order match. *)
Theorem comparator_order :
  (forall a h, Extended.hashesMatch a h a h = true) /\
  (forall h, Simplified.hashesDiffer h h = false) /\
  (forall prev hash,
     Simplified.hashesDiffer prev hash = Simplified.hashesDiffer hash prev) /\
  (forall prevAvg prevHighContrast avgHash highContrastHash,
     (prevAvg = 0 \/ prevAvg = 4294967295 <-> avgHash = 0 \/ avgHash = 4294967295) ->
     Extended.hashesMatch prevAvg prevHighContrast avgHash highContrastHash =
     Extended.hashesMatch avgHash highContrastHash prevAvg prevHighContrast) /\
  Extended.hashesMatch 0 0 1 0 = false /\
  Extended.hashesMatch 1 0 0 0 = true.
Proof.
  split; [ exact hashesMatch_refl | ].
  split; [ exact hashesDiffer_refl | ].
  split; [ | split; [ | split; reflexivity ] ].
  - intros prev hash. unfold Simplified.hashesDiffer, bits.OnesCount64.
    rewrite !OnesCount_lxor, hammingDistance_sym. reflexivity.
  - intros pa ph a h Hsat. unfold Extended.hashesMatch, bits.OnesCount32.
    rewrite !OnesCount_lxor.
    rewrite (hammingDistance_sym 32 pa a), (hammingDistance_sym 32 ph h).
    rewrite !Z.lxor_0_r.
    assert (E : (Z.lxor pa 4294967295 =? 0) || (pa =? 0) =
                (Z.lxor a 4294967295 =? 0) || (a =? 0)).
    { apply Bool.eq_true_iff_eq.
      rewrite !orb_true_iff, !Z.eqb_eq, !Z.lxor_eq_0_iff. tauto. }
    rewrite E. reflexivity.
Qed.

(** ** Rasters without a pixel *)

Lemma empty_In (r : Rectangle) (p : Point) : ~ nonEmpty r -> In p r = false.
Proof.
  intros Hne. apply In_false_iff. unfold nonEmpty in Hne. lia.
Qed.

Lemma findBorder_empty (fuel : nat) (img : Image) (dir : Point) :
  ~ nonEmpty (image.Bounds img) -> (1 <= fuel)%nat ->
  findBorder fuel img dir =
    Ret (if negative dir
         then Sub (pointInScanCorner (image.Bounds img) dir) dir
         else pointInScanCorner (image.Bounds img) dir).
Proof.
  intros Hne Hf. destruct fuel as [ | fuel ]; [ lia | ].
  unfold findBorder. cbv zeta.
  cbn [findBorder_loop scanLineForNonWhitespace].
  rewrite !(empty_In _ _ Hne). cbn [bind negb]. fold (negative dir).
  destruct (negative dir); reflexivity.
Qed.

Lemma Extended_findBorderUsingAvgHash_empty (fuel : nat) (img : Image)
    (dir : Point) :
  ~ nonEmpty (image.Bounds img) -> (1 <= fuel)%nat ->
  Extended.findBorderUsingAvgHash fuel img dir =
    Ret (if negative dir
         then Sub (pointInScanCorner (image.Bounds img) dir) dir
         else pointInScanCorner (image.Bounds img) dir).
Proof.
  intros Hne Hf. destruct fuel as [ | fuel ]; [ lia | ].
  unfold Extended.findBorderUsingAvgHash. cbv zeta.
  cbn [Extended.findBorderUsingAvgHash_loop].
  unfold Extended.lineAverageHash. cbv zeta.
  cbn [Extended.lineAverageHash_loop].
  rewrite !(empty_In _ _ Hne).
  cbn [bind Extended.avgHash Extended.highContrastHash].
  rewrite hashesMatch_refl. cbn [negb]. fold (negative dir).
  destruct (negative dir); reflexivity.
Qed.

Lemma Simplified_findBorderUsingAvgHash_empty (fuel : nat) (img : Image)
    (dir : Point) :
  ~ nonEmpty (image.Bounds img) -> (1 <= fuel)%nat ->
  RGBA64Image img = true ->
  Simplified.findBorderUsingAvgHash fuel img dir =
    Ret (if negative dir
         then Sub (pointInScanCorner (image.Bounds img) dir) dir
         else pointInScanCorner (image.Bounds img) dir).
Proof.
  intros Hne Hf Hrgb. destruct fuel as [ | fuel ]; [ lia | ].
  unfold Simplified.findBorderUsingAvgHash. cbv zeta. rewrite Hrgb.
  cbn [Simplified.findBorderUsingAvgHash_loop].
  unfold Simplified.lineAverageHash. cbv zeta.
  cbn [Simplified.lineAverageHash_loop].
  rewrite !(empty_In _ _ Hne).
  cbn [bind Simplified.hash].
  rewrite hashesDiffer_refl. cbn [negb]. fold (negative dir).
  destruct (negative dir); reflexivity.
Qed.

(** X4.  A raster without a pixel (zero or negative width or height) is handled
    without reading a pixel and without a panic, whatever its window size:
    [Bounds] and [BoundsHash] return its own bounds, put in order by
    [image.Rect]. *)
Theorem empty_raster_bounds (fuel : nat) (img : Image) :
  ~ nonEmpty (image.Bounds img) -> (1 <= fuel)%nat ->
  Bounds fuel img =
    Ret (Rect (X (Min (image.Bounds img))) (Y (Min (image.Bounds img)))
              (X (Max (image.Bounds img))) (Y (Max (image.Bounds img)))) /\
  Extended.BoundsHash fuel img =
    Ret (Rect (X (Min (image.Bounds img))) (Y (Min (image.Bounds img)))
              (X (Max (image.Bounds img))) (Y (Max (image.Bounds img)))) /\
  (RGBA64Image img = true ->
   Simplified.BoundsHash fuel img =
     Ret (Rect (X (Min (image.Bounds img))) (Y (Min (image.Bounds img)))
               (X (Max (image.Bounds img))) (Y (Max (image.Bounds img))))).
Proof.
  intros Hne Hf. split; [ | split ].
  - unfold Bounds. rewrite !(findBorder_empty fuel img _ Hne Hf).
    cbn [bind]. unfold_points. do 2 f_equal; lia.
  - unfold Extended.BoundsHash.
    rewrite !(Extended_findBorderUsingAvgHash_empty fuel img _ Hne Hf).
    cbn [bind]. unfold_points. do 2 f_equal; lia.
  - intros Hrgb. unfold Simplified.BoundsHash.
    rewrite !(Simplified_findBorderUsingAvgHash_empty fuel img _ Hne Hf Hrgb).
    cbn [bind]. unfold_points. do 2 f_equal; lia.
Qed.

(** Witness: [noColumns], whose bounds (5,5)-(5,9) hold no point. *)
Lemma empty_raster_bounds_witness :
  Bounds 1 noColumns = Ret (Rectangle_ (Pt 5 5) (Pt 5 9)) /\
  Extended.BoundsHash 1 noColumns = Ret (Rectangle_ (Pt 5 5) (Pt 5 9)).
Proof.
  destruct (empty_raster_bounds 1 noColumns) as (Hb & He & _).
  - unfold nonEmpty. cbn. lia.
  - lia.
  - split; [ exact Hb | exact He ].
Defined.

(** ** The rectangle returned lies in the raster *)

Lemma findBorder_loop_result (lineFuel : nat) (img : Image) (bounds : Rectangle)
    (dir scan : Point) (fuel : nat) :
  forall dpt p,
    findBorder_loop fuel lineFuel img bounds dir scan dpt = Ret p ->
    p = dpt \/ In p bounds = true \/ p = pointInScanCorner bounds dir.
Proof.
  induction fuel as [ | fuel IH ]; intros dpt p H; [ discriminate | ].
  cbn [findBorder_loop] in H. apply bind_Ret_inv in H.
  destruct H as (b & _ & H). destruct b; cbn [negb] in H.
  - left. congruence.
  - destruct (In (Add dpt dir) bounds) eqn:Hin; cbn [negb] in H.
    + destruct (IH _ _ H) as [ -> | [ Hp | Hp ] ]; auto.
    + right. right. congruence.
Qed.

Lemma hashScan_loop_result (H : Type) (hashLine : Point -> outcome H)
    (differ : H -> H -> bool) (bounds : Rectangle) (dir : Point) (fuel : nat) :
  forall dpt prev p,
    hashScan_loop hashLine differ fuel bounds dir dpt prev = Ret p ->
    p = dpt \/ In p bounds = true \/ p = pointInScanCorner bounds dir.
Proof.
  induction fuel as [ | fuel IH ]; intros dpt prev p Hr; [ discriminate | ].
  cbn [hashScan_loop] in Hr. apply bind_Ret_inv in Hr.
  destruct Hr as (h & _ & Hr). destruct (differ prev h).
  - left. congruence.
  - destruct (In (Add dpt dir) bounds) eqn:Hin; cbn [negb] in Hr.
    + destruct (IH _ _ _ Hr) as [ -> | [ Hp | Hp ] ]; auto.
    + right. right. congruence.
Qed.

(** The edge a scan returns lies between the two sides of the raster. *)
Lemma findBorder_within (fuel : nat) (img : Image) (dir p : Point) :
  isDirection dir -> nonEmpty (image.Bounds img) ->
  findBorder fuel img dir = Ret p ->
  X (Min (image.Bounds img)) <= X p <= X (Max (image.Bounds img)) /\
  Y (Min (image.Bounds img)) <= Y p <= Y (Max (image.Bounds img)).
Proof.
  intros Hd Hne Hr. unfold findBorder in Hr. cbv zeta in Hr.
  apply bind_Ret_inv in Hr. destruct Hr as (q & Hq & Hr).
  apply findBorder_loop_result in Hq. fold (negative dir) in Hr.
  unfold nonEmpty in Hne.
  assert (Hq' : In q (image.Bounds img) = true
                \/ q = pointInScanCorner (image.Bounds img) dir) by tauto.
  clear Hq. rewrite In_true_iff in Hq'.
  four_dirs Hd; unfold_points; injection Hr as <-;
    destruct Hq' as [ Hq | -> ]; cbn [X Y]; lia.
Qed.

Lemma hashScan_within (H : Type) (hashLine : Point -> outcome H)
    (differ : H -> H -> bool) (fuel : nat) (img : Image) (dir p : Point) :
  isDirection dir -> nonEmpty (image.Bounds img) ->
  hashScan hashLine differ fuel (image.Bounds img) dir = Ret p ->
  X (Min (image.Bounds img)) <= X p <= X (Max (image.Bounds img)) /\
  Y (Min (image.Bounds img)) <= Y p <= Y (Max (image.Bounds img)).
Proof.
  intros Hd Hne Hr. unfold hashScan in Hr. cbv zeta in Hr.
  apply bind_Ret_inv in Hr. destruct Hr as (h0 & _ & Hr).
  apply bind_Ret_inv in Hr. destruct Hr as (q & Hq & Hr).
  apply hashScan_loop_result in Hq.
  unfold nonEmpty in Hne. rewrite In_true_iff in Hq.
  four_dirs Hd; unfold_points; injection Hr as <-;
    destruct Hq as [ -> | [ Hq | -> ] ]; cbn [X Y]; lia.
Qed.

Lemma Rect_inside (b : Rectangle) (x0 y0 x1 y1 : Z) :
  X (Min b) <= x0 <= X (Max b) -> X (Min b) <= x1 <= X (Max b) ->
  Y (Min b) <= y0 <= Y (Max b) -> Y (Min b) <= y1 <= Y (Max b) ->
  inside (Rect x0 y0 x1 y1) b.
Proof.
  intros Hx0 Hx1 Hy0 Hy1. unfold Rect, inside.
  destruct (Z.ltb_spec x1 x0); destruct (Z.ltb_spec y1 y0);
    cbn [X Y Min Max]; lia.
Qed.

Lemma bounds_inside_cases (fuel : nat) (img : Image) (r : Rectangle) :
  nonEmpty (image.Bounds img) ->
  (Bounds fuel img = Ret r -> inside r (image.Bounds img)) /\
  (Extended.BoundsHash fuel img = Ret r -> inside r (image.Bounds img)) /\
  (Simplified.BoundsHash fuel img = Ret r -> inside r (image.Bounds img)).
Proof.
  intros Hne. split; [ | split ]; intros Hr.
  - unfold Bounds in Hr.
    apply bind_Ret_inv in Hr. destruct Hr as (l & Hl & Hr).
    apply bind_Ret_inv in Hr. destruct Hr as (rt & Hrt & Hr).
    apply bind_Ret_inv in Hr. destruct Hr as (t & Ht & Hr).
    apply bind_Ret_inv in Hr. destruct Hr as (bt & Hbt & Hr).
    injection Hr as <-.
    apply (findBorder_within _ _ _ _ isDirection_left Hne) in Hl.
    apply (findBorder_within _ _ _ _ isDirection_right Hne) in Hrt.
    apply (findBorder_within _ _ _ _ isDirection_top Hne) in Ht.
    apply (findBorder_within _ _ _ _ isDirection_bottom Hne) in Hbt.
    apply Rect_inside; tauto.
  - unfold Extended.BoundsHash in Hr.
    rewrite !Extended_findBorderUsingAvgHash_hashScan in Hr.
    apply bind_Ret_inv in Hr. destruct Hr as (l & Hl & Hr).
    apply bind_Ret_inv in Hr. destruct Hr as (rt & Hrt & Hr).
    apply bind_Ret_inv in Hr. destruct Hr as (t & Ht & Hr).
    apply bind_Ret_inv in Hr. destruct Hr as (bt & Hbt & Hr).
    injection Hr as <-.
    apply (hashScan_within _ _ _ _ _ _ _ isDirection_left Hne) in Hl.
    apply (hashScan_within _ _ _ _ _ _ _ isDirection_right Hne) in Hrt.
    apply (hashScan_within _ _ _ _ _ _ _ isDirection_top Hne) in Ht.
    apply (hashScan_within _ _ _ _ _ _ _ isDirection_bottom Hne) in Hbt.
    apply Rect_inside; tauto.
  - unfold Simplified.BoundsHash in Hr.
    rewrite !Simplified_findBorderUsingAvgHash_hashScan in Hr.
    apply bind_Ret_inv in Hr. destruct Hr as (l & Hl & Hr).
    apply bind_Ret_inv in Hr. destruct Hr as (rt & Hrt & Hr).
    apply bind_Ret_inv in Hr. destruct Hr as (t & Ht & Hr).
    apply bind_Ret_inv in Hr. destruct Hr as (bt & Hbt & Hr).
    injection Hr as <-.
    apply (hashScan_within _ _ _ _ _ _ _ isDirection_left Hne) in Hl.
    apply (hashScan_within _ _ _ _ _ _ _ isDirection_right Hne) in Hrt.
    apply (hashScan_within _ _ _ _ _ _ _ isDirection_top Hne) in Ht.
    apply (hashScan_within _ _ _ _ _ _ _ isDirection_bottom Hne) in Hbt.
    apply Rect_inside; tauto.
Qed.

(** X5.  Whenever [Bounds] or [BoundsHash] returns a rectangle for a raster that
    holds a pixel, the rectangle is well formed (its minimum is not beyond
    its maximum in either axis) and lies within the bounds of the raster. *)
Theorem bounds_inside_raster (fuel : nat) (img : Image) (r : Rectangle) :
  nonEmpty (image.Bounds img) ->
  (Bounds fuel img = Ret r -> inside r (image.Bounds img)) /\
  (Extended.BoundsHash fuel img = Ret r -> inside r (image.Bounds img)) /\
  (Simplified.BoundsHash fuel img = Ret r -> inside r (image.Bounds img)).
Proof. exact (bounds_inside_cases fuel img r). Qed.

(** Witness: the rectangle (2,0)-(3,32) that [Bounds] returns for
    [whiteThenBlack]. *)
Lemma bounds_inside_raster_witness :
  inside (Rectangle_ (Pt 2 0) (Pt 3 32)) (image.Bounds whiteThenBlack).
Proof.
  destruct (bounds_inside_raster 33 whiteThenBlack (Rectangle_ (Pt 2 0) (Pt 3 32)))
    as (Hb & _ & _).
  - unfold nonEmpty. cbn. lia.
  - apply Hb. vm_compute. reflexivity.
Defined.

(** ** When the hash-based scan panics *)

Lemma hashScan_loop_returns (H : Type) (hashLine : Point -> outcome H)
    (differ : H -> H -> bool) (bounds : Rectangle) (dir : Point) (fuel : nat) :
  isDirection dir ->
  (forall p, exists h, hashLine p = Ret h) ->
  forall (dpt : Point) (prev : H),
    (1 <= fuel)%nat ->
    (In (Add dpt dir) bounds = true ->
     stepsToLeave bounds dir (Add dpt dir) < Z.of_nat fuel) ->
    exists p, hashScan_loop hashLine differ fuel bounds dir dpt prev = Ret p.
Proof.
  intros Hd Hline. induction fuel as [ | fuel IH ]; intros dpt prev Hf Hsteps.
  - lia.
  - cbn [hashScan_loop]. destruct (Hline dpt) as (h & ->). cbn [bind].
    destruct (differ prev h); [ eauto | ].
    destruct (In (Add dpt dir) bounds) eqn:Hin; cbn [negb]; [ | eauto ].
    specialize (Hsteps eq_refl).
    pose proof (stepsToLeave_In _ _ _ Hd Hin) as Hge.
    apply IH; [ lia | ]. intros _.
    rewrite stepsToLeave_Add by assumption. lia.
Qed.

Lemma hashScan_returns (H : Type) (hashLine : Point -> outcome H)
    (differ : H -> H -> bool) (fuel : nat) (img : Image) (dir : Point) :
  isDirection dir ->
  (passFuel (image.Bounds img) <= fuel)%nat ->
  (forall p, exists h, hashLine p = Ret h) ->
  exists p, hashScan hashLine differ fuel (image.Bounds img) dir = Ret p.
Proof.
  intros Hd Hf Hline. unfold hashScan. cbv zeta.
  destruct (Hline (pointInScanCorner (image.Bounds img) dir)) as (h0 & ->).
  cbn [bind].
  destruct (passFuel_steps (image.Bounds img) dir
              (Add (Add (pointInScanCorner (image.Bounds img) dir) dir) dir)
              fuel Hd Hf) as [Hf1 Hst].
  destruct (hashScan_loop_returns H hashLine differ (image.Bounds img) dir fuel
              Hd Hline (Add (pointInScanCorner (image.Bounds img) dir) dir) h0
              Hf1 Hst) as (p & ->).
  cbn [bind]. destruct (negative dir); eauto.
Qed.

Lemma corner_In (img : Image) (dir : Point) :
  isDirection dir -> nonEmpty (image.Bounds img) ->
  In (pointInScanCorner (image.Bounds img) dir) (image.Bounds img) = true.
Proof.
  intros Hd Hne. rewrite <- line_0. apply (line_In_iff img dir 0 Hd).
  split; [ exact Hne | ]. pose proof (nonEmpty_dirExtent _ dir Hne). lia.
Qed.

Lemma quot_zero_iff (v width : Z) :
  0 < width -> (Z.quot v width = 0 <-> Z.abs v < width).
Proof.
  intros Hw. rewrite Z.quot_small_iff by lia.
  rewrite (Z.abs_eq width) by lia. reflexivity.
Qed.

Lemma Extended_findBorderUsingAvgHash_returns (fuel : nat) (img : Image)
    (dir : Point) :
  isDirection dir ->
  (passFuel (image.Bounds img) <= fuel)%nat ->
  Z.quot (sweptMax img (Pt (Y dir) (X dir))) 32 <> 0 ->
  exists p, Extended.findBorderUsingAvgHash fuel img dir = Ret p.
Proof.
  intros Hd Hf Hw. rewrite Extended_findBorderUsingAvgHash_hashScan.
  apply hashScan_returns; [ exact Hd | exact Hf | ].
  intros p. unfold hashLineExtended.
  destruct (Extended_lineAverageHash_Ret fuel img p (Pt (Y dir) (X dir))
              (isDirection_swap _ Hd) Hf Hw) as (a & h & E & _).
  eauto.
Qed.

Lemma Extended_findBorderUsingAvgHash_zero_window (fuel : nat) (img : Image)
    (dir : Point) :
  isDirection dir -> nonEmpty (image.Bounds img) -> (1 <= fuel)%nat ->
  Z.quot (sweptMax img (Pt (Y dir) (X dir))) 32 = 0 ->
  Extended.findBorderUsingAvgHash fuel img dir = Panic DivideByZero.
Proof.
  intros Hd Hne Hf Hw. unfold Extended.findBorderUsingAvgHash. cbv zeta.
  rewrite Extended_lineAverageHash_zero_window;
    [ reflexivity | exact Hf | now apply corner_In | exact Hw ].
Qed.

Lemma Simplified_findBorderUsingAvgHash_returns (fuel : nat) (img : Image)
    (dir : Point) :
  isDirection dir ->
  (passFuel (image.Bounds img) <= fuel)%nat ->
  RGBA64Image img = true ->
  Z.quot (sweptMax img (Pt (Y dir) (X dir))) 64 <> 0 ->
  exists p, Simplified.findBorderUsingAvgHash fuel img dir = Ret p.
Proof.
  intros Hd Hf Hrgb Hw. rewrite Simplified_findBorderUsingAvgHash_hashScan.
  apply hashScan_returns; [ exact Hd | exact Hf | ].
  intros p. unfold hashLineSimplified. rewrite Hrgb.
  destruct (Simplified_lineAverageHash_Ret fuel img p (Pt (Y dir) (X dir))
              (isDirection_swap _ Hd) Hf Hw) as (h & E & _).
  eauto.
Qed.

Lemma Simplified_findBorderUsingAvgHash_zero_window (fuel : nat) (img : Image)
    (dir : Point) :
  isDirection dir -> nonEmpty (image.Bounds img) -> (1 <= fuel)%nat ->
  RGBA64Image img = true ->
  Z.quot (sweptMax img (Pt (Y dir) (X dir))) 64 = 0 ->
  Simplified.findBorderUsingAvgHash fuel img dir = Panic DivideByZero.
Proof.
  intros Hd Hne Hf Hrgb Hw. unfold Simplified.findBorderUsingAvgHash. cbv zeta.
  rewrite Hrgb.
  rewrite Simplified_lineAverageHash_zero_window;
    [ reflexivity | exact Hf | now apply corner_In | exact Hw ].
Qed.

Lemma BoundsHash_panic_cases (fuel : nat) (img : Image) :
  nonEmpty (image.Bounds img) ->
  (passFuel (image.Bounds img) <= fuel)%nat ->
  (32 <= Z.abs (X (Max (image.Bounds img))) /\
   32 <= Z.abs (Y (Max (image.Bounds img))) ->
   exists r, Extended.BoundsHash fuel img = Ret r) /\
  (Z.abs (X (Max (image.Bounds img))) < 32 \/
   Z.abs (Y (Max (image.Bounds img))) < 32 ->
   Extended.BoundsHash fuel img = Panic DivideByZero) /\
  (RGBA64Image img = false ->
   Simplified.BoundsHash fuel img = Panic NilDereference) /\
  (RGBA64Image img = true ->
   64 <= Z.abs (X (Max (image.Bounds img))) /\
   64 <= Z.abs (Y (Max (image.Bounds img))) ->
   exists r, Simplified.BoundsHash fuel img = Ret r) /\
  (RGBA64Image img = true ->
   Z.abs (X (Max (image.Bounds img))) < 64 \/
   Z.abs (Y (Max (image.Bounds img))) < 64 ->
   Simplified.BoundsHash fuel img = Panic DivideByZero).
Proof.
  intros Hne Hf.
  assert (Hf1 : (1 <= fuel)%nat) by (unfold passFuel in Hf; lia).
  assert (Hwx : forall width, 0 < width ->
            (Z.quot (sweptMax img (Pt 1 0)) width = 0
             <-> Z.abs (X (Max (image.Bounds img))) < width))
    by (intros; apply quot_zero_iff; assumption).
  assert (Hwy : forall width, 0 < width ->
            (Z.quot (sweptMax img (Pt 0 1)) width = 0
             <-> Z.abs (Y (Max (image.Bounds img))) < width))
    by (intros; apply quot_zero_iff; assumption).
  assert (Hwx' : forall width, 0 < width ->
            (Z.quot (sweptMax img (Pt (-1) 0)) width = 0
             <-> Z.abs (X (Max (image.Bounds img))) < width))
    by (intros; apply quot_zero_iff; assumption).
  assert (Hwy' : forall width, 0 < width ->
            (Z.quot (sweptMax img (Pt 0 (-1))) width = 0
             <-> Z.abs (Y (Max (image.Bounds img))) < width))
    by (intros; apply quot_zero_iff; assumption).
  split; [ | split; [ | split; [ | split ] ] ].
  - intros [Hx Hy]. unfold Extended.BoundsHash.
    destruct (Extended_findBorderUsingAvgHash_returns fuel img _
                isDirection_left Hf) as (l & ->);
      [ cbn [X Y]; rewrite Hwy by lia; lia | ].
    destruct (Extended_findBorderUsingAvgHash_returns fuel img _
                isDirection_right Hf) as (r & ->);
      [ cbn [X Y]; rewrite Hwy' by lia; lia | ].
    destruct (Extended_findBorderUsingAvgHash_returns fuel img _
                isDirection_top Hf) as (t & ->);
      [ cbn [X Y]; rewrite Hwx by lia; lia | ].
    destruct (Extended_findBorderUsingAvgHash_returns fuel img _
                isDirection_bottom Hf) as (b & ->);
      [ cbn [X Y]; rewrite Hwx' by lia; lia | ].
    cbn [bind]. eauto.
  - intros Hsmall. unfold Extended.BoundsHash.
    destruct (Z_lt_dec (Z.abs (Y (Max (image.Bounds img)))) 32) as [ Hy | Hy ].
    + rewrite (Extended_findBorderUsingAvgHash_zero_window fuel img _
                 isDirection_left Hne Hf1);
        [ reflexivity | cbn [X Y]; apply Hwy; lia ].
    + destruct (Extended_findBorderUsingAvgHash_returns fuel img _
                  isDirection_left Hf) as (l & ->);
        [ cbn [X Y]; rewrite Hwy by lia; lia | ].
      destruct (Extended_findBorderUsingAvgHash_returns fuel img _
                  isDirection_right Hf) as (r & ->);
        [ cbn [X Y]; rewrite Hwy' by lia; lia | ].
      cbn [bind].
      rewrite (Extended_findBorderUsingAvgHash_zero_window fuel img _
                 isDirection_top Hne Hf1);
        [ reflexivity | cbn [X Y]; apply Hwx; lia ].
  - intros Hrgb. unfold Simplified.BoundsHash.
    rewrite (Simplified_findBorderUsingAvgHash_nil fuel img _ Hrgb). reflexivity.
  - intros Hrgb [Hx Hy]. unfold Simplified.BoundsHash.
    destruct (Simplified_findBorderUsingAvgHash_returns fuel img _
                isDirection_left Hf Hrgb) as (l & ->);
      [ cbn [X Y]; rewrite Hwy by lia; lia | ].
    destruct (Simplified_findBorderUsingAvgHash_returns fuel img _
                isDirection_right Hf Hrgb) as (r & ->);
      [ cbn [X Y]; rewrite Hwy' by lia; lia | ].
    destruct (Simplified_findBorderUsingAvgHash_returns fuel img _
                isDirection_top Hf Hrgb) as (t & ->);
      [ cbn [X Y]; rewrite Hwx by lia; lia | ].
    destruct (Simplified_findBorderUsingAvgHash_returns fuel img _
                isDirection_bottom Hf Hrgb) as (b & ->);
      [ cbn [X Y]; rewrite Hwx' by lia; lia | ].
    cbn [bind]. eauto.
  - intros Hrgb Hsmall. unfold Simplified.BoundsHash.
    destruct (Z_lt_dec (Z.abs (Y (Max (image.Bounds img)))) 64) as [ Hy | Hy ].
    + rewrite (Simplified_findBorderUsingAvgHash_zero_window fuel img _
                 isDirection_left Hne Hf1 Hrgb);
        [ reflexivity | cbn [X Y]; apply Hwy; lia ].
    + destruct (Simplified_findBorderUsingAvgHash_returns fuel img _
                  isDirection_left Hf Hrgb) as (l & ->);
        [ cbn [X Y]; rewrite Hwy by lia; lia | ].
      destruct (Simplified_findBorderUsingAvgHash_returns fuel img _
                  isDirection_right Hf Hrgb) as (r & ->);
        [ cbn [X Y]; rewrite Hwy' by lia; lia | ].
      cbn [bind].
      rewrite (Simplified_findBorderUsingAvgHash_zero_window fuel img _
                 isDirection_top Hne Hf1 Hrgb);
        [ reflexivity | cbn [X Y]; apply Hwx; lia ].
Qed.

(** X6.  For a raster that holds a pixel, [BoundsHash] of the extended profile
    returns a rectangle exactly when the [Max] coordinate of the bounds is at
    least 32 in absolute value in both axes, and panics with a division by
    zero otherwise.  In the simplified profile it panics on the nil interface
    for every raster that is no [image.RGBA64Image], and for the others
    returns exactly when [Max] is at least 64 in absolute value in both
    axes. *)
Theorem BoundsHash_panics_exactly (fuel : nat) (img : Image) :
  nonEmpty (image.Bounds img) ->
  (passFuel (image.Bounds img) <= fuel)%nat ->
  (32 <= Z.abs (X (Max (image.Bounds img))) /\
   32 <= Z.abs (Y (Max (image.Bounds img))) ->
   exists r, Extended.BoundsHash fuel img = Ret r) /\
  (Z.abs (X (Max (image.Bounds img))) < 32 \/
   Z.abs (Y (Max (image.Bounds img))) < 32 ->
   Extended.BoundsHash fuel img = Panic DivideByZero) /\
  (RGBA64Image img = false ->
   Simplified.BoundsHash fuel img = Panic NilDereference) /\
  (RGBA64Image img = true ->
   64 <= Z.abs (X (Max (image.Bounds img))) /\
   64 <= Z.abs (Y (Max (image.Bounds img))) ->
   exists r, Simplified.BoundsHash fuel img = Ret r) /\
  (RGBA64Image img = true ->
   Z.abs (X (Max (image.Bounds img))) < 64 \/
   Z.abs (Y (Max (image.Bounds img))) < 64 ->
   Simplified.BoundsHash fuel img = Panic DivideByZero).
Proof. exact (BoundsHash_panic_cases fuel img). Qed.

(** Witness: the white raster of 40 by 40 pixels is scanned, that of 40 by
    10 pixels stops the scan. *)
Lemma BoundsHash_panics_exactly_witness :
  (exists r, Extended.BoundsHash 41 white40 = Ret r) /\
  Extended.BoundsHash 41 white40x10 = Panic DivideByZero.
Proof.
  split.
  - destruct (BoundsHash_panics_exactly 41 white40) as (H & _).
    + unfold nonEmpty. cbn. lia.
    + vm_compute. lia.
    + apply H. cbn. lia.
  - destruct (BoundsHash_panics_exactly 41 white40x10) as (_ & H & _).
    + unfold nonEmpty. cbn. lia.
    + vm_compute. lia.
    + apply H. cbn. lia.
Defined.

(** ** The naive rectangle is the bounding box of the dark pixels *)

Lemma darkOnLine_line_dec (img : Image) (dir : Point) (k : nat) :
  isDirection dir ->
  darkOnLine img dir (line img dir k) \/ ~ darkOnLine img dir (line img dir k).
Proof.
  intros Hd.
  pose proof (scanLine_line (passFuel (image.Bounds img)) img dir k Hd
                (Nat.le_refl _)) as [Hdark Hblank].
  destruct (passFuel_steps (image.Bounds img) (Pt (Y dir) (X dir))
              (line img dir k) _ (isDirection_swap _ Hd) (Nat.le_refl _))
    as [Hf1 Hst].
  destruct (scanLine_returns _ img (line img dir k) (Pt (Y dir) (X dir))
              (isDirection_swap _ Hd) Hf1 Hst) as ([ | ] & Hb).
  - left. destruct (scanLine_true _ _ _ _ Hb) as (j & Hj & Hg).
    eexists. split; [ exact Hj | ]. split; [ now apply ray_sameLine | exact Hg ].
  - right. intros Hk. rewrite (Hdark Hk) in Hb. discriminate.
Qed.

Lemma first_dark_line (img : Image) (dir : Point) (K : nat) :
  isDirection dir ->
  darkOnLine img dir (line img dir K) ->
  exists k0 : nat,
    (k0 <= K)%nat /\ darkOnLine img dir (line img dir k0) /\
    forall j : nat, (j < k0)%nat -> ~ darkOnLine img dir (line img dir j).
Proof.
  intros Hd HK.
  assert (Hn : forall n : nat,
            (forall j : nat, (j < n)%nat -> ~ darkOnLine img dir (line img dir j)) \/
            exists k0 : nat,
              (k0 < n)%nat /\ darkOnLine img dir (line img dir k0) /\
              forall j : nat, (j < k0)%nat -> ~ darkOnLine img dir (line img dir j)).
  { induction n as [ | n [ IH | IH ] ].
    - left. intros j Hj. lia.
    - destruct (darkOnLine_line_dec img dir n Hd) as [ Hdn | Hbn ].
      + right. exists n. split; [ lia | ]. split; assumption.
      + left. intros j Hj. destruct (Nat.eq_dec j n) as [ -> | Hne ];
          [ exact Hbn | apply IH; lia ].
    - right. destruct IH as (k0 & Hk & Hrest). exists k0. split; [ lia | exact Hrest ]. }
  destruct (Hn (S K)) as [ Hnone | (k0 & Hk & Hrest) ].
  - exfalso. apply (Hnone K); [ lia | exact HK ].
  - exists k0. split; [ lia | exact Hrest ].
Qed.

Lemma along_line (img : Image) (dir : Point) (k : nat) :
  isDirection dir ->
  along dir (line img dir k) = along dir (line img dir 0) + Z.of_nat k.
Proof.
  intros Hd. unfold along. four_dirs Hd; unfold_points; lia.
Qed.

Lemma sameLine_along (dir p q : Point) :
  isDirection dir -> sameLine dir p q -> along dir q = along dir p.
Proof.
  intros Hd Hs. unfold along. four_dirs Hd; unfold_points; lia.
Qed.

(** Every pixel of the raster lies on one of the lines of a directional
    scan. *)
Lemma pixel_on_line (img : Image) (dir q : Point) :
  isDirection dir -> In q (image.Bounds img) = true ->
  exists k : nat, sameLine dir (line img dir k) q.
Proof.
  intros Hd Hq. apply In_true_iff in Hq.
  four_dirs Hd.
  - exists (Z.to_nat (X q - X (Min (image.Bounds img)))). unfold_points. lia.
  - exists (Z.to_nat (X (Max (image.Bounds img)) - 1 - X q)). unfold_points. lia.
  - exists (Z.to_nat (Y q - Y (Min (image.Bounds img)))). unfold_points. lia.
  - exists (Z.to_nat (Y (Max (image.Bounds img)) - 1 - Y q)). unfold_points. lia.
Qed.

(** With a dark pixel in the raster, the naive scanner stops at the first
    line [e] that holds one: no dark pixel lies before [e] in the sense of
    the scan, and one lies on it. *)
Lemma findBorder_first_dark (fuel : nat) (img : Image) (dir : Point) :
  isDirection dir ->
  (passFuel (image.Bounds img) <= fuel)%nat ->
  (exists q, darkAt img q) ->
  exists e : Point,
    findBorder fuel img dir = Ret (if negative dir then Sub e dir else e) /\
    (forall q, darkAt img q -> along dir e <= along dir q) /\
    (exists q, darkAt img q /\ along dir q = along dir e).
Proof.
  intros Hd Hf (q0 & Hq0 & Hg0).
  destruct (pixel_on_line img dir q0 Hd Hq0) as (K & HK).
  assert (HdK : darkOnLine img dir (line img dir K)) by (exists q0; auto).
  destruct (first_dark_line img dir K Hd HdK) as (k0 & _ & Hdark & Hblank).
  exists (line img dir k0).
  destruct (findBorder_spec fuel img dir Hd Hf) as [Hfound _].
  split; [ | split ].
  - apply Hfound; [ | exact Hdark | exact Hblank ].
    destruct Hdark as (q & Hq & Hs & _).
    exact (line_sameLine_In img dir q k0 Hd Hq Hs).
  - intros q (Hq & Hg).
    destruct (pixel_on_line img dir q Hd Hq) as (k & Hk).
    assert (Hdk : darkOnLine img dir (line img dir k)) by (exists q; auto).
    assert (Hle : (k0 <= k)%nat).
    { destruct (Nat.le_gt_cases k0 k) as [ Hle | Hlt ]; [ exact Hle | ].
      exfalso. exact (Hblank k Hlt Hdk). }
    rewrite (sameLine_along dir _ q Hd Hk).
    rewrite (along_line img dir k0 Hd), (along_line img dir k Hd). lia.
  - destruct Hdark as (q & Hq & Hs & Hg). exists q.
    split; [ split; assumption | ]. exact (sameLine_along dir _ q Hd Hs).
Qed.

Lemma Bounds_box (fuel : nat) (img : Image) :
  (passFuel (image.Bounds img) <= fuel)%nat ->
  (exists q, darkAt img q) ->
  exists r : Rectangle,
    Bounds fuel img = Ret r /\
    (forall q, darkAt img q -> In q r = true) /\
    (exists q, darkAt img q /\ X q = X (Min r)) /\
    (exists q, darkAt img q /\ X q = X (Max r) - 1) /\
    (exists q, darkAt img q /\ Y q = Y (Min r)) /\
    (exists q, darkAt img q /\ Y q = Y (Max r) - 1).
Proof.
  intros Hf Hex.
  destruct (findBorder_first_dark fuel img _ isDirection_left Hf Hex)
    as (el & El & Hl & (ql & Hql & Tl)).
  destruct (findBorder_first_dark fuel img _ isDirection_right Hf Hex)
    as (er & Er & Hr & (qr & Hqr & Tr)).
  destruct (findBorder_first_dark fuel img _ isDirection_top Hf Hex)
    as (et & Et & Ht & (qt & Hqt & Tt)).
  destruct (findBorder_first_dark fuel img _ isDirection_bottom Hf Hex)
    as (eb & Eb & Hb & (qb & Hqb & Tb)).
  unfold Bounds. rewrite El, Er, Et, Eb. cbn [bind].
  unfold negative, along, Sub in *. cbn [X Y Z.ltb Z.compare orb] in *.
  destruct Hex as (q0 & Hq0).
  pose proof (Hl q0 Hq0). pose proof (Hr q0 Hq0).
  pose proof (Ht q0 Hq0). pose proof (Hb q0 Hq0).
  unfold Rect.
  destruct (Z.ltb_spec (X er - -1) (X el)); [ lia | ].
  destruct (Z.ltb_spec (Y eb - -1) (Y et)); [ lia | ].
  eexists. split; [ reflexivity | ]. cbn [X Y Min Max].
  split; [ | split; [ | split; [ | split ] ] ].
  - intros q Hq. apply In_true_iff. cbn [X Y Min Max].
    pose proof (Hl q Hq). pose proof (Hr q Hq).
    pose proof (Ht q Hq). pose proof (Hb q Hq). lia.
  - exists ql. split; [ exact Hql | lia ].
  - exists qr. split; [ exact Hqr | lia ].
  - exists qt. split; [ exact Hqt | lia ].
  - exists qb. split; [ exact Hqb | lia ].
Qed.

(** X7.  When the raster holds a pixel of luminance at most 128, [Bounds] returns
    the bounding box of these pixels: every one of them lies in the
    rectangle, and each of its four sides passes through one of them (the
    maximum being exclusive). *)
Theorem Bounds_bounding_box (fuel : nat) (img : Image) :
  (passFuel (image.Bounds img) <= fuel)%nat ->
  (exists q, darkAt img q) ->
  exists r : Rectangle,
    Bounds fuel img = Ret r /\
    (forall q, darkAt img q -> In q r = true) /\
    (exists q, darkAt img q /\ X q = X (Min r)) /\
    (exists q, darkAt img q /\ X q = X (Max r) - 1) /\
    (exists q, darkAt img q /\ Y q = Y (Min r)) /\
    (exists q, darkAt img q /\ Y q = Y (Max r) - 1).
Proof. exact (Bounds_box fuel img). Qed.

Lemma twoDots_dark : darkAt twoDots (Pt 1 2).
Proof. split; vm_compute; congruence. Qed.

(** Witness: the black pixels of [twoDots] at (1,2) and (3,1) span the
    rectangle (1,1)-(4,3). *)
Lemma Bounds_bounding_box_witness :
  exists r : Rectangle,
    Bounds 6 twoDots = Ret r /\
    (forall q, darkAt twoDots q -> In q r = true) /\
    (exists q, darkAt twoDots q /\ X q = X (Min r)) /\
    (exists q, darkAt twoDots q /\ X q = X (Max r) - 1) /\
    (exists q, darkAt twoDots q /\ Y q = Y (Min r)) /\
    (exists q, darkAt twoDots q /\ Y q = Y (Max r) - 1).
Proof.
  apply (Bounds_bounding_box 6 twoDots).
  - vm_compute. lia.
  - exists (Pt 1 2). exact twoDots_dark.
Defined.

Lemma Bounds_no_dark (fuel : nat) (img : Image) :
  (passFuel (image.Bounds img) <= fuel)%nat ->
  (forall q, ~ darkAt img q) ->
  Bounds fuel img =
    Ret (Rect (X (Min (image.Bounds img))) (Y (Min (image.Bounds img)))
              (X (Max (image.Bounds img))) (Y (Max (image.Bounds img)))).
Proof.
  intros Hf Hblank.
  assert (Hb : forall dir, isDirection dir ->
            findBorder fuel img dir =
              Ret (if negative dir
                   then Sub (pointInScanCorner (image.Bounds img) dir) dir
                   else pointInScanCorner (image.Bounds img) dir)).
  { intros dir Hd. destruct (findBorder_spec fuel img dir Hd Hf) as [_ Hnone].
    apply Hnone. intros k _ (q & Hq & _ & Hg). apply (Hblank q). split; assumption. }
  unfold Bounds.
  rewrite (Hb _ isDirection_left), (Hb _ isDirection_right),
    (Hb _ isDirection_top), (Hb _ isDirection_bottom).
  cbn [bind]. unfold_points. do 2 f_equal; lia.
Qed.

(** X8.  When no pixel of the raster has luminance at most 128, [Bounds] crops
    nothing: it returns the bounds of the raster, put in order by
    [image.Rect]. *)
Theorem Bounds_blank (fuel : nat) (img : Image) :
  (passFuel (image.Bounds img) <= fuel)%nat ->
  (forall q, ~ darkAt img q) ->
  Bounds fuel img =
    Ret (Rect (X (Min (image.Bounds img))) (Y (Min (image.Bounds img)))
              (X (Max (image.Bounds img))) (Y (Max (image.Bounds img)))).
Proof. exact (Bounds_no_dark fuel img). Qed.

(** Witness: the white raster of 3 by 3 pixels. *)
Lemma Bounds_blank_witness :
  Bounds 4 white3 = Ret (Rectangle_ (Pt 0 0) (Pt 3 3)).
Proof.
  apply (Bounds_blank 4 white3).
  - vm_compute. lia.
  - intros q (_ & Hg). vm_compute in Hg. apply Hg. reflexivity.
Defined.

(** ** What the bits of a line hash say *)

Lemma sumGray_bounds (img : Image) (pt scan : Point) (start : Z) (len : nat) :
  0 <= sumGray img pt scan start len <= 255 * Z.of_nat len.
Proof.
  induction len as [ | l IH ]; cbn [sumGray]; [ lia | ].
  pose proof (GrayModel_range
                (At img (X (Add pt (Mul scan (start + Z.of_nat l))))
                        (Y (Add pt (Mul scan (start + Z.of_nat l)))))) as Hg.
  fold (grayAt img (Add pt (Mul scan (start + Z.of_nat l)))) in Hg. lia.
Qed.

Lemma Add_Mul_Z_succ (p d : Point) (k : Z) :
  Add (Add p (Mul d k)) d = Add p (Mul d (k + 1)).
Proof. unfold Add, Mul; cbn [X Y]. f_equal; lia. Qed.

Lemma testbit_setBit_eq (width n pos j : Z) :
  0 <= width -> 0 <= pos -> 0 <= j ->
  Z.testbit (Z.lor n (Z.shiftl 1 pos mod 2 ^ width)) j =
  Z.testbit n j || ((j =? pos) && (pos <? width)).
Proof.
  intros Hw Hpos Hj.
  rewrite Z.lor_spec, Z.testbit_mod_pow2, Z.shiftl_1_l, Z.pow2_bits_eqb by lia.
  f_equal. destruct (Z.eqb_spec pos j) as [ -> | Hne ].
  - rewrite Z.eqb_refl, andb_true_r. reflexivity.
  - rewrite andb_false_r. destruct (Z.eqb_spec j pos); [ lia | reflexivity ].
Qed.

(** Pixel [k] ends a window: [k = q * w + w - 1] for the window [q]. *)
Lemma window_end_mod (w k : Z) :
  0 < w -> 0 <= k -> k mod w = w - 1 ->
  0 <= k / w /\ k = (k / w) * w + w - 1 /\
  accStart w k = windowStart w (k / w) /\
  accStart w (k + 1) = k.
Proof.
  intros Hw Hk Hm.
  pose proof (Z.div_mod k w ltac:(lia)) as Hdm.
  pose proof (Z.div_pos k w Hk Hw) as Hq.
  assert (Hkq : k = (k / w) * w + w - 1) by lia.
  split; [ exact Hq | ]. split; [ exact Hkq | ]. split.
  - unfold accStart, windowStart.
    destruct (Z.ltb_spec k w); destruct (Z.eqb_spec (k / w) 0); try lia; nia.
  - unfold accStart.
    assert (Hk1 : k + 1 = (k / w + 1) * w) by lia.
    destruct (Z.ltb_spec (k + 1) w); [ nia | ].
    rewrite Hk1 at 1. rewrite Z.div_mul by lia. lia.
Qed.

(** Pixel [k] ends no window. *)
Lemma window_open_mod (w k : Z) :
  0 < w -> 0 <= k -> k mod w <> w - 1 ->
  accStart w (k + 1) = accStart w k /\
  k - accStart w k < w /\
  forall j, 0 <= j -> ((j + 1) * w <= k + 1 <-> (j + 1) * w <= k).
Proof.
  intros Hw Hk Hm.
  pose proof (Z.div_mod k w ltac:(lia)) as Hdm.
  pose proof (Z.mod_pos_bound k w Hw) as Hb.
  pose proof (Z.div_pos k w Hk Hw) as Hq.
  assert (Hdiv : (k + 1) / w = k / w).
  { symmetry. apply Z.div_unique with (r := k mod w + 1); lia. }
  split; [ | split ].
  - unfold accStart. rewrite Hdiv.
    destruct (Z.ltb_spec (k + 1) w); destruct (Z.ltb_spec k w); try lia.
    assert (k / w = 0) by (apply Z.div_small; lia). nia.
  - unfold accStart. destruct (Z.ltb_spec k w); nia.
  - intros j Hj. split; [ | lia ]. intros Hle.
    destruct (Z.eq_dec ((j + 1) * w) (k + 1)) as [ E | E ]; [ exfalso | lia ].
    apply Hm. symmetry.
    apply Z.mod_unique with (q := j); lia.
Qed.

(** The bits after a pixel that ends a window. *)
Lemma bitsUpTo_close (img : Image) (pt scan : Point) (w k width a ps : Z) :
  0 < w -> 0 <= k -> 0 <= width -> k mod w = w - 1 ->
  ps = sumGray img pt scan (accStart w k) (Z.to_nat (k - accStart w k)) ->
  bitsUpTo img pt scan w k width a ->
  bitsUpTo img pt scan w (k + 1) width
    (if grayDarknessLimit * w <? ps
     then Z.lor a (Z.shiftl 1 (k / w) mod 2 ^ width) else a).
Proof.
  intros Hw Hk Hwidth Hm Hps Hbits.
  destruct (window_end_mod w k Hw Hk Hm) as (Hq & Hkq & Hacc & _).
  assert (Hsum : ps = windowSum img pt scan w (k / w)).
  { unfold windowSum. rewrite Hps, Hacc. do 2 f_equal. lia. }
  intros j Hj. specialize (Hbits j Hj).
  assert (Hother : j <> k / w -> ((j + 1) * w <= k + 1 <-> (j + 1) * w <= k)).
  { intros Hne. split; [ | lia ]. intros Hle. nia. }
  destruct (Z.ltb_spec (grayDarknessLimit * w) ps) as [ Hc | Hc ].
  - rewrite testbit_setBit_eq by lia.
    destruct (Z.eqb_spec j (k / w)) as [ E | E ].
    + destruct (Z.ltb_spec (k / w) width); [ | lia ].
      rewrite orb_true_r. subst j. split; [ intros _ | reflexivity ].
      split; [ lia | ]. rewrite <- Hsum. exact Hc.
    + cbn [andb]. rewrite orb_false_r. rewrite Hbits. specialize (Hother E). tauto.
  - destruct (Z.eq_dec j (k / w)) as [ E | E ].
    + subst j. rewrite Hbits, <- Hsum. split; intros [H1 H2]; lia.
    + rewrite Hbits. specialize (Hother E). tauto.
Qed.

Lemma bitsUpTo_open (img : Image) (pt scan : Point) (w k width a : Z) :
  0 < w -> 0 <= k -> k mod w <> w - 1 ->
  bitsUpTo img pt scan w k width a ->
  bitsUpTo img pt scan w (k + 1) width a.
Proof.
  intros Hw Hk Hm Hbits j Hj.
  destruct (window_open_mod w k Hw Hk Hm) as (_ & _ & Hiff).
  rewrite (Hbits j Hj), (Hiff j) by lia. reflexivity.
Qed.

Lemma threshold_uint32 (w : Z) :
  0 < w < 2 ^ 24 -> uint32 (uint32 w * grayDarknessLimit) = grayDarknessLimit * w.
Proof.
  intros Hw. unfold uint32, grayDarknessLimit.
  rewrite (Z.mod_small w) by lia. rewrite Z.mod_small by lia. lia.
Qed.

(** [partialSum] after a pixel that ends a window: the pixel alone. *)
Lemma acc_close (img : Image) (pt scan : Point) (w k g : Z) :
  0 < w -> 0 <= k -> k mod w = w - 1 ->
  g = grayAt img (Add pt (Mul scan k)) ->
  uint32 (0 + g) =
    sumGray img pt scan (accStart w (k + 1))
      (Z.to_nat (k + 1 - accStart w (k + 1))).
Proof.
  intros Hw Hk Hm Hg.
  destruct (window_end_mod w k Hw Hk Hm) as (_ & _ & _ & ->).
  replace (Z.to_nat (k + 1 - k)) with 1%nat by lia.
  cbn [sumGray]. change (Z.of_nat 0) with 0. rewrite Z.add_0_r, <- Hg.
  pose proof (GrayModel_range (At img (X (Add pt (Mul scan k)))
                                      (Y (Add pt (Mul scan k))))) as Hr.
  fold (grayAt img (Add pt (Mul scan k))) in Hr. rewrite <- Hg in Hr.
  unfold uint32. rewrite Z.mod_small; lia.
Qed.

(** [partialSum] after a pixel that ends no window: one pixel more. *)
Lemma acc_open (img : Image) (pt scan : Point) (w k g ps : Z) :
  0 < w < 2 ^ 24 -> 0 <= k -> k mod w <> w - 1 ->
  g = grayAt img (Add pt (Mul scan k)) ->
  ps = sumGray img pt scan (accStart w k) (Z.to_nat (k - accStart w k)) ->
  uint32 (ps + g) =
    sumGray img pt scan (accStart w (k + 1))
      (Z.to_nat (k + 1 - accStart w (k + 1))).
Proof.
  intros Hw Hk Hm Hg Hps.
  destruct (window_open_mod w k ltac:(lia) Hk Hm) as (-> & Hlen & _).
  assert (Hacc : 0 <= accStart w k <= k).
  { unfold accStart. destruct (Z.ltb_spec k w); [ lia | ].
    pose proof (Z.div_mod k w ltac:(lia)).
    pose proof (Z.mod_pos_bound k w ltac:(lia)).
    assert (1 <= k / w) by (apply Z.div_le_lower_bound; lia). nia. }
  replace (Z.to_nat (k + 1 - accStart w k))
    with (S (Z.to_nat (k - accStart w k))) by lia.
  cbn [sumGray]. rewrite <- Hps.
  replace (accStart w k + Z.of_nat (Z.to_nat (k - accStart w k))) with k by lia.
  rewrite <- Hg.
  pose proof (sumGray_bounds img pt scan (accStart w k)
                (Z.to_nat (k - accStart w k))) as Hb.
  rewrite <- Hps in Hb.
  pose proof (GrayModel_range (At img (X (Add pt (Mul scan k)))
                                      (Y (Add pt (Mul scan k))))) as Hr.
  fold (grayAt img (Add pt (Mul scan k))) in Hr. rewrite <- Hg in Hr.
  unfold uint32. rewrite Z.mod_small; lia.
Qed.

Lemma Extended_closeWindow_avgHash (w : Z) (st : Extended.locals) :
  0 < w -> 0 <= Extended.i st ->
  exists st',
    Extended.closeWindow w st = Ret st' /\
    Extended.i st' = Extended.i st /\
    Extended.partialSum st' = 0 /\
    Extended.avgHash st' =
      if uint32 (uint32 w * grayDarknessLimit) <? Extended.partialSum st
      then Z.lor (Extended.avgHash st)
             (Z.shiftl 1 (Extended.i st / w) mod 2 ^ 32)
      else Extended.avgHash st.
Proof.
  intros Hw Hi.
  pose proof (Z.div_pos (Extended.i st) w Hi Hw) as Hq.
  assert (Eq : go_quo (Extended.i st) w = Ret (Extended.i st / w)).
  { unfold go_quo. destruct (Z.eqb_spec w 0); [ lia | ].
    rewrite Z.quot_div_nonneg by lia. reflexivity. }
  assert (Es : forall n, Extended.setBit32 n (Extended.i st / w) =
                 Ret (Z.lor n (Z.shiftl 1 (Extended.i st / w) mod 2 ^ 32))).
  { intros n. unfold Extended.setBit32, uint32.
    destruct (Z.ltb_spec (Extended.i st / w) 0); [ lia | reflexivity ]. }
  unfold Extended.closeWindow. cbv zeta.
  repeat first
    [ rewrite Eq | rewrite Es | progress cbn [bind]
    | match goal with
      | |- context [if ?c then _ else _] => destruct c
      end ];
    eexists; (split; [ reflexivity | ]);
    cbn [Extended.i Extended.avgHash Extended.partialSum];
    repeat split; reflexivity.
Qed.

Lemma Extended_hashPixel_bits (img : Image) (pt scan : Point) (w k : Z)
    (st : Extended.locals) :
  0 < w < 2 ^ 24 -> 0 <= k ->
  Extended.i st = k ->
  Extended.partialSum st =
    sumGray img pt scan (accStart w k) (Z.to_nat (k - accStart w k)) ->
  bitsUpTo img pt scan w k 32 (Extended.avgHash st) ->
  exists st',
    Extended.hashPixel w (grayAt img (Add pt (Mul scan k))) st = Ret st' /\
    Extended.i st' = k + 1 /\
    Extended.partialSum st' =
      sumGray img pt scan (accStart w (k + 1))
        (Z.to_nat (k + 1 - accStart w (k + 1))) /\
    bitsUpTo img pt scan w (k + 1) 32 (Extended.avgHash st').
Proof.
  intros Hw Hk Hi Hps Hbits. unfold Extended.hashPixel, go_rem.
  destruct (Z.eqb_spec w 0); [ lia | ]. cbn [bind].
  rewrite Hi, Z.rem_mod_nonneg by lia.
  destruct (Z.eqb_spec (k mod w) (w - 1)) as [ Hm | Hm ].
  - destruct (Extended_closeWindow_avgHash w st ltac:(lia) ltac:(lia))
      as (st1 & -> & Hi1 & Hps1 & Ha1).
    cbn [bind]. eexists. split; [ reflexivity | ].
    cbn [Extended.i Extended.partialSum Extended.avgHash].
    split; [ lia | ]. split.
    + rewrite Hps1. now apply acc_close.
    + rewrite Ha1, threshold_uint32, Hi by exact Hw.
      apply bitsUpTo_close; try assumption; lia.
  - cbn [bind]. eexists. split; [ reflexivity | ].
    cbn [Extended.i Extended.partialSum Extended.avgHash].
    split; [ lia | ]. split.
    + now apply acc_open.
    + apply bitsUpTo_open; try assumption; lia.
Qed.

Lemma Extended_loop_bits (img : Image) (pt scan : Point) (w n : Z) :
  0 < w < 2 ^ 24 -> 0 <= n ->
  (forall m, 0 <= m < n -> In (Add pt (Mul scan m)) (image.Bounds img) = true) ->
  In (Add pt (Mul scan n)) (image.Bounds img) = false ->
  forall (fuel : nat) (k : Z) (st : Extended.locals),
    0 <= k <= n -> n - k < Z.of_nat fuel ->
    Extended.i st = k ->
    Extended.partialSum st =
      sumGray img pt scan (accStart w k) (Z.to_nat (k - accStart w k)) ->
    bitsUpTo img pt scan w k 32 (Extended.avgHash st) ->
    exists a h,
      Extended.lineAverageHash_loop fuel img scan w (Add pt (Mul scan k)) st
        = Ret (a, h) /\
      bitsUpTo img pt scan w n 32 a.
Proof.
  intros Hw Hn Hin Hout.
  induction fuel as [ | fuel IH ]; intros k st Hk Hf Hi Hps Hbits; [ lia | ].
  cbn [Extended.lineAverageHash_loop].
  destruct (Z.eq_dec k n) as [ -> | Hne ].
  - rewrite Hout. eauto.
  - rewrite (Hin k) by lia.
    destruct (Extended_hashPixel_bits img pt scan w k st Hw ltac:(lia) Hi Hps Hbits)
      as (st1 & -> & Hi1 & Hps1 & Hbits1).
    cbn [bind]. rewrite Add_Mul_Z_succ.
    apply IH; try assumption; lia.
Qed.

Lemma bitsUpTo_init (img : Image) (pt scan : Point) (w width : Z) :
  0 < w -> bitsUpTo img pt scan w 0 width 0.
Proof.
  intros Hw j Hj. rewrite Z.bits_0. split; [ discriminate | ].
  intros [Hle _]. nia.
Qed.

Lemma accStart_init (img : Image) (pt scan : Point) (w : Z) :
  0 < w ->
  0 = sumGray img pt scan (accStart w 0) (Z.to_nat (0 - accStart w 0)).
Proof.
  intros Hw. unfold accStart. destruct (Z.ltb_spec 0 w); [ | lia ]. reflexivity.
Qed.

Lemma Add_Mul_Z0 (p d : Point) : Add p (Mul d 0) = p.
Proof. exact (Add_Mul_0 p d). Qed.

Lemma Simplified_closeWindow_hash (w : Z) (st : Simplified.locals) :
  0 < w -> 0 <= Simplified.i st ->
  exists st',
    Simplified.closeWindow w st = Ret st' /\
    Simplified.i st' = Simplified.i st /\
    Simplified.partialSum st' = 0 /\
    Simplified.hash st' =
      if uint32 (uint32 w * grayDarknessLimit) <? Simplified.partialSum st
      then Z.lor (Simplified.hash st)
             (Z.shiftl 1 (Simplified.i st / w) mod 2 ^ 64)
      else Simplified.hash st.
Proof.
  intros Hw Hi.
  pose proof (Z.div_pos (Simplified.i st) w Hi Hw) as Hq.
  assert (Eq : go_quo (Simplified.i st) w = Ret (Simplified.i st / w)).
  { unfold go_quo. destruct (Z.eqb_spec w 0); [ lia | ].
    rewrite Z.quot_div_nonneg by lia. reflexivity. }
  assert (Es : forall n, Simplified.setBit64 n (Simplified.i st / w) =
                 Ret (Z.lor n (Z.shiftl 1 (Simplified.i st / w) mod 2 ^ 64))).
  { intros n. unfold Simplified.setBit64, uint64.
    destruct (Z.ltb_spec (Simplified.i st / w) 0); [ lia | reflexivity ]. }
  unfold Simplified.closeWindow.
  repeat first
    [ rewrite Eq | rewrite Es | progress cbn [bind]
    | match goal with
      | |- context [if ?c then _ else _] => destruct c
      end ];
    eexists; (split; [ reflexivity | ]);
    cbn [Simplified.i Simplified.hash Simplified.partialSum];
    repeat split; reflexivity.
Qed.

Lemma Simplified_hashPixel_bits (img : Image) (pt scan : Point) (w k : Z)
    (st : Simplified.locals) :
  0 < w < 2 ^ 24 -> 0 <= k ->
  Simplified.i st = k ->
  Simplified.partialSum st =
    sumGray img pt scan (accStart w k) (Z.to_nat (k - accStart w k)) ->
  bitsUpTo img pt scan w k 64 (Simplified.hash st) ->
  exists st',
    Simplified.hashPixel w (grayAt img (Add pt (Mul scan k))) st = Ret st' /\
    Simplified.i st' = k + 1 /\
    Simplified.partialSum st' =
      sumGray img pt scan (accStart w (k + 1))
        (Z.to_nat (k + 1 - accStart w (k + 1))) /\
    bitsUpTo img pt scan w (k + 1) 64 (Simplified.hash st').
Proof.
  intros Hw Hk Hi Hps Hbits. unfold Simplified.hashPixel, go_rem.
  destruct (Z.eqb_spec w 0); [ lia | ]. cbn [bind].
  rewrite Hi, Z.rem_mod_nonneg by lia.
  destruct (Z.eqb_spec (k mod w) (w - 1)) as [ Hm | Hm ].
  - destruct (Simplified_closeWindow_hash w st ltac:(lia) ltac:(lia))
      as (st1 & -> & Hi1 & Hps1 & Ha1).
    cbn [bind]. eexists. split; [ reflexivity | ].
    cbn [Simplified.i Simplified.partialSum Simplified.hash].
    split; [ lia | ]. split.
    + rewrite Hps1. now apply acc_close.
    + rewrite Ha1, threshold_uint32, Hi by exact Hw.
      apply bitsUpTo_close; try assumption; lia.
  - cbn [bind]. eexists. split; [ reflexivity | ].
    cbn [Simplified.i Simplified.partialSum Simplified.hash].
    split; [ lia | ]. split.
    + now apply acc_open.
    + apply bitsUpTo_open; try assumption; lia.
Qed.

Lemma Simplified_loop_bits (img : Image) (pt scan : Point) (w n : Z) :
  0 < w < 2 ^ 24 -> 0 <= n ->
  (forall m, 0 <= m < n -> In (Add pt (Mul scan m)) (image.Bounds img) = true) ->
  In (Add pt (Mul scan n)) (image.Bounds img) = false ->
  forall (fuel : nat) (k : Z) (st : Simplified.locals),
    0 <= k <= n -> n - k < Z.of_nat fuel ->
    Simplified.i st = k ->
    Simplified.partialSum st =
      sumGray img pt scan (accStart w k) (Z.to_nat (k - accStart w k)) ->
    bitsUpTo img pt scan w k 64 (Simplified.hash st) ->
    exists h,
      Simplified.lineAverageHash_loop fuel img scan w (Add pt (Mul scan k)) st
        = Ret h /\
      bitsUpTo img pt scan w n 64 h.
Proof.
  intros Hw Hn Hin Hout.
  induction fuel as [ | fuel IH ]; intros k st Hk Hf Hi Hps Hbits; [ lia | ].
  cbn [Simplified.lineAverageHash_loop].
  destruct (Z.eq_dec k n) as [ -> | Hne ].
  - rewrite Hout. eauto.
  - rewrite (Hin k) by lia.
    destruct (Simplified_hashPixel_bits img pt scan w k st Hw ltac:(lia) Hi Hps Hbits)
      as (st1 & -> & Hi1 & Hps1 & Hbits1).
    cbn [bind]. rewrite Add_Mul_Z_succ.
    apply IH; try assumption; lia.
Qed.

(** X9.  What the bits of the base hash say.  Let a line scan from [pt] read [n]
    pixels and let the window size [w] be positive (and below 2^24, so that
    no sum of a window wraps around).  Bit [j] of the base hash of the
    extended profile, [j] below 32, is set exactly when pixel number
    [(j + 1) * w - 1] is read and the luminance of the [w] pixels before it
    sums to more than [128 * w].  The window of bit 0 holds [w - 1] pixels
    only, so with [w = 1] bit 0 is never set.  The same holds for the 64 bits
    of the hash of the simplified profile. *)
Theorem lineAverageHash_bits (fuel : nat) (img : Image) (pt scan : Point) (n : Z) :
  0 <= n ->
  (forall m, 0 <= m < n -> In (Add pt (Mul scan m)) (image.Bounds img) = true) ->
  In (Add pt (Mul scan n)) (image.Bounds img) = false ->
  n < Z.of_nat fuel ->
  (0 < Z.quot (sweptMax img scan) 32 < 2 ^ 24 ->
   exists a h,
     Extended.lineAverageHash fuel img pt scan = Ret (a, h) /\
     forall j, 0 <= j < 32 ->
       (Z.testbit a j = true <->
        (j + 1) * Z.quot (sweptMax img scan) 32 <= n /\
        128 * Z.quot (sweptMax img scan) 32
          < windowSum img pt scan (Z.quot (sweptMax img scan) 32) j)) /\
  (0 < Z.quot (sweptMax img scan) 64 < 2 ^ 24 ->
   exists h,
     Simplified.lineAverageHash fuel (Some img) pt scan = Ret h /\
     forall j, 0 <= j < 64 ->
       (Z.testbit h j = true <->
        (j + 1) * Z.quot (sweptMax img scan) 64 <= n /\
        128 * Z.quot (sweptMax img scan) 64
          < windowSum img pt scan (Z.quot (sweptMax img scan) 64) j)).
Proof.
  intros Hn Hin Hout Hf. split; intros Hw.
  - destruct (Extended_loop_bits img pt scan _ n Hw Hn Hin Hout fuel 0
                (Extended.Locals 0 0%float 0%float 0 0 0))
      as (a & h & E & Hbits);
      cbn [Extended.i Extended.partialSum Extended.avgHash]; try lia.
    + apply accStart_init. lia.
    + apply bitsUpTo_init. lia.
    + rewrite Add_Mul_Z0 in E. exists a, h. split; [ exact E | exact Hbits ].
  - destruct (Simplified_loop_bits img pt scan _ n Hw Hn Hin Hout fuel 0
                (Simplified.Locals 0 0 0))
      as (h & E & Hbits);
      cbn [Simplified.i Simplified.partialSum Simplified.hash]; try lia.
    + apply accStart_init. lia.
    + apply bitsUpTo_init. lia.
    + rewrite Add_Mul_Z0 in E. exists h. split; [ exact E | exact Hbits ].
Qed.

(** Witness: the first column of [whiteThenBlack] and of
    [whiteThenBlack64], 32 and 64 pixels under a window of one pixel. *)
Lemma lineAverageHash_bits_witness :
  (exists a h,
     Extended.lineAverageHash 33 whiteThenBlack (Pt 0 0) (Pt 0 1) = Ret (a, h) /\
     forall j, 0 <= j < 32 ->
       (Z.testbit a j = true <->
        (j + 1) * Z.quot (sweptMax whiteThenBlack (Pt 0 1)) 32 <= 32 /\
        128 * Z.quot (sweptMax whiteThenBlack (Pt 0 1)) 32
          < windowSum whiteThenBlack (Pt 0 0) (Pt 0 1)
              (Z.quot (sweptMax whiteThenBlack (Pt 0 1)) 32) j)) /\
  (exists h,
     Simplified.lineAverageHash 65 (Some whiteThenBlack64) (Pt 0 0) (Pt 0 1) = Ret h /\
     forall j, 0 <= j < 64 ->
       (Z.testbit h j = true <->
        (j + 1) * Z.quot (sweptMax whiteThenBlack64 (Pt 0 1)) 64 <= 64 /\
        128 * Z.quot (sweptMax whiteThenBlack64 (Pt 0 1)) 64
          < windowSum whiteThenBlack64 (Pt 0 0) (Pt 0 1)
              (Z.quot (sweptMax whiteThenBlack64 (Pt 0 1)) 64) j)).
Proof.
  split.
  - destruct (lineAverageHash_bits 33 whiteThenBlack (Pt 0 0) (Pt 0 1) 32)
      as [He _].
    + lia.
    + intros m Hm. apply In_true_iff.
      unfold whiteThenBlack, whiteThenBlack64, raster, Add, Mul.
      cbn [X Y Min Max image.Bounds]. lia.
    + reflexivity.
    + lia.
    + apply He. vm_compute. split; reflexivity.
  - destruct (lineAverageHash_bits 65 whiteThenBlack64 (Pt 0 0) (Pt 0 1) 64)
      as [_ Hs].
    + lia.
    + intros m Hm. apply In_true_iff.
      unfold whiteThenBlack, whiteThenBlack64, raster, Add, Mul.
      cbn [X Y Min Max image.Bounds]. lia.
    + reflexivity.
    + lia.
    + apply Hs. vm_compute. split; reflexivity.
Defined.

(** ** What [Auto] returns *)

(** X10.  The outcomes of [Auto] on a raster that holds a pixel (extended
    profile).  The scan runs before the capability is looked at: when the
    [Max] coordinate is below 32 in absolute value in an axis, [Auto] panics
    with a division by zero, with or without [SubImage].  Otherwise a raster
    without [SubImage] gets the error and no image, and a raster with it gets
    its sub-view at a well-formed rectangle within its bounds, the one
    [BoundsHash] returns. *)
Theorem Auto_outcomes (fuel : nat) (img : Image) :
  nonEmpty (image.Bounds img) ->
  (passFuel (image.Bounds img) <= fuel)%nat ->
  (Z.abs (X (Max (image.Bounds img))) < 32 \/
   Z.abs (Y (Max (image.Bounds img))) < 32 ->
   Extended.Auto fuel img = Panic DivideByZero) /\
  (32 <= Z.abs (X (Max (image.Bounds img))) /\
   32 <= Z.abs (Y (Max (image.Bounds img))) ->
   (SubImage img = None ->
    Extended.Auto fuel img =
      Ret (None, Some "image does not support cropping"%string)) /\
   (forall simg, SubImage img = Some simg ->
      exists r, Extended.BoundsHash fuel img = Ret r /\
                inside r (image.Bounds img) /\
                Extended.Auto fuel img = Ret (Some (simg r), None))).
Proof.
  intros Hne Hf.
  destruct (BoundsHash_panic_cases fuel img Hne Hf) as (Hret & Hpanic & _).
  split.
  - intros Hsmall. unfold Extended.Auto. rewrite (Hpanic Hsmall). reflexivity.
  - intros Hlarge. destruct (Hret Hlarge) as (r & Hr). split.
    + intros Hnone. unfold Extended.Auto, Crop. rewrite Hr, Hnone. reflexivity.
    + intros simg Hsome. exists r. split; [ exact Hr | ].
      split.
      * destruct (bounds_inside_cases fuel img r Hne) as (_ & He & _). auto.
      * unfold Extended.Auto, Crop. rewrite Hr, Hsome. reflexivity.
Qed.

(** Witness: the white raster of 40 by 10 pixels stops [Auto], and that of
    40 by 40 pixels, which has no [SubImage], gets the error. *)
Lemma Auto_outcomes_witness :
  Extended.Auto 41 white40x10 = Panic DivideByZero /\
  Extended.Auto 41 white40 =
    Ret (None, Some "image does not support cropping"%string).
Proof.
  split.
  - destruct (Auto_outcomes 41 white40x10) as (H & _).
    + unfold nonEmpty. cbn. lia.
    + vm_compute. lia.
    + apply H. cbn. lia.
  - destruct (Auto_outcomes 41 white40) as (_ & H).
    + unfold nonEmpty. cbn. lia.
    + vm_compute. lia.
    + destruct H as (Hnone & _); [ cbn; lia | ]. apply Hnone. reflexivity.
Defined.

(** ** Mirroring the raster *)

(** A raster holds a dark pixel or none. *)
Lemma dark_dec (img : Image) :
  (exists q, darkAt img q) \/ (forall q, ~ darkAt img q).
Proof.
  pose proof isDirection_left as Hd.
  assert (Hn : forall n : nat,
            (exists k : nat, (k < n)%nat /\ darkOnLine img (Pt 1 0) (line img (Pt 1 0) k)) \/
            (forall k : nat, (k < n)%nat -> ~ darkOnLine img (Pt 1 0) (line img (Pt 1 0) k))).
  { induction n as [ | n [ (k & Hk & Hdk) | IH ] ].
    - right. intros k Hk. lia.
    - left. exists k. split; [ lia | exact Hdk ].
    - destruct (darkOnLine_line_dec img (Pt 1 0) n Hd) as [ Hdn | Hbn ].
      + left. exists n. split; [ lia | exact Hdn ].
      + right. intros k Hk. destruct (Nat.eq_dec k n) as [ -> | Hne ];
          [ exact Hbn | apply IH; lia ]. }
  destruct (Hn (Z.to_nat (dirExtent (image.Bounds img) (Pt 1 0))))
    as [ (k & _ & (q & Hq & _ & Hg)) | Hnone ].
  - left. exists q. split; assumption.
  - right. intros q (Hq & Hg).
    destruct (pixel_on_line img (Pt 1 0) q Hd Hq) as (k & Hk).
    pose proof (line_sameLine_In img (Pt 1 0) q k Hd Hq Hk) as Hin.
    apply (line_In_iff img (Pt 1 0) k Hd) in Hin. destruct Hin as [_ Hlt].
    apply (Hnone k); [ lia | ]. exists q. auto.
Qed.

Lemma darkAt_mirrorX (img : Image) (q : Point) :
  darkAt (mirrorX img) q <->
  darkAt img (Pt (X (Min (image.Bounds img)) + X (Max (image.Bounds img)) - 1 - X q)
                 (Y q)).
Proof.
  unfold darkAt, grayAt, mirrorX. cbn [image.Bounds At X Y].
  rewrite !In_true_iff. cbn [X Y]. split; intros [Hin Hg]; (split; [ lia | exact Hg ]).
Qed.

(** X11.  Mirroring the raster left to right mirrors the rectangle of [Bounds]. *)
Theorem Bounds_mirror (fuel : nat) (img : Image) (r : Rectangle) :
  (passFuel (image.Bounds img) <= fuel)%nat ->
  X (Min (image.Bounds img)) <= X (Max (image.Bounds img)) ->
  Y (Min (image.Bounds img)) <= Y (Max (image.Bounds img)) ->
  Bounds fuel img = Ret r ->
  Bounds fuel (mirrorX img) = Ret (mirrorRectX (image.Bounds img) r).
Proof.
  intros Hf Hx Hy Hr.
  assert (Hf' : (passFuel (image.Bounds (mirrorX img)) <= fuel)%nat) by exact Hf.
  destruct (dark_dec img) as [ Hex | Hnone ].
  - destruct (Bounds_box fuel img Hf Hex)
      as (r0 & Hr0 & Hall & (ql & Hql & Tl) & (qr & Hqr & Tr)
             & (qt & Hqt & Tt) & (qb & Hqb & Tb)).
    assert (r0 = r) by congruence. subst r0.
    assert (Hex' : exists q, darkAt (mirrorX img) q).
    { destruct Hex as (q & Hq).
      exists (Pt (X (Min (image.Bounds img)) + X (Max (image.Bounds img)) - 1 - X q) (Y q)).
      apply darkAt_mirrorX. cbn [X Y].
      replace (X (Min (image.Bounds img)) + X (Max (image.Bounds img)) - 1 -
               (X (Min (image.Bounds img)) + X (Max (image.Bounds img)) - 1 - X q))
        with (X q) by lia.
      destruct q; exact Hq. }
    destruct (Bounds_box fuel (mirrorX img) Hf' Hex')
      as (r' & Hr' & Hall' & (ql' & Hql' & Tl') & (qr' & Hqr' & Tr')
             & (qt' & Hqt' & Tt') & (qb' & Hqb' & Tb')).
    rewrite Hr'. f_equal.
    (* the mirror image of a dark pixel of [img] *)
    assert (Hm : forall q, darkAt img q ->
              In (Pt (X (Min (image.Bounds img)) + X (Max (image.Bounds img)) - 1 - X q)
                     (Y q)) r' = true).
    { intros q Hq. apply Hall'. apply darkAt_mirrorX. cbn [X Y].
      replace (X (Min (image.Bounds img)) + X (Max (image.Bounds img)) - 1 -
               (X (Min (image.Bounds img)) + X (Max (image.Bounds img)) - 1 - X q))
        with (X q) by lia.
      destruct q; exact Hq. }
    assert (Hm' : forall q, darkAt (mirrorX img) q ->
              In (Pt (X (Min (image.Bounds img)) + X (Max (image.Bounds img)) - 1 - X q)
                     (Y q)) r = true).
    { intros q Hq. apply Hall. apply darkAt_mirrorX. exact Hq. }
    pose proof (Hm ql Hql) as M1. pose proof (Hm qr Hqr) as M2.
    pose proof (Hm qt Hqt) as M3. pose proof (Hm qb Hqb) as M4.
    pose proof (Hm' ql' Hql') as N1. pose proof (Hm' qr' Hqr') as N2.
    pose proof (Hm' qt' Hqt') as N3. pose proof (Hm' qb' Hqb') as N4.
    rewrite In_true_iff in M1, M2, M3, M4, N1, N2, N3, N4.
    cbn [X Y] in M1, M2, M3, M4, N1, N2, N3, N4.
    unfold mirrorRectX. destruct r' as [ [a b] [c d] ].
    cbn [X Y Min Max] in *. repeat f_equal; lia.
  - rewrite (Bounds_no_dark fuel img Hf Hnone), Rect_canon in Hr by lia.
    injection Hr as <-.
    rewrite (Bounds_no_dark fuel (mirrorX img) Hf').
    + cbn [image.Bounds mirrorX]. rewrite Rect_canon by lia.
      unfold mirrorRectX. destruct (image.Bounds img) as [ [a b] [c d] ].
      cbn [X Y Min Max]. repeat f_equal; lia.
    + intros q Hq. apply darkAt_mirrorX in Hq. exact (Hnone _ Hq).
Qed.

(** Witness: [twoDots] and its rectangle (1,1)-(4,3); the mirror image has
    its black pixels at (3,2) and (1,1). *)
Lemma Bounds_mirror_witness :
  Bounds 6 (mirrorX twoDots) =
    Ret (mirrorRectX (image.Bounds twoDots) (Rectangle_ (Pt 1 1) (Pt 4 3))).
Proof.
  apply (Bounds_mirror 6 twoDots).
  - vm_compute. lia.
  - cbn. lia.
  - cbn. lia.
  - vm_compute. reflexivity.
Defined.
